(** * parse-duration: a shallow embedding of [parseDurationMs]

    The TypeScript module exports [parseDurationMs], which turns a
    duration text ("1h 30m", "01:30:15.250", "1500") into a number of
    milliseconds or throws an [Error].  The embedding follows the source
    line by line:

    - a JavaScript string is the list of its UTF-16 code units;
    - a JavaScript number is an IEEE 754 binary64 value: the finite ones
      are carried by the rational they denote, and every arithmetic
      operation is the exact operation followed by rounding to nearest,
      ties to even;
    - [throw new Error(...)] is the [Throw] constructor of [completion],
      with one constructor of [error] per message template. *)

From Stdlib Require Import String Ascii.
From Stdlib Require Import List Bool Arith ZArith NArith.
From Stdlib Require Import QArith Qround Qabs Qpower Qcanon.
From Stdlib Require Import Lia Lqa Morphisms.
From Stdlib Require SpecFloat.
Import ListNotations.


(** ** Strings *)

Module Str.
Local Open Scope N_scope.

Definition char := N.
Definition jsstring := list char.

(** A literal of the source, written as a Rocq string. *)
Definition str (s : string) : jsstring :=
  List.map N_of_ascii (list_ascii_of_string s).

Definition quote : char := 34.
Definition colon : char := 58.
Definition dot : char := 46.
Definition minus : char := 45.
Definition plus : char := 43.

(** [WhiteSpace] and [LineTerminator] of ECMAScript: what [trim] strips
    and what [\s] matches. *)
Definition is_space (c : char) : bool :=
  ((9 <=? c) && (c <=? 13)) || (c =? 32) || (c =? 160) || (c =? 5760)
  || ((8192 <=? c) && (c <=? 8202)) || (c =? 8232) || (c =? 8233)
  || (c =? 8239) || (c =? 8287) || (c =? 12288) || (c =? 65279).

(** [\d] *)
Definition is_digit (c : char) : bool := (48 <=? c) && (c <=? 57).

(** [[a-zA-Z]] *)
Definition is_alpha (c : char) : bool :=
  ((65 <=? c) && (c <=? 90)) || ((97 <=? c) && (c <=? 122)).

(** [[+-]] *)
Definition is_sign (c : char) : bool := (c =? plus) || (c =? minus).

Definition is_empty (s : jsstring) : bool :=
  match s with [] => true | _ :: _ => false end.

Fixpoint eqb (a b : jsstring) : bool :=
  match a, b with
  | [], [] => true
  | x :: a', y :: b' => (x =? y) && eqb a' b'
  | _, _ => false
  end.

Fixpoint drop_while (p : char -> bool) (s : jsstring) : jsstring :=
  match s with
  | [] => []
  | c :: r => if p c then drop_while p r else s
  end.

(** [String.prototype.trim] *)
Definition trim (s : jsstring) : jsstring :=
  rev (drop_while is_space (rev (drop_while is_space s))).

(** [String.prototype.includes] for a one-character needle. *)
Definition includes (c : char) (s : jsstring) : bool :=
  existsb (N.eqb c) s.

(** [String.prototype.startsWith] for a one-character needle. *)
Definition startsWith (c : char) (s : jsstring) : bool :=
  match s with
  | [] => false
  | x :: _ => x =? c
  end.

(** [String.prototype.split] for a one-character separator: always at
    least one part, one more than the number of separators. *)
Fixpoint split (sep : char) (s : jsstring) : list jsstring :=
  match s with
  | [] => [[]]
  | c :: r =>
      if c =? sep then [] :: split sep r
      else match split sep r with
           | [] => [[c]]
           | p :: ps => (c :: p) :: ps
           end
  end.

(** [String.prototype.toLowerCase] on the code units it can change in a
    text of ASCII letters. *)
Definition lower (c : char) : char :=
  if (65 <=? c) && (c <=? 90) then c + 32 else c.

Definition toLowerCase (s : jsstring) : jsstring := List.map lower s.

(** The longest prefix of [s] whose code units satisfy [p], and the rest:
    what a greedy [p*] consumes. *)
Fixpoint span (p : char -> bool) (s : jsstring) : jsstring * jsstring :=
  match s with
  | [] => ([], [])
  | c :: r =>
      if p c then let (a, b) := span p r in (c :: a, b) else ([], s)
  end.

End Str.
Import Str.

(** ** Numbers: IEEE 754 binary64 *)

Module F64.
Local Open Scope Q_scope.

(** A Number value.  [Fin q] is the finite double whose value is the
    rational [q] ([Fin 0] is +0); [NegZero] is -0. *)
Inductive number : Type :=
| NaN
| Inf (negative : bool)
| NegZero
| Fin (q : Q).

(** [2 ^ k] for any integer [k]. *)
Definition pow2 (k : Z) : Q :=
  if (k <? 0)%Z then 1 # Z.to_pos (2 ^ (- k)) else inject_Z (2 ^ k).

(** [floor (log2 x)] for [0 < x]. *)
Definition ilog2 (x : Q) : Z :=
  let k := (Z.log2 (Qnum x) - Z.log2 (Zpos (Qden x)))%Z in
  if Qle_bool (pow2 k) x then k else (k - 1)%Z.

(** The integer nearest to [y], ties to the even one. *)
Definition rne (y : Q) : Z :=
  let f := Qfloor y in
  match Qcompare (y - inject_Z f) (1 # 2) with
  | Lt => f
  | Gt => (f + 1)%Z
  | Eq => if Z.even f then f else (f + 1)%Z
  end.

(** The exponent of the unit in the last place of [x]: 53 significant
    bits, and never below the subnormal spacing [2 ^ -1074]. *)
Definition ulp_exp (x : Q) : Z := Z.max (ilog2 x - 52) (-1074).

(** Rounding of a positive real to binary64: the significand is rounded
    to an integer multiple of the unit in the last place, and a result of
    [2 ^ 1024] or more overflows to infinity. *)
Definition round_pos (x : Q) : number :=
  let e := ulp_exp x in
  let v := inject_Z (rne (x / pow2 e)) * pow2 e in
  if Qle_bool (pow2 1024) v then Inf false else Fin (Qred v).

(** Unary minus. *)
Definition fneg (a : number) : number :=
  match a with
  | NaN => NaN
  | Inf s => Inf (negb s)
  | NegZero => Fin 0
  | Fin q => if Qeq_bool q 0 then NegZero else Fin (Qred (- q))
  end.

(** Rounding of a real to binary64; a negative real that underflows
    gives -0. *)
Definition round64 (x : Q) : number :=
  match Qcompare x 0 with
  | Eq => Fin 0
  | Gt => round_pos x
  | Lt => fneg (round_pos (- x))
  end.

(** The sign bit. *)
Definition signbit (a : number) : bool :=
  match a with
  | NaN => false
  | Inf s => s
  | NegZero => true
  | Fin q => match Qcompare q 0 with Lt => true | _ => false end
  end.

(** The real a finite number denotes. *)
Definition value (a : number) : Q :=
  match a with
  | Fin q => q
  | _ => 0
  end.

Definition is_zero (a : number) : bool :=
  match a with
  | NegZero => true
  | Fin q => Qeq_bool q 0
  | _ => false
  end.

(** [Number.isFinite] *)
Definition isFinite (a : number) : bool :=
  match a with
  | NegZero | Fin _ => true
  | NaN | Inf _ => false
  end.

(** [Math.abs] *)
Definition Math_abs (a : number) : number :=
  if signbit a then fneg a else a.

(** [a * b] *)
Definition fmul (a b : number) : number :=
  match a, b with
  | NaN, _ | _, NaN => NaN
  | Inf s, c | c, Inf s =>
      if is_zero c then NaN else Inf (xorb s (signbit c))
  | _, _ =>
      if is_zero a || is_zero b
      then (if xorb (signbit a) (signbit b) then NegZero else Fin 0)
      else round64 (value a * value b)
  end.

(** [a + b] *)
Definition fadd (a b : number) : number :=
  match a, b with
  | NaN, _ | _, NaN => NaN
  | Inf s, Inf t => if Bool.eqb s t then Inf s else NaN
  | Inf s, _ | _, Inf s => Inf s
  | NegZero, NegZero => NegZero
  | _, _ => round64 (value a + value b)
  end.

(** [a < b] *)
Definition flt (a b : number) : bool :=
  match a, b with
  | NaN, _ | _, NaN => false
  | Inf s, Inf t => s && negb t
  | Inf s, _ => s
  | _, Inf t => negb t
  | _, _ => match Qcompare (value a) (value b) with Lt => true | _ => false end
  end.

(** [a >= b] *)
Definition fge (a b : number) : bool :=
  match a, b with
  | NaN, _ | _, NaN => false
  | Inf s, Inf t => negb s || t
  | Inf s, _ => negb s
  | _, Inf t => t
  | _, _ => match Qcompare (value a) (value b) with Lt => false | _ => true end
  end.

(** [Math.round]: the nearest integer, a tie going to the larger one;
    -0 when the argument is -0 or lies in [-0.5, 0). *)
Definition Math_round (a : number) : number :=
  match a with
  | Fin q =>
      let n := Qfloor (q + (1 # 2)) in
      if (n =? 0)%Z && signbit a then NegZero else Fin (inject_Z n)
  | _ => a
  end.

(** Numeric equality [==] of two numbers (-0 equals +0, NaN equals
    nothing). *)
Definition num_eqb (a b : number) : bool :=
  match a, b with
  | NaN, _ | _, NaN => false
  | Inf s, Inf t => Bool.eqb s t
  | Inf _, _ | _, Inf _ => false
  | _, _ => Qeq_bool (value a) (value b)
  end.

(** An integer constant of the source. *)
Definition of_Z (z : Z) : number := Fin (inject_Z z).

(** The same value in the Standard Library's IEEE 754 specification. *)
Definition to_spec (a : number) : SpecFloat.spec_float :=
  match a with
  | NaN => SpecFloat.S754_nan
  | Inf s => SpecFloat.S754_infinity s
  | NegZero => SpecFloat.S754_zero true
  | Fin q =>
      SpecFloat.binary_normalize 53 1024
        (Qnum q) (- Z.log2 (Zpos (Qden q))) false
  end.

End F64.
Import F64.

(** ** Regular expressions of the source *)

Module Re.
Local Open Scope N_scope.

(** The constructs the patterns of the source use. *)
Inductive regex : Type :=
| Class (p : char -> bool)
| Seq (a b : regex)
| Opt (a : regex)
| Star (a : regex)
| Plus (a : regex).

(** Greedy repetition of one step: first one more turn, then stopping
    here.  A turn that consumes nothing is refused, so the length of the
    text bounds the number of turns. *)
Fixpoint iterate (step : jsstring -> list jsstring) (fuel : nat)
  (s : jsstring) : list jsstring :=
  match fuel with
  | O => [s]
  | S fuel' =>
      flat_map
        (fun s' =>
           if Nat.ltb (length s') (length s) then iterate step fuel' s'
           else [])
        (step s)
      ++ [s]
  end.

(** The backtracking matcher: what is left of [s] after each way of
    matching [r] at its front, in the order in which the matcher tries
    them (a greedy quantifier tries the longer alternative first). *)
Fixpoint run (r : regex) (s : jsstring) : list jsstring :=
  match r with
  | Class p =>
      match s with
      | c :: s' => if p c then [s'] else []
      | [] => []
      end
  | Seq a b => flat_map (run b) (run a s)
  | Opt a => run a s ++ [s]
  | Star a => iterate (run a) (length s) s
  | Plus a => flat_map (fun s' => iterate (run a) (length s') s') (run a s)
  end.

(** [/^r$/.test(s)]: some way of matching [r] uses up the text. *)
Definition test (r : regex) (s : jsstring) : bool :=
  existsb is_empty (run r s).

(** What a match from [s] down to [rest] has consumed. *)
Definition consumed (s rest : jsstring) : jsstring :=
  firstn (length s - length rest) s.

(** [\d+] *)
Definition re_digits : regex := Plus (Class is_digit).

(** [[+-]?] *)
Definition re_sign : regex := Opt (Class is_sign).

(** [\d+(?:\.\d+)?] *)
Definition re_decimal : regex :=
  Seq re_digits (Opt (Seq (Class (N.eqb dot)) re_digits)).

(** [[+-]?\d+(?:\.\d+)?] *)
Definition re_number : regex := Seq re_sign re_decimal.

(** [/^\d+$/.test(s)] *)
Definition test_digits : jsstring -> bool := test re_digits.

(** [/^[+-]?\d+$/.test(s)] *)
Definition test_signed_digits : jsstring -> bool :=
  test (Seq re_sign re_digits).

(** [/^\d+(?:\.\d+)?$/.test(s)] *)
Definition test_decimal : jsstring -> bool := test re_decimal.

(** [/^[+-]?\d+(?:\.\d+)?$/.test(s)] *)
Definition test_signed_decimal : jsstring -> bool := test re_number.

(** One match of [TOKEN_REG_EX]: capture 1 (the number) and capture 2
    (the unit letters). *)
Record token : Type := Token { tok_number : jsstring; tok_unit : jsstring }.

(** [TOKEN_REG_EX = /([+-]?\d+(?:\.\d+)?)\s*([a-zA-Z]+)/g] tried at the
    front of [s]: the first way the matcher finds, with its two captures
    and what follows the match. *)
Definition TOKEN_REG_EX (s : jsstring) : option (token * jsstring) :=
  hd_error
    (flat_map
       (fun s1 =>
          flat_map
            (fun s2 =>
               List.map (fun s3 => (Token (consumed s s1) (consumed s2 s3), s3))
                        (run (Plus (Class is_alpha)) s2))
            (run (Star (Class is_space)) s1))
       (run re_number s)).

(** A global scan cuts the text into the matches, leftmost first and not
    overlapping, and the code units between them: where no match starts,
    the scan moves one code unit on; after a match it goes on at the end
    of the match. *)
Inductive piece : Type :=
| Skipped (c : char)
| Matched (t : token).

Fixpoint scan_from (fuel : nat) (s : jsstring) : list piece :=
  match fuel, s with
  | O, _ | _, [] => []
  | S fuel', c :: r =>
      match TOKEN_REG_EX s with
      | Some (t, rest) => Matched t :: scan_from fuel' rest
      | None => Skipped c :: scan_from fuel' r
      end
  end.

(** A match is never empty, so one unit of fuel per code unit is
    enough. *)
Definition scan (s : jsstring) : list piece := scan_from (length s) s.

(** [s.matchAll(TOKEN_REG_EX)] *)
Definition matchAll (s : jsstring) : list token :=
  flat_map (fun p => match p with Matched t => [t] | Skipped _ => [] end)
           (scan s).

(** [s.replace(TOKEN_REG_EX, '')] *)
Definition replace_all (s : jsstring) : jsstring :=
  flat_map (fun p => match p with Matched _ => [] | Skipped c => [c] end)
           (scan s).

End Re.
Import Re.

(** ** Decimal literals *)

(** An optional sign at the front of [s]: the sign and the rest. *)
Definition opt_sign (s : jsstring) : jsstring * jsstring :=
  match s with
  | c :: r => if is_sign c then ([c], r) else ([], s)
  | [] => ([], [])
  end.

(** The digits at the front of [s], at least one, and the rest. *)
Definition digits1 (s : jsstring) : option (jsstring * jsstring) :=
  match span is_digit s with
  | ([], _) => None
  | (ds, r) => Some (ds, r)
  end.

(** A dot and digits at the front of [s], when both are there, and the
    rest. *)
Definition opt_fraction (s : jsstring) : jsstring * jsstring :=
  match s with
  | c :: r =>
      if (c =? dot)%N then
        match digits1 r with
        | Some (fs, r') => (c :: fs, r')
        | None => ([], s)
        end
      else ([], s)
  | [] => ([], [])
  end.

(** ** String to Number *)

Local Open Scope Q_scope.

Definition digit_value (c : char) : Z := Z.of_N (c - 48).

(** The integer a run of decimal digits writes. *)
Definition digits_value (ds : jsstring) : Z :=
  fold_left (fun acc c => (10 * acc + digit_value c)%Z) ds 0%Z.

(** The mathematical value of an unsigned decimal text [digits] or
    [digits.digits]. *)
Definition decimal_value (int frac : jsstring) : Q :=
  inject_Z (digits_value (int ++ frac))
  / inject_Z (10 ^ Z.of_nat (length frac)).

(** [Number(s)] for the texts the source hands to it: at every call the
    argument has passed one of the tests above or is capture 1 of
    [TOKEN_REG_EX], so it is an optional sign, digits and an optional
    fraction.  The result is the double nearest to the mathematical value
    (ties to even), negated under a minus sign; ECMAScript requires this
    of a literal of up to 20 significant digits and the engines do it for
    every literal.  Other texts, which no call site can pass, are given
    NaN. *)
Definition StringToNumber (s : jsstring) : number :=
  let (sg, s1) := opt_sign s in
  match digits1 s1 with
  | None => NaN
  | Some (ds, s2) =>
      match opt_fraction s2 with
      | (fr, []) =>
          let n := round64 (decimal_value ds (tl fr)) in
          if startsWith minus sg then fneg n else n
      | _ => NaN
      end
  end.

(** ** The unit table *)

(** What a property read on an object can give here. *)
Inductive jsvalue : Type :=
| Undefined
| NumberV (n : number)
| FunctionV
| ObjectV.

(** The own properties of [UNIT_MS], in source order. *)
Definition UNIT_MS : list (jsstring * number) :=
  [ (str "ms", of_Z 1); (str "millisecond", of_Z 1);
    (str "milliseconds", of_Z 1); (str "msec", of_Z 1);
    (str "msecs", of_Z 1);
    (str "s", of_Z 1000); (str "sec", of_Z 1000); (str "secs", of_Z 1000);
    (str "second", of_Z 1000); (str "seconds", of_Z 1000);
    (str "m", of_Z 60000); (str "min", of_Z 60000);
    (str "mins", of_Z 60000); (str "minute", of_Z 60000);
    (str "minutes", of_Z 60000);
    (str "h", of_Z 3600000); (str "hr", of_Z 3600000);
    (str "hrs", of_Z 3600000); (str "hour", of_Z 3600000);
    (str "hours", of_Z 3600000);
    (str "d", of_Z 86400000); (str "day", of_Z 86400000);
    (str "days", of_Z 86400000) ].

Fixpoint assoc (k : jsstring) (l : list (jsstring * number)) : option number :=
  match l with
  | [] => None
  | (k', v) :: l' => if Str.eqb k k' then Some v else assoc k l'
  end.

(** The properties every object literal inherits from
    [Object.prototype]: functions, and the [__proto__] accessor, which
    gives the prototype object itself. *)
Definition Object_prototype : list (jsstring * jsvalue) :=
  [ (str "constructor", FunctionV);
    (str "hasOwnProperty", FunctionV);
    (str "isPrototypeOf", FunctionV);
    (str "propertyIsEnumerable", FunctionV);
    (str "toLocaleString", FunctionV);
    (str "toString", FunctionV);
    (str "valueOf", FunctionV);
    (str "__defineGetter__", FunctionV);
    (str "__defineSetter__", FunctionV);
    (str "__lookupGetter__", FunctionV);
    (str "__lookupSetter__", FunctionV);
    (str "__proto__", ObjectV) ].

Fixpoint inherited (k : jsstring) (l : list (jsstring * jsvalue)) : jsvalue :=
  match l with
  | [] => Undefined
  | (k', v) :: l' => if Str.eqb k k' then v else inherited k l'
  end.

(** [UNIT_MS[k]]: an own property, or else one found on the prototype
    chain, or else [undefined]. *)
Definition UNIT_MS_get (k : jsstring) : jsvalue :=
  match assoc k UNIT_MS with
  | Some n => NumberV n
  | None => inherited k Object_prototype
  end.

(** [!v] *)
Definition falsy (v : jsvalue) : bool :=
  match v with
  | Undefined => true
  | NumberV NaN => true
  | NumberV n => is_zero n
  | FunctionV | ObjectV => false
  end.

(** The operand conversion of [*]: a function or a plain object converts
    to a text that is no numeric literal, hence to NaN. *)
Definition ToNumber (v : jsvalue) : number :=
  match v with
  | NumberV n => n
  | Undefined | FunctionV | ObjectV => NaN
  end.

(** ** Errors *)

(** One constructor per message template of the source. *)
Inductive error : Type :=
| InvalidColon (raw : jsstring)
| InvalidNumber (raw : jsstring)
| InvalidNumberIn (text raw : jsstring)
| UnknownUnit (unit raw : jsstring)
| CouldNotFullyParse (raw : jsstring).

Definition quoted (s : jsstring) : jsstring := quote :: s ++ [quote].

(** The message of the thrown [Error]. *)
Definition message (e : error) : jsstring :=
  match e with
  | InvalidColon raw =>
      str "parseDurationMs: invalid " ++ quoted (str ":")
      ++ str " duration " ++ quoted raw
  | InvalidNumber raw =>
      str "parseDurationMs: invalid number " ++ quoted raw
  | InvalidNumberIn text raw =>
      str "parseDurationMs: invalid number " ++ quoted text
      ++ str " in " ++ quoted raw
  | UnknownUnit unit raw =>
      str "parseDurationMs: unknown unit " ++ quoted unit
      ++ str " in " ++ quoted raw
  | CouldNotFullyParse raw =>
      str "parseDurationMs: could not fully parse " ++ quoted raw
  end.

(** How a call ends. *)
Inductive completion : Type :=
| Return (n : number)
| Throw (e : error).

(** ** parseColonTimeToMs *)

Definition parseColonTimeToMs (s : jsstring) : option number :=
  let parts := split colon s in
  if negb (Nat.eqb (length parts) 2) && negb (Nat.eqb (length parts) 3)
  then None else
  let hStr := trim (nth 0 parts []) in
  let mStr := trim (nth 1 parts []) in
  let sStr := if Nat.eqb (length parts) 3
              then Some (trim (nth 2 parts [])) else None in
  if is_empty hStr || is_empty mStr then None else
  if negb (test_signed_digits hStr) then None else
  if negb (test_digits mStr) then None else
  if match sStr with Some x => negb (test_decimal x) | None => false end
  then None else
  let sign := if startsWith minus hStr then of_Z (-1) else of_Z 1 in
  let hours := Math_abs (StringToNumber hStr) in
  let minutes := StringToNumber mStr in
  let seconds := match sStr with
                 | Some x => StringToNumber x
                 | None => of_Z 0
                 end in
  if negb (isFinite hours) || negb (isFinite minutes)
     || negb (isFinite seconds) then None else
  if flt minutes (of_Z 0) || fge minutes (of_Z 60) then None else
  if flt seconds (of_Z 0) || fge seconds (of_Z 60) then None else
  let total :=
    fmul (fadd (fadd (fmul hours (of_Z 3600000)) (fmul minutes (of_Z 60000)))
               (fmul seconds (of_Z 1000)))
         sign in
  Some (Math_round total).

(** ** parseDurationMs *)

(** One turn of the [for ... of] loop over the matches: the state is
    [total]; a [throw] leaves the loop. *)
Definition token_step (raw : jsstring) (total : number) (m : token)
  : error + number :=
  let value := StringToNumber (tok_number m) in
  let unit := toLowerCase (tok_unit m) in
  if negb (isFinite value) then inl (InvalidNumberIn (tok_number m) raw) else
  let msPer := UNIT_MS_get unit in
  if falsy msPer then inl (UnknownUnit (tok_unit m) raw) else
  inr (fadd total (fmul value (ToNumber msPer))).

Fixpoint token_loop (raw : jsstring) (total : number) (ms : list token)
  : error + number :=
  match ms with
  | [] => inr total
  | m :: ms' =>
      match token_step raw total m with
      | inl e => inl e
      | inr total' => token_loop raw total' ms'
      end
  end.

Definition parseDurationMs (input : jsstring) : completion :=
  let raw := input in
  let trimmed := trim raw in
  if is_empty trimmed then Return (of_Z 0) else
  if includes colon trimmed then
    match parseColonTimeToMs trimmed with
    | None => Throw (InvalidColon raw)
    | Some ms => Return ms
    end
  else
  if test_signed_decimal trimmed then
    let n := StringToNumber trimmed in
    if negb (isFinite n) then Throw (InvalidNumber raw)
    else Return (Math_round n)
  else
  match token_loop raw (of_Z 0) (matchAll trimmed) with
  | inl e => Throw e
  | inr total =>
      let matchedAny := negb (Nat.eqb (length (matchAll trimmed)) 0) in
      let remainder := trim (replace_all trimmed) in
      if negb matchedAny || Nat.ltb 0 (length remainder)
      then Throw (CouldNotFullyParse raw)
      else Return (Math_round total)
  end.

(** ** isDurationUnit *)

(** The canonical unit spellings, as the specification lists them; they
    are the members of the type [DurationUnit] of the source. *)
Definition canonical_units : list jsstring :=
  List.map str
    [ "ms"; "msec"; "msecs"; "millisecond"; "milliseconds";
      "s"; "sec"; "secs"; "second"; "seconds";
      "m"; "min"; "mins"; "minute"; "minutes";
      "h"; "hr"; "hrs"; "hour"; "hours";
      "d"; "day"; "days" ]%string.

(** Modelled from the spec: [isDurationUnit] is exported by the module
    and exercised by its tests, but its body is not in the source file.
    The spec makes it true exactly when the value equals one of the
    canonical lowercase spellings, with no case folding and no
    trimming. *)
Definition isDurationUnit (value : jsstring) : bool :=
  existsb (Str.eqb value) canonical_units.

(** ** Notions of the specification *)

(** The multiplier of a scale class, for a canonical spelling. *)
Definition multiplier (unit : jsstring) : Z :=
  if existsb (Str.eqb unit)
       (List.map str ["ms"; "msec"; "msecs"; "millisecond"; "milliseconds"]%string)
  then 1
  else if existsb (Str.eqb unit)
       (List.map str ["s"; "sec"; "secs"; "second"; "seconds"]%string)
  then 1000
  else if existsb (Str.eqb unit)
       (List.map str ["m"; "min"; "mins"; "minute"; "minutes"]%string)
  then 60000
  else if existsb (Str.eqb unit)
       (List.map str ["h"; "hr"; "hrs"; "hour"; "hours"]%string)
  then 3600000
  else if existsb (Str.eqb unit)
       (List.map str ["d"; "day"; "days"]%string)
  then 86400000
  else 0.

(** The white space the specification names for trimming: space, tab and
    newline. *)
Definition is_blank (c : char) : bool :=
  (c =? 32)%N || (c =? 9)%N || (c =? 10)%N.

Definition spec_trim (s : jsstring) : jsstring :=
  rev (drop_while is_blank (rev (drop_while is_blank s))).

(** The four input classes of the dispatcher, in priority order. *)
Inductive input_class : Type := Empty | ColonForm | Unitless | TokenList.

Definition classify (raw : jsstring) : input_class :=
  let t := trim raw in
  if is_empty t then Empty
  else if includes colon t then ColonForm
  else if test_signed_decimal t then Unitless
  else TokenList.

(** *** Numeric texts *)

(** One or more decimal digits. *)
Definition digits (s : jsstring) : Prop :=
  s <> [] /\ forallb is_digit s = true.

(** Digits, optionally followed by a dot and digits. *)
Definition unsigned_decimal (s : jsstring) : Prop :=
  digits s \/ exists i f, s = i ++ dot :: f /\ digits i /\ digits f.

(** A shape with an optional leading [+] or [-]. *)
Definition signed (shape : jsstring -> Prop) (s : jsstring) : Prop :=
  shape s \/ exists c r, s = c :: r /\ is_sign c = true /\ shape r.

(** The real an unsigned decimal text writes. *)
Definition unsigned_value (s : jsstring) : Q :=
  let (i, r) := span is_digit s in decimal_value i (tl r).

(** The real a signed decimal text writes. *)
Definition text_value (s : jsstring) : Q :=
  match s with
  | c :: r =>
      if (c =? minus)%N then - unsigned_value r
      else if (c =? plus)%N then unsigned_value r
      else unsigned_value s
  | [] => 0
  end.

(** *** Reals and doubles *)

(** The nearest integer, a tie going up: the Rounding Policy on a real. *)
Definition round_half_up (x : Q) : Z := Qfloor (x + (1 # 2)).

(** The largest finite double is [2^1024 - 2^971]; a real of magnitude
    [2^1024 - 2^970] or more is nearer to [2^1024] and reads as an
    infinity. *)
Definition overflow_threshold : Q := inject_Z (2 ^ 1024 - 2 ^ 970).

(** A text whose value reads as a finite double. *)
Definition finite_text (s : jsstring) : Prop :=
  Qabs (text_value s) < overflow_threshold.

(** The doubles just below 60 are [2^-47] apart; a real from
    [60 - 2^-48] on reads as 60 or more. *)
Definition sixty_cut : Q := 60 - pow2 (-48).

(** A real that is a double: at most 53 significant bits, a multiple of
    [2^-1074], below [2^1024] in magnitude. *)
Definition representable (x : Q) : Prop :=
  exists m k : Z,
    (Z.abs m < 2 ^ 53)%Z /\ (-1074 <= k)%Z /\ Qabs x < pow2 1024
    /\ x == inject_Z m * pow2 k.

(** The finite number [a] has the value [x]. *)
Definition denotes (a : number) (x : Q) : Prop :=
  isFinite a = true /\ value a == x.

(** *** Clock times *)

Definition strip_sign (s : jsstring) : jsstring :=
  match s with
  | c :: r => if is_sign c then r else s
  | [] => []
  end.

(** The segments between the colons, each one trimmed. *)
Definition segments (t : jsstring) : list jsstring :=
  List.map trim (split colon t).

(** Exactly two or three segments: a signed integer of hours, minutes in
    [0, 59] and, when present, seconds in [0, 60). *)
Definition valid_clock (t : jsstring) : Prop :=
  match segments t with
  | [h; m] => signed digits h /\ digits m /\ (digits_value m <= 59)%Z
  | [h; m; s] =>
      signed digits h /\ digits m /\ (digits_value m <= 59)%Z
      /\ unsigned_decimal s /\ unsigned_value s < 60
  | _ => False
  end.

Definition clock_negative (t : jsstring) : bool :=
  startsWith minus (nth 0 (segments t) []).

Definition clock_hours (t : jsstring) : Z :=
  digits_value (strip_sign (nth 0 (segments t) [])).

Definition clock_minutes (t : jsstring) : Z :=
  digits_value (nth 1 (segments t) []).

Definition clock_seconds (t : jsstring) : Q :=
  match segments t with
  | [_; _; s] => unsigned_value s
  | _ => 0
  end.

Definition clock_sign (t : jsstring) : Z :=
  if clock_negative t then (-1)%Z else 1%Z.

(** The total over the reals: the sign times the unsigned sum. *)
Definition clock_exact (t : jsstring) : Q :=
  inject_Z (clock_sign t)
  * (inject_Z (clock_hours t) * 3600000 + inject_Z (clock_minutes t) * 60000
     + clock_seconds t * 1000).

(** The same total in binary64 arithmetic, every operand and every
    operation rounded to the nearest double. *)
Definition clock_binary64 (t : jsstring) : number :=
  fmul
    (fadd
       (fadd (fmul (round64 (inject_Z (clock_hours t))) (of_Z 3600000))
             (fmul (round64 (inject_Z (clock_minutes t))) (of_Z 60000)))
       (fmul (round64 (clock_seconds t)) (of_Z 1000)))
    (of_Z (clock_sign t)).

(** A valid clock time that the parser accepts: the hours read as a
    finite double and the seconds read as a double below 60. *)
Definition accepted_clock (t : jsstring) : Prop :=
  valid_clock t
  /\ inject_Z (clock_hours t) < overflow_threshold
  /\ clock_seconds t < sixty_cut.

(** *** Token lists *)

Definition token_factor (t : token) : Z := multiplier (toLowerCase (tok_unit t)).

(** [value * multiplier(unit)] over the reals. *)
Definition token_exact (t : token) : Q :=
  text_value (tok_number t) * inject_Z (token_factor t).

(** The same product in binary64 arithmetic. *)
Definition token_term (t : token) : number :=
  fmul (StringToNumber (tok_number t)) (of_Z (token_factor t)).

(** The running total of the scanner, left to right from +0. *)
Definition tokens_binary64 (ts : list token) : number :=
  fold_left (fun acc t => fadd acc (token_term t)) ts (of_Z 0).

(** The sum over the reals. *)
Definition tokens_exact (ts : list token) : Q :=
  fold_left (fun acc t => acc + token_exact t) ts 0.

Definition canonical_token (t : token) : Prop :=
  In (toLowerCase (tok_unit t)) canonical_units.

(** Every value, every product and every partial sum is a double, so no
    operation of the scanner rounds. *)
Fixpoint exact_steps (acc : Q) (ts : list token) : Prop :=
  match ts with
  | [] => True
  | t :: ts' =>
      representable (text_value (tok_number t))
      /\ representable (token_exact t)
      /\ representable (acc + token_exact t)
      /\ exact_steps (acc + token_exact t) ts'
  end.

Definition is_invalid_number (e : error) : bool :=
  match e with
  | InvalidNumber _ | InvalidNumberIn _ _ => true
  | _ => false
  end.

(** The value a branch has before the final [Math.round], as the
    specification describes it: the binary64 evaluation of the clock
    formula, the double the text reads as, the binary64 sum of the
    products [value * multiplier(unit)]. *)
Definition unrounded (raw : jsstring) : number :=
  match classify raw with
  | Empty => of_Z 0
  | ColonForm => clock_binary64 (trim raw)
  | Unitless => StringToNumber (trim raw)
  | TokenList => tokens_binary64 (matchAll (trim raw))
  end.

(** The real value of a branch: the clock formula, the value of the
    text, the sum of the products, all over the reals. *)
Definition branch_value (raw : jsstring) : Q :=
  match classify raw with
  | Empty => 0
  | ColonForm => clock_exact (trim raw)
  | Unitless => text_value (trim raw)
  | TokenList => tokens_exact (matchAll (trim raw))
  end.

(** *** Sample inputs *)

(** A one followed by [n] zeros. *)
Definition one_and_zeros (n : nat) : jsstring := 49%N :: repeat 48%N n.

(** ** Notions of the proofs *)

(** The rounded value of a positive real before the overflow test. *)
Definition rounded (x : Q) : Q :=
  inject_Z (rne (x / pow2 (ulp_exp x))) * pow2 (ulp_exp x).

(** A greedy run stops at the end of the text or at a code unit the class
    refuses. *)
Definition stops (p : char -> bool) (r : jsstring) : Prop :=
  match r with
  | [] => True
  | c :: _ => p c = false
  end.

Definition is_lower (c : char) : bool := ((97 <=? c) && (c <=? 122))%N.

Definition decimal_char (c : char) : bool :=
  is_sign c || is_digit c || (c =? dot)%N.

(** The patterns without backtracking: every piece takes its longest
    run.  The matcher is shown to agree with them. *)

(** [\d+(?:\.\d+)?] at the front of [s]: the rest. *)
Definition decimal_prefix (s : jsstring) : option jsstring :=
  match digits1 s with
  | None => None
  | Some (_, s2) => Some (snd (opt_fraction s2))
  end.

(** [[+-]?\d+(?:\.\d+)?] at the front of [s]: the matched text and the
    rest. *)
Definition number_prefix (s : jsstring) : option (jsstring * jsstring) :=
  let (sg, s1) := opt_sign s in
  match digits1 s1 with
  | None => None
  | Some (ds, s2) =>
      let (fr, s3) := opt_fraction s2 in Some (sg ++ ds ++ fr, s3)
  end.

Definition greedy_digits (s : jsstring) : bool :=
  match digits1 s with
  | Some (_, []) => true
  | _ => false
  end.

Definition greedy_decimal (s : jsstring) : bool :=
  match digits1 s with
  | Some (_, r) => is_empty (snd (opt_fraction r))
  | None => false
  end.

Definition greedy_token (s : jsstring) : option (token * jsstring) :=
  match number_prefix s with
  | None => None
  | Some (num, s1) =>
      let (_, s2) := span is_space s1 in
      match span is_alpha s2 with
      | ([], _) => None
      | (unit, s3) => Some (Token num unit, s3)
      end
  end.

(** The continuation of an anchored test: the text must be used up. *)
Definition accept (s : jsstring) : list unit :=
  if is_empty s then [tt] else [].

(** A code unit with which no continuation of a number can start. *)
Definition number_char (c : char) : bool := is_digit c || (c =? dot)%N.

(** The body of [parseColonTimeToMs] once the parts are named. *)
Definition colon_body (hStr mStr : jsstring) (sStr : option jsstring)
  : option number :=
  if is_empty hStr || is_empty mStr then None else
  if negb (test_signed_digits hStr) then None else
  if negb (test_digits mStr) then None else
  if match sStr with Some x => negb (test_decimal x) | None => false end
  then None else
  let sign := if startsWith minus hStr then of_Z (-1) else of_Z 1 in
  let hours := Math_abs (StringToNumber hStr) in
  let minutes := StringToNumber mStr in
  let seconds := match sStr with
                 | Some x => StringToNumber x
                 | None => of_Z 0
                 end in
  if negb (isFinite hours) || negb (isFinite minutes)
     || negb (isFinite seconds) then None else
  if flt minutes (of_Z 0) || fge minutes (of_Z 60) then None else
  if flt seconds (of_Z 0) || fge seconds (of_Z 60) then None else
  let total :=
    fmul (fadd (fadd (fmul hours (of_Z 3600000)) (fmul minutes (of_Z 60000)))
               (fmul seconds (of_Z 1000)))
         sign in
  Some (Math_round total).

(** The digits of a numeric text read as one integer, the sign and the
    dot left out. *)
Definition text_digits (s : jsstring) : Z := digits_value (filter is_digit s).

(** [x] and [q] lie on the same side of every half-integer. *)
Definition same_side (x q : Q) : Prop :=
  forall m : Z,
    (inject_Z m + (1 # 2) <= x <-> inject_Z m + (1 # 2) <= q)
    /\ (x <= inject_Z m + (1 # 2) <-> q <= inject_Z m + (1 # 2)).

(** Inputs on which the binary64 evaluation of a branch is shown to lose
    nothing before the final rounding. *)
Definition branch_exact (raw : jsstring) : Prop :=
  match classify raw with
  | Empty => True
  | ColonForm =>
      (clock_hours (trim raw) <= 2 ^ 30)%Z
      /\ exists n : Z, clock_seconds (trim raw) * 1000 == inject_Z n
  | Unitless => (text_digits (trim raw) < 2 ^ 52)%Z
  | TokenList =>
      (forall t, In t (matchAll (trim raw)) -> canonical_token t)
      /\ exact_steps 0 (matchAll (trim raw))
  end.

(** *** Errors and inputs *)

(** The error [e] with the input it carries replaced by [raw]. *)
Definition retarget (raw : jsstring) (e : error) : error :=
  match e with
  | InvalidColon _ => InvalidColon raw
  | InvalidNumber _ => InvalidNumber raw
  | InvalidNumberIn text _ => InvalidNumberIn text raw
  | UnknownUnit unit _ => UnknownUnit unit raw
  | CouldNotFullyParse _ => CouldNotFullyParse raw
  end.

(** The completion [c] as a call on the input [raw] reports it. *)
Definition on_input (raw : jsstring) (c : completion) : completion :=
  match c with
  | Return n => Return n
  | Throw e => Throw (retarget raw e)
  end.

(** *** Signs *)

(** Zero or above, +Infinity included; -0 and NaN are not. *)
Definition is_nonneg (a : number) : bool :=
  match a with
  | Inf s => negb s
  | Fin q => Qle_bool 0 q
  | NaN | NegZero => false
  end.


(** *** Writing tokens *)

(** A token as the pattern captures one: a signed decimal number and one
    or more letters. *)
Definition well_formed (t : token) : Prop :=
  signed unsigned_decimal (tok_number t)
  /\ tok_unit t <> [] /\ forallb is_alpha (tok_unit t) = true.

(** The tokens written one after the other, number then unit, with [sep]
    between two tokens. *)
Fixpoint write_tokens (sep : jsstring) (ts : list token) : jsstring :=
  match ts with
  | [] => []
  | [t] => tok_number t ++ tok_unit t
  | t :: ts' => tok_number t ++ tok_unit t ++ sep ++ write_tokens sep ts'
  end.

(** *** Doubles *)

(** A number as the arithmetic produces it: a finite one carries a
    reduced fraction that is a double. *)
Definition is_double (a : number) : Prop :=
  match a with
  | Fin q => Qred q = q /\ representable q
  | _ => True
  end.

(** A code unit of a written token list. *)
Definition token_char (c : char) : bool :=
  decimal_char c || is_alpha c || is_space c.

(** *** Lowercase *)

(** What a call returns, when it returns. *)
Definition returned (c : completion) : option number :=
  match c with
  | Return n => Some n
  | Throw _ => None
  end.

Definition lower_token (t : token) : token :=
  Token (toLowerCase (tok_number t)) (toLowerCase (tok_unit t)).

Definition lower_piece (p : piece) : piece :=
  match p with
  | Skipped c => Skipped (lower c)
  | Matched t => Matched (lower_token t)
  end.

(** * Properties *)

#[local] Arguments Qred : simpl never.

(** ** Lists of code units *)

Lemma eqb_eq (a b : jsstring) : Str.eqb a b = true <-> a = b.
Proof.
  revert b; induction a as [|x a IH]; intros [|y b]; simpl; split;
    try congruence; try reflexivity.
  - intros H. apply andb_true_iff in H as [H1 H2].
    apply N.eqb_eq in H1. apply IH in H2. congruence.
  - intros H. injection H as -> ->.
    rewrite N.eqb_refl. simpl. now apply IH.
Qed.

Lemma eqb_refl (a : jsstring) : Str.eqb a a = true.
Proof. now apply eqb_eq. Qed.

Lemma drop_while_nil (p : char -> bool) (s : jsstring) :
  drop_while p s = [] <-> forallb p s = true.
Proof.
  induction s as [|c r IH]; simpl.
  - tauto.
  - destruct (p c); simpl; [exact IH | split; discriminate].
Qed.

Lemma trim_with_nil (p : char -> bool) (s : jsstring) :
  rev (drop_while p (rev (drop_while p s))) = [] <-> forallb p s = true.
Proof.
  rewrite <- drop_while_nil. split.
  - intros H.
    assert (H1 : drop_while p (rev (drop_while p s)) = []).
    { apply (f_equal (@rev char)) in H. now rewrite rev_involutive in H. }
    apply drop_while_nil in H1. rewrite forallb_forall in H1.
    destruct (drop_while p s) as [|c r] eqn:E; [reflexivity|].
    assert (Hc : p c = true) by (apply H1, in_rev; rewrite rev_involutive; now left).
    clear H H1. induction s as [|x s IH]; simpl in E; [discriminate|].
    destruct (p x) eqn:Px; [auto | congruence].
  - intros ->. reflexivity.
Qed.

Lemma trim_nil (s : jsstring) : trim s = [] <-> forallb is_space s = true.
Proof. apply trim_with_nil. Qed.

Lemma is_blank_space (c : char) : is_blank c = true -> is_space c = true.
Proof.
  unfold is_blank, is_space. intros H.
  repeat (apply orb_true_iff in H as [H|H]); apply N.eqb_eq in H; subst;
    reflexivity.
Qed.

Lemma spec_trim_nil_trim (s : jsstring) : spec_trim s = [] -> trim s = [].
Proof.
  unfold spec_trim. rewrite trim_with_nil, trim_nil, !forallb_forall.
  intros H c Hc. now apply is_blank_space, H.
Qed.

Lemma is_empty_true (s : jsstring) : is_empty s = true <-> s = [].
Proof. destruct s; simpl; split; congruence. Qed.

(** ** The dispatcher *)

Lemma parse_empty (raw : jsstring) :
  trim raw = [] -> parseDurationMs raw = Return (of_Z 0).
Proof. intros H. unfold parseDurationMs. now rewrite H. Qed.

Lemma parse_colon (raw : jsstring) :
  classify raw = ColonForm ->
  parseDurationMs raw =
    match parseColonTimeToMs (trim raw) with
    | None => Throw (InvalidColon raw)
    | Some ms => Return ms
    end.
Proof.
  unfold classify, parseDurationMs.
  destruct (is_empty (trim raw)); [discriminate|].
  destruct (includes colon (trim raw)); [reflexivity|].
  destruct (test_signed_decimal (trim raw)); discriminate.
Qed.

Lemma parse_unitless (raw : jsstring) :
  classify raw = Unitless ->
  parseDurationMs raw =
    if isFinite (StringToNumber (trim raw))
    then Return (Math_round (StringToNumber (trim raw)))
    else Throw (InvalidNumber raw).
Proof.
  unfold classify, parseDurationMs.
  destruct (is_empty (trim raw)); [discriminate|].
  destruct (includes colon (trim raw)); [discriminate|].
  destruct (test_signed_decimal (trim raw)); [|discriminate].
  now destruct (isFinite _).
Qed.

Lemma parse_tokens (raw : jsstring) :
  classify raw = TokenList ->
  parseDurationMs raw =
    match token_loop raw (of_Z 0) (matchAll (trim raw)) with
    | inl e => Throw e
    | inr total =>
        if Nat.eqb (length (matchAll (trim raw))) 0
           || negb (forallb is_space (replace_all (trim raw)))
        then Throw (CouldNotFullyParse raw)
        else Return (Math_round total)
    end.
Proof.
  unfold classify, parseDurationMs.
  destruct (is_empty (trim raw)); [discriminate|].
  destruct (includes colon (trim raw)); [discriminate|].
  destruct (test_signed_decimal (trim raw)); [discriminate|].
  intros _. destruct (token_loop _ _ _); [reflexivity|].
  replace (Nat.ltb 0 (length (trim (replace_all (trim raw)))))
    with (negb (forallb is_space (replace_all (trim raw)))).
  - now destruct (matchAll (trim raw)).
  - destruct (forallb is_space _) eqn:E.
    + apply trim_nil in E. now rewrite E.
    + destruct (trim (replace_all (trim raw))) eqn:T; [|reflexivity].
      apply trim_nil in T. congruence.
Qed.

Lemma inv_inject_pos (z : Z) : (0 < z)%Z -> 1 # Z.to_pos z == / inject_Z z.
Proof.
  destruct z as [|p|p]; try lia. intros _. reflexivity.
Qed.

Lemma pow2_Qpower (k : Z) : pow2 k == 2 ^ k.
Proof.
  unfold pow2. destruct (Z.ltb_spec k 0) as [H|H].
  - rewrite inv_inject_pos by (apply Z.pow_pos_nonneg; lia).
    rewrite Zpower_Qpower by lia.
    rewrite <- Qpower_opp. now rewrite Z.opp_involutive.
  - now rewrite Zpower_Qpower.
Qed.

Lemma pow2_pos (k : Z) : 0 < pow2 k.
Proof. rewrite pow2_Qpower. now apply Qpower_0_lt. Qed.

Lemma pow2_add (a b : Z) : pow2 (a + b) == pow2 a * pow2 b.
Proof. rewrite !pow2_Qpower. now apply Qpower_plus. Qed.

Lemma pow2_le (a b : Z) : (a <= b)%Z -> pow2 a <= pow2 b.
Proof.
  intros H. rewrite !pow2_Qpower. apply Qpower_le_compat_l; [exact H|].
  discriminate.
Qed.

Lemma pow2_lt (a b : Z) : (a < b)%Z -> pow2 a < pow2 b.
Proof.
  intros H. rewrite !pow2_Qpower. apply Qpower_lt_compat_l; [exact H|].
  reflexivity.
Qed.

Lemma pow2_nonneg_Z (k : Z) : (0 <= k)%Z -> pow2 k = inject_Z (2 ^ k).
Proof. intros H. unfold pow2. destruct (Z.ltb_spec k 0); [lia|reflexivity]. Qed.

Lemma pow2_sub (a b : Z) : pow2 (a - b) == pow2 a / pow2 b.
Proof.
  assert (Hb := pow2_pos b).
  apply (Qmult_inj_r _ _ (pow2 b)); [lra|].
  rewrite <- pow2_add. replace (a - b + b)%Z with a by lia.
  field. lra.
Qed.

Lemma pow2_lt_inv (a b : Z) : pow2 a < pow2 b -> (a < b)%Z.
Proof.
  intros H. destruct (Z.lt_ge_cases a b) as [|G]; [assumption|].
  apply pow2_le in G. lra.
Qed.

Lemma Qdiv_lt_cross (a b c d : Q) :
  0 < b -> 0 < d -> a * d < c * b -> a / b < c / d.
Proof.
  intros Hb Hd H. apply Qlt_shift_div_l; [exact Hd|].
  setoid_replace (a / b * d) with (a * d / b) by (field; lra).
  now apply Qlt_shift_div_r.
Qed.

Lemma Qdiv_le_cross (a b c d : Q) :
  0 < b -> 0 < d -> a * d <= c * b -> a / b <= c / d.
Proof.
  intros Hb Hd H. apply Qle_shift_div_l; [exact Hd|].
  setoid_replace (a / b * d) with (a * d / b) by (field; lra).
  now apply Qle_shift_div_r.
Qed.

(** floor(log2) *)
Lemma ilog2_spec (x : Q) : 0 < x -> pow2 (ilog2 x) <= x /\ x < pow2 (ilog2 x + 1).
Proof.
  intros Hx. destruct x as [n d]. 
  assert (Hn : (0 < n)%Z) by (unfold Qlt in Hx; simpl in Hx; lia).
  unfold ilog2. simpl Qnum. simpl Qden.
  set (a := Z.log2 n). set (b := Z.log2 (Z.pos d)).
  assert (Ha : (2 ^ a <= n < 2 ^ (a + 1))%Z).
  { unfold a. replace (Z.log2 n + 1)%Z with (Z.succ (Z.log2 n)) by lia. now apply Z.log2_spec. }
  assert (Hb : (2 ^ b <= Z.pos d < 2 ^ (b + 1))%Z).
  { unfold b. replace (Z.log2 (Z.pos d) + 1)%Z with (Z.succ (Z.log2 (Z.pos d))) by lia. now apply Z.log2_spec. }
  assert (Ha0 : (0 <= a)%Z) by apply Z.log2_nonneg.
  assert (Hb0 : (0 <= b)%Z) by apply Z.log2_nonneg.
  assert (Hx' : n # d == inject_Z n / inject_Z (Z.pos d)) by (apply Qmake_Qdiv).
  assert (Hd : 0 < inject_Z (Z.pos d)) by reflexivity.
  assert (Hn' : 0 < inject_Z n) by (change 0 with (inject_Z 0); rewrite <- Zlt_Qlt; lia).
  assert (Pa : pow2 a <= inject_Z n) by (rewrite pow2_nonneg_Z by lia; rewrite <- Zle_Qle; lia).
  assert (Pa1 : inject_Z n < pow2 (a + 1)) by (rewrite pow2_nonneg_Z by lia; rewrite <- Zlt_Qlt; lia).
  assert (Pb : pow2 b <= inject_Z (Z.pos d)) by (rewrite pow2_nonneg_Z by lia; rewrite <- Zle_Qle; lia).
  assert (Pb1 : inject_Z (Z.pos d) < pow2 (b + 1)) by (rewrite pow2_nonneg_Z by lia; rewrite <- Zlt_Qlt; lia).
  assert (Qa := pow2_pos a). assert (Qb := pow2_pos b).
  assert (Qa1 := pow2_pos (a+1)). assert (Qb1 := pow2_pos (b+1)).
  destruct (Qle_bool (pow2 (a - b)) (n # d)) eqn:E.
  - apply Qle_bool_iff in E. split; [exact E|].
    rewrite Hx'. replace (a - b + 1)%Z with ((a + 1) - b)%Z by lia.
    rewrite pow2_sub.
    apply Qdiv_lt_cross; [exact Hd|exact Qb|]. 
    apply Qle_lt_trans with (inject_Z n * inject_Z (Z.pos d)).
    + apply Qmult_le_l; [exact Hn'|exact Pb].
    + apply Qmult_lt_r; [exact Hd|exact Pa1].
  - assert (E' : n # d < pow2 (a - b)).
    { apply Qnot_le_lt. intros C. apply Qle_bool_iff in C. congruence. }
    replace (a - b - 1 + 1)%Z with (a - b)%Z by lia. split; [|exact E'].
    rewrite Hx'. replace (a - b - 1)%Z with (a - (b + 1))%Z by lia.
    rewrite pow2_sub.
    apply Qdiv_le_cross; [exact Qb1|exact Hd|].
    apply Qle_trans with (pow2 a * pow2 (b + 1)).
    + apply Qmult_le_l; [exact Qa|lra].
    + apply Qmult_le_r; [exact Qb1|exact Pa].
Qed.

Lemma ilog2_unique (x : Q) (k : Z) : pow2 k <= x -> x < pow2 (k + 1) -> ilog2 x = k.
Proof.
  intros H1 H2. assert (Hx : 0 < x) by (pose proof (pow2_pos k); lra).
  destruct (ilog2_spec x Hx) as [L1 L2].
  assert (A : (ilog2 x < k + 1)%Z) by (apply pow2_lt_inv; lra).
  assert (B : (k < ilog2 x + 1)%Z) by (apply pow2_lt_inv; lra).
  lia.
Qed.

#[global] Instance rne_comp : Proper (Qeq ==> eq) rne.
Proof.
  intros y y' E. unfold rne.
  assert (F : Qfloor y = Qfloor y') by now rewrite E.
  rewrite F.
  assert (C : Qcompare (y - inject_Z (Qfloor y')) (1 # 2)
              = Qcompare (y' - inject_Z (Qfloor y')) (1 # 2)) by now rewrite E.
  now rewrite C.
Qed.

Lemma rne_cases (y : Q) :
  (rne y = Qfloor y /\ y - inject_Z (Qfloor y) <= 1 # 2
   /\ (y - inject_Z (Qfloor y) == 1 # 2 -> Z.even (Qfloor y) = true))
  \/ (rne y = (Qfloor y + 1)%Z /\ (1 # 2) <= y - inject_Z (Qfloor y)
   /\ (y - inject_Z (Qfloor y) == 1 # 2 -> Z.even (Qfloor y) = false)).
Proof.
  unfold rne. destruct (Qcompare_spec (y - inject_Z (Qfloor y)) (1 # 2)) as [E|E|E].
  - destruct (Z.even (Qfloor y)) eqn:Ev.
    + left. repeat split; auto. lra.
    + right. repeat split; auto. lra.
  - left; repeat split; try lra; intros C; exfalso; lra.
  - right; repeat split; try lra; intros C; exfalso; lra.
Qed.

Lemma floor_bounds (y : Q) :
  inject_Z (Qfloor y) <= y /\ y < inject_Z (Qfloor y) + 1.
Proof.
  split; [apply Qfloor_le|].
  generalize (Qlt_floor y). rewrite inject_Z_plus. tauto.
Qed.

Lemma rne_err (y : Q) :
  y - (1 # 2) <= inject_Z (rne y) /\ inject_Z (rne y) <= y + (1 # 2).
Proof.
  destruct (floor_bounds y) as [F1 F2].
  destruct (rne_cases y) as [(-> & H & _)|(-> & H & _)];
    rewrite ?inject_Z_plus; change (inject_Z 1) with 1; lra.
Qed.

Lemma inject_Z_le_iff (a b : Z) : inject_Z a <= inject_Z b <-> (a <= b)%Z.
Proof. now rewrite <- Zle_Qle. Qed.

Lemma inject_Z_lt_iff (a b : Z) : inject_Z a < inject_Z b <-> (a < b)%Z.
Proof. now rewrite <- Zlt_Qlt. Qed.

Lemma Z_even_succ_false (f : Z) : Z.even f = false -> Z.even (f + 1) = true.
Proof. intros H. rewrite Z.even_add, H. reflexivity. Qed.

Lemma Z_even_succ_true (f : Z) : Z.even f = true -> Z.even (f + 1) = false.
Proof. intros H. rewrite Z.even_add, H. reflexivity. Qed.

(** The threshold at which rounding reaches an integer [n]. *)
Lemma rne_ge_iff (y : Q) (n : Z) :
  (n <= rne y)%Z <->
  (if Z.even n then inject_Z n - (1 # 2) <= y else inject_Z n - (1 # 2) < y).
Proof.
  destruct (floor_bounds y) as [F1 F2].
  set (f := Qfloor y) in *.
  destruct (Z.lt_trichotomy n (f + 1)) as [L|[L|L]].
  - (* n <= f *)
    assert (Hn : inject_Z n <= inject_Z f) by (apply inject_Z_le_iff; lia).
    split.
    + intros _. destruct (Z.even n); lra.
    + intros _. destruct (rne_cases y) as [(-> & _)|(-> & _)]; fold f; lia.
  - subst n. rewrite inject_Z_plus. change (inject_Z 1) with 1.
    destruct (rne_cases y) as [(-> & H & Ht)|(-> & H & Ht)]; fold f in H, Ht |- *.
    + split; [lia|]. destruct (Z.even (f + 1)) eqn:Ev; intros C; exfalso.
      * assert (E : y - inject_Z f == 1 # 2) by lra.
        apply Ht in E. apply Z_even_succ_true in E. congruence.
      * lra.
    + split; [|lia]. intros _.
      destruct (Z.even (f + 1)) eqn:Ev; [lra|].
      destruct (Qlt_le_dec (1 # 2) (y - inject_Z f)) as [G|G]; [lra|].
      assert (E : y - inject_Z f == 1 # 2) by lra.
      apply Ht in E. apply Z_even_succ_false in E. congruence.
  - assert (Hn : inject_Z (f + 2) <= inject_Z n) by (apply inject_Z_le_iff; lia).
    rewrite inject_Z_plus in Hn. change (inject_Z 2) with 2 in Hn.
    split.
    + intros C. exfalso.
      destruct (rne_cases y) as [(E & _)|(E & _)]; fold f in E; lia.
    + destruct (Z.even n); intros C; exfalso; lra.
Qed.

Lemma rne_inject (z : Z) : rne (inject_Z z) = z.
Proof.
  unfold rne. rewrite Qfloor_Z.
  assert (E : Qcompare (inject_Z z - inject_Z z) (1 # 2) = Lt).
  { apply (proj1 (Qlt_alt _ _)). lra. }
  now rewrite E.
Qed.

Lemma rne_mono (y y' : Q) : y <= y' -> (rne y <= rne y')%Z.
Proof.
  intros H. apply rne_ge_iff.
  assert (G : (rne y <= rne y)%Z) by lia.
  apply rne_ge_iff in G. destruct (Z.even (rne y)); lra.
Qed.

Lemma rne_le_Z (y : Q) (n : Z) : y <= inject_Z n -> (rne y <= n)%Z.
Proof. intros H. rewrite <- (rne_inject n). now apply rne_mono. Qed.

Lemma rne_ge_Z (y : Q) (n : Z) : inject_Z n <= y -> (n <= rne y)%Z.
Proof. intros H. rewrite <- (rne_inject n). now apply rne_mono. Qed.

(** *** Rounding of a positive real *)

Lemma ulp_exp_ge (x : Q) : (ilog2 x - 52 <= ulp_exp x)%Z /\ (-1074 <= ulp_exp x)%Z.
Proof. unfold ulp_exp. lia. Qed.

Lemma Qdiv_pow2 (x : Q) (e : Z) : x / pow2 e == x * pow2 (- e).
Proof.
  assert (P := pow2_pos e).
  setoid_replace (pow2 (- e)) with (pow2 0 / pow2 e).
  - change (pow2 0) with 1. field. lra.
  - rewrite <- pow2_sub. reflexivity.
Qed.

Lemma scaled_lt (x : Q) : 0 < x -> x / pow2 (ulp_exp x) < pow2 53.
Proof.
  intros Hx. destruct (ilog2_spec x Hx) as [_ L2].
  destruct (ulp_exp_ge x) as [E _].
  apply Qlt_shift_div_r; [apply pow2_pos|].
  rewrite <- pow2_add.
  apply Qlt_le_trans with (1 := L2). apply pow2_le. lia.
Qed.

Lemma scaled_ge (x : Q) :
  0 < x -> (-1074 <= ilog2 x - 52)%Z -> pow2 52 <= x / pow2 (ulp_exp x).
Proof.
  intros Hx Hn. destruct (ilog2_spec x Hx) as [L1 _].
  assert (E : ulp_exp x = (ilog2 x - 52)%Z) by (unfold ulp_exp; lia).
  apply Qle_shift_div_l; [apply pow2_pos|].
  rewrite <- pow2_add, E. now replace (52 + (ilog2 x - 52))%Z with (ilog2 x) by lia.
Qed.

Lemma round_pos_eq (x : Q) :
  round_pos x = if Qle_bool (pow2 1024) (rounded x) then Inf false else Fin (Qred (rounded x)).
Proof. reflexivity. Qed.

Lemma rounded_err (x : Q) :
  x - pow2 (ulp_exp x - 1) <= rounded x /\ rounded x <= x + pow2 (ulp_exp x - 1).
Proof.
  unfold rounded. set (e := ulp_exp x).
  assert (P := pow2_pos e).
  destruct (rne_err (x / pow2 e)) as [A B].
  assert (H1 : pow2 (e - 1) == (1 # 2) * pow2 e).
  { rewrite pow2_sub. change (pow2 1) with 2. field. }
  assert (Hx : x == x / pow2 e * pow2 e) by (field; lra).
  rewrite H1. split.
  - apply Qle_trans with ((x / pow2 e - (1 # 2)) * pow2 e); [lra|].
    apply Qmult_le_r; assumption.
  - apply Qle_trans with ((x / pow2 e + (1 # 2)) * pow2 e); [|lra].
    apply Qmult_le_r; assumption.
Qed.

Lemma rounded_nonneg (x : Q) : 0 < x -> 0 <= rounded x.
Proof.
  intros Hx. unfold rounded. apply Qmult_le_0_compat.
  - change 0 with (inject_Z 0). apply inject_Z_le_iff. apply rne_ge_Z.
    change (inject_Z 0) with 0. apply Qle_shift_div_l; [apply pow2_pos|lra].
  - apply Qlt_le_weak, pow2_pos.
Qed.

Lemma rounded_le_pow2 (x : Q) (k : Z) :
  0 < x -> x <= pow2 k -> (ulp_exp x <= k)%Z -> rounded x <= pow2 k.
Proof.
  intros Hx Hk He. unfold rounded. set (e := ulp_exp x) in *.
  assert (P := pow2_pos e).
  assert (Hi : pow2 (k - e) = inject_Z (2 ^ (k - e))) by (apply pow2_nonneg_Z; lia).
  assert (R : (rne (x / pow2 e) <= 2 ^ (k - e))%Z).
  { apply rne_le_Z. rewrite <- Hi. apply Qle_shift_div_r; [exact P|].
    rewrite <- pow2_add. now replace (k - e + e)%Z with k by lia. }
  apply inject_Z_le_iff in R. rewrite <- Hi in R.
  setoid_replace (pow2 k) with (pow2 (k - e) * pow2 e).
  - apply Qmult_le_r; assumption.
  - rewrite <- pow2_add. now replace (k - e + e)%Z with k by lia.
Qed.

Lemma rounded_ge_pow2 (x : Q) (k : Z) :
  pow2 k <= x -> (ulp_exp x <= k)%Z -> pow2 k <= rounded x.
Proof.
  intros Hk He. unfold rounded. set (e := ulp_exp x) in *.
  assert (P := pow2_pos e).
  assert (Hi : pow2 (k - e) = inject_Z (2 ^ (k - e))) by (apply pow2_nonneg_Z; lia).
  assert (R : (2 ^ (k - e) <= rne (x / pow2 e))%Z).
  { apply rne_ge_Z. rewrite <- Hi. apply Qle_shift_div_l; [exact P|].
    rewrite <- pow2_add. now replace (k - e + e)%Z with k by lia. }
  apply inject_Z_le_iff in R. rewrite <- Hi in R.
  setoid_replace (pow2 k) with (pow2 (k - e) * pow2 e).
  - apply Qmult_le_r; assumption.
  - rewrite <- pow2_add. now replace (k - e + e)%Z with k by lia.
Qed.

Lemma Qle_div_iff (a b c : Q) : 0 < c -> (a * c <= b <-> a <= b / c).
Proof.
  intros Hc. split; intros H.
  - now apply Qle_shift_div_l.
  - assert (H' := proj2 (Qmult_le_r a (b / c) c Hc) H).
    setoid_replace (b / c * c) with b in H' by (field; lra). exact H'.
Qed.

Lemma ulp_exp_binade (x : Q) (L : Z) :
  pow2 L <= x -> x < pow2 (L + 1) -> (-1074 <= L - 52)%Z ->
  ulp_exp x = (L - 52)%Z.
Proof.
  intros H1 H2 H3. unfold ulp_exp. rewrite (ilog2_unique x L H1 H2). lia.
Qed.

(** Inside a binade, the rounded value reaches an even multiple of the unit
    in the last place exactly from half a unit below it. *)
Lemma rounded_ge_iff (x : Q) (L n : Z) :
  pow2 L <= x -> x < pow2 (L + 1) -> (-1074 <= L - 52)%Z ->
  Z.even n = true ->
  (inject_Z n * pow2 (L - 52) <= rounded x
   <-> (inject_Z n - (1 # 2)) * pow2 (L - 52) <= x).
Proof.
  intros H1 H2 H3 Hn. unfold rounded. rewrite (ulp_exp_binade x L H1 H2 H3).
  set (e := (L - 52)%Z). assert (P := pow2_pos e).
  rewrite Qmult_le_r by exact P.
  rewrite inject_Z_le_iff, rne_ge_iff, Hn.
  symmetry. now apply Qle_div_iff.
Qed.

Lemma threshold_eq :
  overflow_threshold == (inject_Z (2 ^ 53) - (1 # 2)) * pow2 (1023 - 52).
Proof. vm_compute. reflexivity. Qed.

Lemma threshold_bounds : pow2 1023 < overflow_threshold /\ overflow_threshold < pow2 1024.
Proof. split; vm_compute; reflexivity. Qed.

Lemma Qle_bool_false (a b : Q) : Qle_bool a b = false <-> b < a.
Proof.
  split; intros H.
  - apply Qnot_le_lt. intros C. apply Qle_bool_iff in C. congruence.
  - destruct (Qle_bool a b) eqn:E; [|reflexivity].
    apply Qle_bool_iff in E. lra.
Qed.

Lemma round_pos_cases (x : Q) :
  (round_pos x = Inf false /\ pow2 1024 <= rounded x)
  \/ (round_pos x = Fin (Qred (rounded x)) /\ rounded x < pow2 1024).
Proof.
  rewrite round_pos_eq. destruct (Qle_bool (pow2 1024) (rounded x)) eqn:E.
  - left. split; [reflexivity|]. now apply Qle_bool_iff.
  - right. split; [reflexivity|]. now apply Qle_bool_false.
Qed.

Lemma ilog2_ge (x : Q) (k : Z) : pow2 k <= x -> (k <= ilog2 x)%Z.
Proof.
  intros H. assert (Hx : 0 < x) by (pose proof (pow2_pos k); lra).
  destruct (ilog2_spec x Hx) as [_ L2].
  assert (A : (k < ilog2 x + 1)%Z) by (apply pow2_lt_inv; lra). lia.
Qed.

Lemma ilog2_lt (x : Q) (k : Z) : 0 < x -> x < pow2 k -> (ilog2 x < k)%Z.
Proof.
  intros Hx H. destruct (ilog2_spec x Hx) as [L1 _].
  apply pow2_lt_inv; lra.
Qed.

Lemma rounded_overflow_iff (x : Q) :
  0 < x -> (pow2 1024 <= rounded x <-> overflow_threshold <= x).
Proof.
  intros Hx. destruct threshold_bounds as [T1 T2].
  destruct (Qlt_le_dec x (pow2 1023)) as [A|A].
  - (* below the last binade *)
    assert (L := ilog2_lt x _ Hx A).
    assert (R : rounded x <= pow2 1023).
    { apply rounded_le_pow2; [exact Hx|lra|unfold ulp_exp; lia]. }
    assert (P : pow2 1023 < pow2 1024) by (apply pow2_lt; lia).
    split; intros H; lra.
  - destruct (Qlt_le_dec x (pow2 1024)) as [B|B].
    + (* the last binade *)
      change (pow2 1024) with (pow2 (1023 + 1)) in B.
      rewrite threshold_eq.
      rewrite <- (rounded_ge_iff x 1023 (2 ^ 53) A B); [|lia|reflexivity].
      setoid_replace (inject_Z (2 ^ 53) * pow2 (1023 - 52)) with (pow2 1024)
        by (vm_compute; reflexivity).
      reflexivity.
    + assert (L := ilog2_ge x _ B).
      destruct (ilog2_spec x Hx) as [L1 _].
      assert (R : pow2 (ilog2 x) <= rounded x).
      { apply rounded_ge_pow2; [exact L1|unfold ulp_exp; lia]. }
      assert (P : pow2 1024 <= pow2 (ilog2 x)) by (apply pow2_le; lia).
      split; intros H; lra.
Qed.

Lemma round_pos_finite_iff (x : Q) :
  0 < x -> (isFinite (round_pos x) = true <-> x < overflow_threshold).
Proof.
  intros Hx. assert (O := rounded_overflow_iff x Hx).
  destruct (round_pos_cases x) as [[-> H]|[-> H]]; simpl.
  - split; [discriminate|]. intros C. apply O in H. lra.
  - split; [|reflexivity]. intros _. apply Qnot_le_lt. intros C.
    apply O in C. lra.
Qed.

(** A real with at most 53 significant bits that is a multiple of
    [2 ^ -1074] is a double. *)
Lemma rounded_exact (m k : Z) :
  (0 < m < 2 ^ 53)%Z -> (-1074 <= k)%Z ->
  rounded (inject_Z m * pow2 k) == inject_Z m * pow2 k.
Proof.
  intros Hm Hk. set (x := inject_Z m * pow2 k).
  assert (Pk := pow2_pos k).
  assert (Hm0 : 0 < inject_Z m) by (change 0 with (inject_Z 0); apply inject_Z_lt_iff; lia).
  assert (Hx : 0 < x) by (apply Qmult_lt_0_compat; assumption).
  assert (He : (ulp_exp x <= k)%Z).
  { assert (L : (ilog2 x < 53 + k)%Z).
    { apply ilog2_lt; [exact Hx|]. rewrite pow2_add. unfold x.
      apply Qmult_lt_r; [exact Pk|]. rewrite pow2_nonneg_Z by lia.
      apply inject_Z_lt_iff. lia. }
    unfold ulp_exp. lia. }
  unfold rounded. set (e := ulp_exp x) in *. assert (Pe := pow2_pos e).
  assert (Hi : pow2 (k - e) = inject_Z (2 ^ (k - e))) by (apply pow2_nonneg_Z; lia).
  assert (Hy : x / pow2 e == inject_Z (m * 2 ^ (k - e))).
  { rewrite inject_Z_mult, <- Hi. unfold x.
    setoid_replace (pow2 k) with (pow2 (k - e) * pow2 e).
    - field. lra.
    - rewrite <- pow2_add. now replace (k - e + e)%Z with k by lia. }
  rewrite Hy, rne_inject, <- Hy. field. lra.
Qed.

Lemma round_pos_exact (m k : Z) :
  (0 < m < 2 ^ 53)%Z -> (-1074 <= k)%Z ->
  inject_Z m * pow2 k < pow2 1024 ->
  round_pos (inject_Z m * pow2 k) = Fin (Qred (inject_Z m * pow2 k)).
Proof.
  intros Hm Hk Hb. assert (E := rounded_exact m k Hm Hk).
  destruct (round_pos_cases (inject_Z m * pow2 k)) as [[_ H]|[-> H]].
  - lra.
  - f_equal. now apply Qred_complete.
Qed.

(** The absolute rounding error below [2 ^ k]. *)
Lemma round_pos_err (x : Q) (k : Z) :
  0 < x -> x < pow2 k -> (-1021 <= k <= 1023)%Z ->
  exists q, round_pos x = Fin q
            /\ x - pow2 (k - 54) <= q /\ q <= x + pow2 (k - 54) /\ 0 <= q.
Proof.
  intros Hx Hk Hr.
  assert (L := ilog2_lt x k Hx Hk).
  assert (He : (ulp_exp x - 1 <= k - 54)%Z) by (unfold ulp_exp; lia).
  apply pow2_le in He.
  destruct (rounded_err x) as [E1 E2].
  assert (R : rounded x <= pow2 k).
  { apply rounded_le_pow2; [exact Hx|lra|unfold ulp_exp; lia]. }
  assert (P : pow2 k < pow2 1024) by (apply pow2_lt; lia).
  destruct (round_pos_cases x) as [[_ H]|[-> H]]; [lra|].
  exists (Qred (rounded x)).
  assert (Eq := Qred_correct (rounded x)).
  assert (N := rounded_nonneg x Hx).
  repeat split; lra.
Qed.

(** *** Rounding of any real *)

Lemma ilog2_comp (x x' : Q) : 0 < x -> x == x' -> ilog2 x = ilog2 x'.
Proof.
  intros Hx E. destruct (ilog2_spec x Hx) as [L1 L2].
  symmetry. apply ilog2_unique; rewrite <- E; assumption.
Qed.

Lemma rounded_comp (x x' : Q) : 0 < x -> x == x' -> rounded x == rounded x'.
Proof.
  intros Hx E. unfold rounded, ulp_exp. rewrite (ilog2_comp x x' Hx E).
  now rewrite E.
Qed.

Lemma round_pos_comp (x x' : Q) : 0 < x -> x == x' -> round_pos x = round_pos x'.
Proof.
  intros Hx E. rewrite !round_pos_eq.
  assert (R := rounded_comp x x' Hx E).
  destruct (Qle_bool (pow2 1024) (rounded x)) eqn:B1,
           (Qle_bool (pow2 1024) (rounded x')) eqn:B2; try reflexivity.
  - apply Qle_bool_iff in B1. apply Qle_bool_false in B2. lra.
  - apply Qle_bool_iff in B2. apply Qle_bool_false in B1. lra.
  - f_equal. now apply Qred_complete.
Qed.

#[global] Instance round64_comp : Proper (Qeq ==> eq) round64.
Proof.
  intros x x' E. unfold round64.
  assert (C : Qcompare x 0 = Qcompare x' 0) by now rewrite E.
  rewrite <- C. destruct (Qcompare_spec x 0) as [H|H|H]; [reflexivity| |].
  - f_equal. apply round_pos_comp; [lra|now rewrite E].
  - now apply round_pos_comp.
Qed.

Lemma round64_pos (x : Q) : 0 < x -> round64 x = round_pos x.
Proof.
  intros H. unfold round64. apply (proj1 (Qgt_alt _ _)) in H. now rewrite H.
Qed.

Lemma round64_neg (x : Q) : x < 0 -> round64 x = fneg (round_pos (- x)).
Proof.
  intros H. unfold round64. apply (proj1 (Qlt_alt _ _)) in H. now rewrite H.
Qed.

Lemma round64_zero (x : Q) : x == 0 -> round64 x = Fin 0.
Proof.
  intros H. unfold round64. apply (proj1 (Qeq_alt _ _)) in H. now rewrite H.
Qed.

Lemma isFinite_fneg (a : number) : isFinite (fneg a) = isFinite a.
Proof. destruct a as [| |  |q]; simpl; try reflexivity. now destruct (Qeq_bool q 0). Qed.

Lemma value_fneg (a : number) : value (fneg a) == - value a.
Proof.
  destruct a as [| |  |q]; simpl; try reflexivity.
  destruct (Qeq_bool q 0) eqn:E; simpl.
  - apply Qeq_bool_iff in E. lra.
  - apply Qred_correct.
Qed.

Lemma round64_finite_iff (x : Q) :
  isFinite (round64 x) = true <-> Qabs x < overflow_threshold.
Proof.
  assert (T : 0 < overflow_threshold) by reflexivity.
  destruct (Qcompare_spec x 0) as [H|H|H].
  - rewrite (round64_zero x H). simpl. rewrite H. simpl. tauto.
  - rewrite (round64_neg x H), isFinite_fneg, round_pos_finite_iff by lra.
    rewrite Qabs_neg by lra. reflexivity.
  - rewrite (round64_pos x H), round_pos_finite_iff by lra.
    rewrite Qabs_pos by lra. reflexivity.
Qed.

Lemma round64_sign (x : Q) :
  isFinite (round64 x) = true ->
  (0 <= x -> 0 <= value (round64 x)) /\ (x <= 0 -> value (round64 x) <= 0).
Proof.
  intros F. destruct (Qcompare_spec x 0) as [H|H|H].
  - rewrite (round64_zero x H). simpl. lra.
  - rewrite (round64_neg x H) in *. rewrite isFinite_fneg in F.
    destruct (round_pos_cases (- x)) as [[E _]|[E _]]; rewrite E in *; [discriminate|].
    assert (V := value_fneg (Fin (Qred (rounded (- x))))). cbn [value] in V.
    assert (N : 0 <= rounded (- x)) by (apply rounded_nonneg; lra).
    assert (Q := Qred_correct (rounded (- x))). lra.
  - rewrite (round64_pos x H) in *.
    destruct (round_pos_cases x) as [[E _]|[E _]]; rewrite E in *; [discriminate|].
    cbn [value]. assert (N := rounded_nonneg x H). 
    assert (Q := Qred_correct (rounded x)). lra.
Qed.

(** *** Doubles are fixed points *)

Lemma representable_comp (x x' : Q) : x == x' -> representable x -> representable x'.
Proof.
  intros E (m & k & Hm & Hk & Hb & Hx). exists m, k.
  repeat split; try assumption; now rewrite <- E.
Qed.

Lemma round64_exact (x : Q) : representable x -> round64 x = Fin (Qred x).
Proof.
  intros (m & k & Hm & Hk & Hb & Hx).
  assert (Pk := pow2_pos k).
  destruct (Z.lt_trichotomy m 0) as [M|[M|M]].
  - (* negative *)
    assert (Hm' : inject_Z m < 0) by (change 0 with (inject_Z 0); apply inject_Z_lt_iff; lia).
    assert (Nx : x < 0).
    { rewrite Hx. setoid_replace 0 with (0 * pow2 k) by ring.
      now apply Qmult_lt_compat_r. }
    rewrite (round64_neg x Nx).
    assert (E : - x == inject_Z (- m) * pow2 k) by (rewrite inject_Z_opp, Hx; ring).
    rewrite (round_pos_comp (- x) _ ltac:(lra) E).
    rewrite round_pos_exact; [|lia|lia|].
    + simpl. destruct (Qeq_bool _ 0) eqn:Z.
      * apply Qeq_bool_iff in Z. rewrite Qred_correct, <- E in Z. lra.
      * f_equal. apply Qred_complete. rewrite Qred_correct, <- E. ring.
    + rewrite <- E. rewrite Qabs_neg in Hb by lra. exact Hb.
  - subst m. rewrite round64_zero by (rewrite Hx; ring).
    f_equal. symmetry. transitivity (Qred 0); [|reflexivity].
    apply Qred_complete. rewrite Hx. ring.
  - assert (Hm' : 0 < inject_Z m) by (change 0 with (inject_Z 0); apply inject_Z_lt_iff; lia).
    assert (Px : 0 < x) by (rewrite Hx; now apply Qmult_lt_0_compat).
    rewrite (round64_pos x Px), (round_pos_comp x _ Px Hx).
    rewrite round_pos_exact; [|lia|lia|].
    + f_equal. now apply Qred_complete.
    + rewrite <- Hx. rewrite Qabs_pos in Hb by lra. exact Hb.
Qed.

Lemma Qabs_inject_Z (z : Z) : Qabs (inject_Z z) == inject_Z (Z.abs z).
Proof. unfold inject_Z. symmetry. apply Zabs_Qabs. Qed.

Lemma representable_Z (z : Z) : (Z.abs z <= 2 ^ 53)%Z -> representable (inject_Z z).
Proof.
  intros H. destruct (Z.eq_dec (Z.abs z) (2 ^ 53)) as [E|E].
  - exists (Z.sgn z), 53%Z. repeat split; try lia.
    + rewrite Qabs_inject_Z. rewrite E. reflexivity.
    + change (pow2 53) with (inject_Z (2 ^ 53)). rewrite <- inject_Z_mult.
      rewrite <- E, Z.mul_comm. rewrite Z.abs_sgn. reflexivity.
  - exists z, 0%Z. repeat split; try lia.
    + rewrite Qabs_inject_Z. apply Qle_lt_trans with (inject_Z (2 ^ 53)); [|reflexivity].
      apply inject_Z_le_iff. lia.
    + change (pow2 0) with 1. ring.
Qed.

Lemma denotes_round64 (x : Q) : representable x -> denotes (round64 x) x.
Proof.
  intros H. rewrite (round64_exact x H). split; [reflexivity|]. simpl.
  apply Qred_correct.
Qed.

(** *** Arithmetic on exactly represented values *)

Lemma finite_cases (a : number) :
  isFinite a = true -> a = NegZero \/ a = Fin (value a).
Proof. destruct a; simpl; try discriminate; auto. Qed.

Lemma is_zero_value (a : number) :
  isFinite a = true -> (is_zero a = true <-> value a == 0).
Proof.
  destruct a as [| | |q]; simpl; try discriminate; intros _.
  - split; reflexivity.
  - apply Qeq_bool_iff.
Qed.

Lemma fmul_finite (a b : number) :
  isFinite a = true -> isFinite b = true ->
  fmul a b = if is_zero a || is_zero b
             then (if xorb (signbit a) (signbit b) then NegZero else Fin 0)
             else round64 (value a * value b).
Proof. destruct a, b; simpl; try discriminate; reflexivity. Qed.

Lemma fadd_finite (a b : number) :
  isFinite a = true -> isFinite b = true ->
  fadd a b = match a, b with
             | NegZero, NegZero => NegZero
             | _, _ => round64 (value a + value b)
             end.
Proof. destruct a, b; simpl; try discriminate; reflexivity. Qed.

Lemma denotes_fmul (a b : number) (x y : Q) :
  denotes a x -> denotes b y -> representable (x * y) ->
  denotes (fmul a b) (x * y).
Proof.
  intros [Fa Va] [Fb Vb] R. rewrite (fmul_finite a b Fa Fb).
  destruct (is_zero a || is_zero b) eqn:Z.
  - assert (E : x * y == 0).
    { apply orb_true_iff in Z as [Z|Z]; apply is_zero_value in Z; try assumption.
      - rewrite <- Va, Z. ring.
      - rewrite <- Vb, Z. ring. }
    destruct (xorb _ _); split; try reflexivity; simpl; now rewrite E.
  - rewrite Va, Vb. now apply denotes_round64.
Qed.

Lemma denotes_fadd (a b : number) (x y : Q) :
  denotes a x -> denotes b y -> representable (x + y) ->
  denotes (fadd a b) (x + y).
Proof.
  intros [Fa Va] [Fb Vb] R. rewrite (fadd_finite a b Fa Fb).
  assert (D : denotes (round64 (value a + value b)) (x + y)).
  { rewrite Va, Vb. now apply denotes_round64. }
  destruct a, b; exact D.
Qed.

Lemma denotes_of_Z (z : Z) : denotes (of_Z z) (inject_Z z).
Proof. split; reflexivity. Qed.

Lemma Math_round_value (a : number) :
  isFinite a = true ->
  isFinite (Math_round a) = true
  /\ value (Math_round a) == inject_Z (round_half_up (value a)).
Proof.
  destruct a as [| | |q]; try discriminate; intros _.
  - split; reflexivity.
  - unfold Math_round, round_half_up. cbn [value].
    destruct (Z.eqb_spec (Qfloor (q + (1 # 2))) 0) as [E|E]; cbn [andb].
    + rewrite E. destruct (signbit (Fin q)); split; reflexivity.
    + split; reflexivity.
Qed.

Lemma round_half_up_comp (x y : Q) : x == y -> round_half_up x = round_half_up y.
Proof. intros E. unfold round_half_up. now rewrite E. Qed.

Lemma denotes_Math_round (a : number) (x : Q) :
  denotes a x -> denotes (Math_round a) (inject_Z (round_half_up x)).
Proof.
  intros [F V]. destruct (Math_round_value a F) as [F' V'].
  split; [exact F'|]. rewrite V'. now rewrite (round_half_up_comp _ _ V).
Qed.

(** *** Greedy runs *)

Lemma span_spec (p : char -> bool) (s : jsstring) :
  s = fst (span p s) ++ snd (span p s)
  /\ forallb p (fst (span p s)) = true /\ stops p (snd (span p s)).
Proof.
  induction s as [|c r IH]; simpl.
  - auto.
  - destruct (p c) eqn:Pc.
    + destruct (span p r) as [a b]. simpl in *.
      destruct IH as (E & F & S). rewrite Pc. repeat split; auto. now f_equal.
    + simpl. auto.
Qed.

Lemma span_app (p : char -> bool) (a r : jsstring) :
  forallb p a = true -> stops p r -> span p (a ++ r) = (a, r).
Proof.
  intros F S. induction a as [|c a IH]; simpl.
  - destruct r as [|x r]; [reflexivity|]. simpl in S. simpl. now rewrite S.
  - simpl in F. apply andb_true_iff in F as [Pc F]. rewrite Pc, IH; auto.
Qed.

Lemma span_all (p : char -> bool) (a : jsstring) :
  forallb p a = true -> span p a = (a, []).
Proof.
  intros F. rewrite <- (app_nil_r a) at 1. now apply span_app.
Qed.

Lemma span_length (p : char -> bool) (s : jsstring) :
  (length (snd (span p s)) <= length s)%nat.
Proof.
  destruct (span_spec p s) as (E & _). rewrite E at 2. rewrite length_app. lia.
Qed.

Lemma digits_cons (s : jsstring) :
  digits s -> exists c r, s = c :: r /\ is_digit c = true.
Proof.
  intros [N F]. destruct s as [|c r]; [congruence|].
  simpl in F. apply andb_true_iff in F as [F _]. eauto.
Qed.

Lemma digit_not_sign (c : char) : is_digit c = true -> is_sign c = false.
Proof.
  unfold is_digit, is_sign, plus, minus. intros H.
  apply andb_true_iff in H as [H1 H2].
  apply N.leb_le in H1. apply orb_false_iff.
  split; apply N.eqb_neq; lia.
Qed.

Lemma dot_not_digit : is_digit dot = false.
Proof. reflexivity. Qed.

Lemma digits1_digits (s : jsstring) :
  digits s -> digits1 s = Some (s, []).
Proof.
  intros [N F]. unfold digits1. rewrite (span_all _ _ F).
  destruct s; [congruence|reflexivity].
Qed.

Lemma digits1_app (i r : jsstring) :
  digits i -> stops is_digit r -> digits1 (i ++ r) = Some (i, r).
Proof.
  intros [N F] S. unfold digits1. rewrite (span_app _ _ _ F S).
  destruct i; [congruence|reflexivity].
Qed.

Lemma digits1_inv (s ds r : jsstring) :
  digits1 s = Some (ds, r) -> s = ds ++ r /\ digits ds /\ stops is_digit r.
Proof.
  unfold digits1. destruct (span_spec is_digit s) as (E & F & S).
  destruct (span is_digit s) as [a b]. simpl in *.
  destruct a as [|c a]; [discriminate|]. intros H. injection H as <- <-.
  repeat split; auto. discriminate.
Qed.

Lemma opt_sign_unsigned (s : jsstring) :
  stops (fun c => is_sign c) s -> opt_sign s = ([], s).
Proof. destruct s as [|c r]; simpl; [reflexivity|]. now intros ->. Qed.

Lemma opt_sign_signed (c : char) (r : jsstring) :
  is_sign c = true -> opt_sign (c :: r) = ([c], r).
Proof. simpl. now intros ->. Qed.

Lemma digits_no_sign (s : jsstring) : digits s -> opt_sign s = ([], s).
Proof.
  intros D. apply opt_sign_unsigned. destruct (digits_cons s D) as (c & r & -> & Hc).
  simpl. now apply digit_not_sign.
Qed.

Lemma opt_sign_cases (s : jsstring) :
  (opt_sign s = ([], s) /\ stops (fun c => is_sign c) s)
  \/ (exists c r, s = c :: r /\ is_sign c = true /\ opt_sign s = ([c], r)).
Proof.
  destruct s as [|c r]; simpl; [left; auto|].
  destruct (is_sign c) eqn:S; [right; eauto|left; auto].
Qed.

Lemma opt_fraction_cases (s : jsstring) :
  (exists f r, s = dot :: f ++ r /\ digits f /\ stops is_digit r
               /\ opt_fraction s = (dot :: f, r))
  \/ opt_fraction s = ([], s).
Proof.
  destruct s as [|c r]; simpl; [now right|].
  destruct (N.eqb_spec c dot) as [->|N]; [|now right].
  destruct (digits1 r) as [[fs r']|] eqn:D; [|now right].
  left. apply digits1_inv in D as (-> & Dg & S). exists fs, r'. auto.
Qed.

Lemma opt_fraction_frac (f : jsstring) :
  digits f -> opt_fraction (dot :: f) = (dot :: f, []).
Proof.
  intros D. unfold opt_fraction. now rewrite N.eqb_refl, (digits1_digits _ D).
Qed.

(** *** The backtracking matcher *)

Lemma flat_map_bind (A B C : Type) (g : A -> list B) (h : B -> list C)
  (l : list A) :
  flat_map h (flat_map g l) = flat_map (fun x => flat_map h (g x)) l.
Proof.
  induction l as [|x l IH]; simpl; [reflexivity|].
  now rewrite flat_map_app, IH.
Qed.

Lemma flat_map_one (A B : Type) (h : A -> list B) (x : A) :
  flat_map h [x] = h x.
Proof. simpl. apply app_nil_r. Qed.

Lemma run_Class_nil (p : char -> bool) : run (Class p) [] = [].
Proof. reflexivity. Qed.

Lemma run_Class_cons (p : char -> bool) (c : char) (r : jsstring) :
  run (Class p) (c :: r) = if p c then [r] else [].
Proof. reflexivity. Qed.

Lemma run_Seq (a b : regex) (s : jsstring) :
  run (Seq a b) s = flat_map (run b) (run a s).
Proof. reflexivity. Qed.

Lemma run_Opt (a : regex) (s : jsstring) : run (Opt a) s = run a s ++ [s].
Proof. reflexivity. Qed.

Lemma run_Star (a : regex) (s : jsstring) :
  run (Star a) s = iterate (run a) (length s) s.
Proof. reflexivity. Qed.

Lemma run_Plus (a : regex) (s : jsstring) :
  run (Plus a) s
  = flat_map (fun s' => iterate (run a) (length s') s') (run a s).
Proof. reflexivity. Qed.

Lemma iterate_S (step : jsstring -> list jsstring) (n : nat) (s : jsstring) :
  iterate step (S n) s
  = flat_map (fun s' => if Nat.ltb (length s') (length s)
                        then iterate step n s' else []) (step s)
    ++ [s].
Proof. reflexivity. Qed.

Section Runs.

Variable X : Type.
Variable k : jsstring -> list X.

(** A greedy run of a class, followed by something that cannot start
    inside the run, is the longest run. *)
Lemma iterate_class (p : char -> bool) (n : nat) (s : jsstring) :
  (length s <= n)%nat ->
  (forall c r, p c = true -> k (c :: r) = []) ->
  flat_map k (iterate (run (Class p)) n s) = k (snd (span p s)).
Proof.
  intros L K. revert s L. induction n as [|n IH]; intros s L.
  - destruct s; [|simpl in L; lia]. simpl. apply app_nil_r.
  - rewrite iterate_S, flat_map_app, flat_map_one. destruct s as [|c r].
    + rewrite run_Class_nil. reflexivity.
    + rewrite run_Class_cons. cbn [span]. destruct (p c) eqn:Pc.
      * rewrite flat_map_one.
        assert (T : Nat.ltb (length r) (length (c :: r)) = true)
          by (apply Nat.ltb_lt; simpl; lia).
        rewrite T, (K c r Pc), app_nil_r.
        rewrite IH by (simpl in L; lia).
        now destruct (span p r).
      * reflexivity.
Qed.

Lemma star_class (p : char -> bool) (s : jsstring) :
  (forall c r, p c = true -> k (c :: r) = []) ->
  flat_map k (run (Star (Class p)) s) = k (snd (span p s)).
Proof. intros K. rewrite run_Star. now apply iterate_class. Qed.

Lemma plus_class (p : char -> bool) (s : jsstring) :
  (forall c r, p c = true -> k (c :: r) = []) ->
  flat_map k (run (Plus (Class p)) s)
  = match fst (span p s) with
    | [] => []
    | _ :: _ => k (snd (span p s))
    end.
Proof.
  intros K. rewrite run_Plus, flat_map_bind.
  destruct s as [|c r]; [reflexivity|]. rewrite run_Class_cons. cbn [span].
  destruct (p c) eqn:Pc; [|reflexivity].
  rewrite flat_map_one, iterate_class by (auto; lia).
  now destruct (span p r).
Qed.

Lemma digits_cont (s : jsstring) :
  (forall c r, is_digit c = true -> k (c :: r) = []) ->
  flat_map k (run re_digits s)
  = match digits1 s with
    | Some (_, r) => k r
    | None => []
    end.
Proof.
  intros K. unfold re_digits, digits1. rewrite (plus_class _ _ K).
  now destruct (span is_digit s) as [[|c a] b].
Qed.

End Runs.

Lemma number_char_digit (c : char) : is_digit c = true -> number_char c = true.
Proof. unfold number_char. now intros ->. Qed.

Lemma number_char_dot : number_char dot = true.
Proof. reflexivity. Qed.

Lemma sign_cont (X : Type) (k : jsstring -> list X) (s : jsstring) :
  (forall c r, is_sign c = true -> k (c :: r) = []) ->
  flat_map k (run re_sign s) = k (snd (opt_sign s)).
Proof.
  intros K. unfold re_sign, opt_sign.
  rewrite run_Opt, flat_map_app, flat_map_one.
  destruct s as [|c r]; [reflexivity|]. rewrite run_Class_cons.
  destruct (is_sign c) eqn:S; [|reflexivity].
  now rewrite flat_map_one, (K c r S), app_nil_r.
Qed.

Lemma sign_not_digit (c : char) : is_sign c = true -> is_digit c = false.
Proof.
  intros S. destruct (is_digit c) eqn:D; [|reflexivity].
  apply digit_not_sign in D. congruence.
Qed.

Lemma digits1_sign (c : char) (r : jsstring) :
  is_sign c = true -> digits1 (c :: r) = None.
Proof. intros S. unfold digits1. cbn [span]. now rewrite (sign_not_digit c S). Qed.

Section Numbers.

Variable X : Type.
Variable k : jsstring -> list X.

Lemma fraction_cont (s : jsstring) :
  (forall c r, number_char c = true -> k (c :: r) = []) ->
  flat_map k (run (Opt (Seq (Class (N.eqb dot)) re_digits)) s)
  = k (snd (opt_fraction s)).
Proof.
  intros K.
  assert (Kd : forall c r, is_digit c = true -> k (c :: r) = []).
  { intros c r H. apply K. now apply number_char_digit. }
  rewrite run_Opt, flat_map_app, flat_map_one, run_Seq, flat_map_bind.
  destruct s as [|c r]; [reflexivity|].
  rewrite run_Class_cons. unfold opt_fraction.
  rewrite (N.eqb_sym dot c). destruct (N.eqb_spec c dot) as [->|N].
  - rewrite flat_map_one, (digits_cont _ _ _ Kd), (K dot r number_char_dot), app_nil_r.
    destruct (digits1 r) as [[fs r']|]; [reflexivity|].
    cbn [snd]. now rewrite (K dot r number_char_dot).
  - reflexivity.
Qed.

Lemma decimal_cont (s : jsstring) :
  (forall c r, number_char c = true -> k (c :: r) = []) ->
  flat_map k (run re_decimal s)
  = match decimal_prefix s with
    | Some r => k r
    | None => []
    end.
Proof.
  intros K. unfold re_decimal, decimal_prefix.
  rewrite run_Seq, flat_map_bind, digits_cont.
  - destruct (digits1 s) as [[ds s2]|]; [|reflexivity]. now apply fraction_cont.
  - intros c r H. rewrite (fraction_cont _ K). unfold opt_fraction.
    destruct (N.eqb_spec c dot) as [->|N]; [discriminate|].
    cbn [snd]. apply K. now apply number_char_digit.
Qed.

Lemma signed_digits_cont (s : jsstring) :
  (forall c r, is_digit c = true -> k (c :: r) = []) ->
  flat_map k (run (Seq re_sign re_digits) s)
  = match digits1 (snd (opt_sign s)) with
    | Some (_, r) => k r
    | None => []
    end.
Proof.
  intros K. rewrite run_Seq, flat_map_bind, sign_cont.
  - now apply digits_cont.
  - intros c r S. rewrite (digits_cont _ _ _ K). now rewrite (digits1_sign c r S).
Qed.

Lemma number_cont (s : jsstring) :
  (forall c r, number_char c = true -> k (c :: r) = []) ->
  flat_map k (run re_number s)
  = match number_prefix s with
    | Some (_, r) => k r
    | None => []
    end.
Proof.
  intros K. unfold re_number. rewrite run_Seq, flat_map_bind, sign_cont.
  - rewrite (decimal_cont _ K). unfold decimal_prefix, number_prefix.
    destruct (opt_sign s) as [sg s1]. cbn [snd].
    destruct (digits1 s1) as [[ds s2]|]; [|reflexivity].
    now destruct (opt_fraction s2).
  - intros c r S. rewrite (decimal_cont _ K). unfold decimal_prefix.
    now rewrite (digits1_sign c r S).
Qed.

End Numbers.

(** The anchored tests. *)

Lemma existsb_accept (l : list jsstring) :
  existsb is_empty l = negb (Nat.eqb (length (flat_map accept l)) 0).
Proof.
  induction l as [|s l IH]; [reflexivity|]. cbn [existsb flat_map].
  rewrite length_app, IH. unfold accept. now destruct (is_empty s).
Qed.

Lemma accept_cons (c : char) (r : jsstring) : accept (c :: r) = [].
Proof. reflexivity. Qed.

Lemma test_digits_greedy (s : jsstring) : test_digits s = greedy_digits s.
Proof.
  unfold test_digits, test, greedy_digits.
  rewrite existsb_accept, digits_cont by (intros; apply accept_cons).
  now destruct (digits1 s) as [[ds [|c r]]|].
Qed.

Lemma test_signed_digits_greedy (s : jsstring) :
  test_signed_digits s = greedy_digits (snd (opt_sign s)).
Proof.
  unfold test_signed_digits, test, greedy_digits.
  rewrite existsb_accept, signed_digits_cont by (intros; apply accept_cons).
  now destruct (digits1 (snd (opt_sign s))) as [[ds [|c r]]|].
Qed.

Lemma test_decimal_greedy (s : jsstring) : test_decimal s = greedy_decimal s.
Proof.
  unfold test_decimal, test, greedy_decimal.
  rewrite existsb_accept, decimal_cont by (intros; apply accept_cons).
  unfold decimal_prefix. destruct (digits1 s) as [[ds s2]|]; [|reflexivity].
  now destruct (snd (opt_fraction s2)).
Qed.

Lemma test_signed_decimal_greedy (s : jsstring) :
  test_signed_decimal s = greedy_decimal (snd (opt_sign s)).
Proof.
  unfold test_signed_decimal, test, greedy_decimal.
  rewrite existsb_accept, number_cont by (intros; apply accept_cons).
  unfold number_prefix. destruct (opt_sign s) as [sg s1]. cbn [snd].
  destruct (digits1 s1) as [[ds s2]|]; [|reflexivity].
  now destruct (opt_fraction s2) as [fr [|c r]].
Qed.

(** The token pattern. *)

Lemma hd_error_app (A : Type) (l l' : list A) (x : A) :
  hd_error l = Some x -> hd_error (l ++ l') = Some x.
Proof. destruct l; simpl; [discriminate|auto]. Qed.

Lemma iterate_class_hd (p : char -> bool) (n : nat) (s : jsstring) :
  (length s <= n)%nat ->
  hd_error (iterate (run (Class p)) n s) = Some (snd (span p s)).
Proof.
  revert s. induction n as [|n IH]; intros s L.
  - destruct s; [reflexivity|simpl in L; lia].
  - rewrite iterate_S. destruct s as [|c r]; [reflexivity|].
    rewrite run_Class_cons. cbn [span]. destruct (p c) eqn:Pc; [|reflexivity].
    rewrite flat_map_one.
    assert (T : Nat.ltb (length r) (length (c :: r)) = true)
      by (apply Nat.ltb_lt; simpl; lia).
    rewrite T. apply hd_error_app. rewrite IH by (simpl in L; lia).
    now destruct (span p r).
Qed.

Lemma plus_class_hd (p : char -> bool) (s : jsstring) :
  hd_error (run (Plus (Class p)) s)
  = match fst (span p s) with
    | [] => None
    | _ :: _ => Some (snd (span p s))
    end.
Proof.
  rewrite run_Plus. destruct s as [|c r]; [reflexivity|].
  rewrite run_Class_cons. cbn [span]. destruct (p c) eqn:Pc; [|reflexivity].
  rewrite flat_map_one, iterate_class_hd by lia.
  now destruct (span p r).
Qed.

Lemma plus_class_nil (p : char -> bool) (c : char) (r : jsstring) :
  p c = false -> run (Plus (Class p)) (c :: r) = [].
Proof. intros H. now rewrite run_Plus, run_Class_cons, H. Qed.

Lemma space_not_alpha (c : char) : is_space c = true -> is_alpha c = false.
Proof.
  unfold is_space, is_alpha. intros H.
  repeat (apply orb_true_iff in H as [H|H]);
    try (apply andb_true_iff in H as [H1 H2]; apply N.leb_le in H1, H2);
    try apply N.eqb_eq in H;
    apply orb_false_iff; split; apply andb_false_iff;
    rewrite !N.leb_gt; lia.
Qed.

Lemma number_char_plain (c : char) :
  number_char c = true -> is_space c = false /\ is_alpha c = false.
Proof.
  unfold number_char, is_digit, is_space, is_alpha, dot. intros H.
  assert (R : (48 <= c <= 57 \/ c = 46)%N).
  { apply orb_true_iff in H as [H|H].
    - apply andb_true_iff in H as [H1 H2]. apply N.leb_le in H1, H2. lia.
    - apply N.eqb_eq in H. lia. }
  split.
  - repeat (apply orb_false_iff; split); try (apply N.eqb_neq; lia);
      apply andb_false_iff; rewrite !N.leb_gt; lia.
  - apply orb_false_iff; split; apply andb_false_iff; rewrite !N.leb_gt; lia.
Qed.

Lemma consumed_app (a r : jsstring) : consumed (a ++ r) r = a.
Proof.
  unfold consumed. rewrite length_app.
  replace (length a + length r - length r)%nat with (length a) by lia.
  rewrite firstn_app, Nat.sub_diag, firstn_all. simpl. apply app_nil_r.
Qed.

Lemma number_prefix_app (s num rest : jsstring) :
  number_prefix s = Some (num, rest) -> s = num ++ rest.
Proof.
  unfold number_prefix.
  destruct (opt_sign_cases s) as [[E _]|(c & r & -> & Sc & E)]; rewrite E.
  - destruct (digits1 s) as [[ds s2]|] eqn:D; [|discriminate].
    apply digits1_inv in D as (-> & _ & _).
    destruct (opt_fraction_cases s2) as [(f & r & -> & _ & _ & F)|F]; rewrite F;
      intros H; injection H as <- <-; cbn [app];
      [now rewrite <- app_assoc|now rewrite app_nil_r].
  - destruct (digits1 r) as [[ds s2]|] eqn:D; [|discriminate].
    apply digits1_inv in D as (-> & _ & _).
    destruct (opt_fraction_cases s2) as [(f & r' & -> & _ & _ & F)|F]; rewrite F;
      intros H; injection H as <- <-; cbn [app];
      [now rewrite <- app_assoc|now rewrite app_nil_r].
Qed.

Lemma TOKEN_REG_EX_greedy (s : jsstring) : TOKEN_REG_EX s = greedy_token s.
Proof.
  unfold greedy_token.
  set (K2 := fun s1 s2 =>
               List.map (fun s3 => (Token (consumed s s1) (consumed s2 s3), s3))
                        (run (Plus (Class is_alpha)) s2)).
  change (TOKEN_REG_EX s)
    with (hd_error
            (flat_map
               (fun s1 => flat_map (K2 s1) (run (Star (Class is_space)) s1))
               (run re_number s))).
  assert (K2s : forall s1 c r, is_alpha c = false -> K2 s1 (c :: r) = []).
  { intros s1 c r A. unfold K2. now rewrite (plus_class_nil _ c r A). }
  assert (K1 : forall s1, flat_map (K2 s1) (run (Star (Class is_space)) s1)
                          = K2 s1 (snd (span is_space s1))).
  { intros s1. apply star_class. intros c r S. apply K2s. now apply space_not_alpha. }
  rewrite number_cont.
  - destruct (number_prefix s) as [[num s1]|] eqn:N; [|reflexivity].
    apply number_prefix_app in N. cbv beta. rewrite K1. unfold K2.
    destruct (span_spec is_space s1) as (_ & _ & _).
    destruct (span is_space s1) as [ws s2]. cbn [snd].
    assert (H := plus_class_hd is_alpha s2).
    destruct (span_spec is_alpha s2) as (E2 & _ & _).
    destruct (span is_alpha s2) as [u s3]. cbn [fst snd] in *.
    destruct (run (Plus (Class is_alpha)) s2) as [|x l]; destruct u as [|c u];
      try discriminate; [reflexivity|].
    injection H as ->. cbn [List.map hd_error]. subst s s2.
    now rewrite !consumed_app.
  - intros c r H. destruct (number_char_plain c H) as [S A].
    cbv beta. rewrite K1. cbn [span]. rewrite S. cbn [snd]. now apply K2s.
Qed.

(** *** The anchored tests *)

Lemma test_digits_iff (s : jsstring) : test_digits s = true <-> digits s.
Proof.
  rewrite test_digits_greedy. unfold greedy_digits. split.
  - destruct (digits1 s) as [[ds r]|] eqn:D; [|discriminate].
    destruct r; [|discriminate]. intros _.
    apply digits1_inv in D as (E & Dg & _). rewrite app_nil_r in E. now subst.
  - intros D. now rewrite (digits1_digits _ D).
Qed.

Lemma test_signed_digits_iff (s : jsstring) :
  test_signed_digits s = true <-> signed digits s.
Proof.
  rewrite test_signed_digits_greedy, <- test_digits_greedy.
  unfold signed. split.
  - destruct (opt_sign_cases s) as [[-> _]|(c & r & -> & Sc & ->)]; simpl;
      rewrite test_digits_iff; intros D; [now left|].
    right. exists c, r. auto.
  - intros [D|(c & r & -> & Sc & D)].
    + rewrite (digits_no_sign _ D). simpl. now apply test_digits_iff.
    + rewrite (opt_sign_signed _ _ Sc). simpl. now apply test_digits_iff.
Qed.

Lemma test_decimal_iff (s : jsstring) :
  test_decimal s = true <-> unsigned_decimal s.
Proof.
  rewrite test_decimal_greedy. unfold greedy_decimal, unsigned_decimal. split.
  - destruct (digits1 s) as [[i r]|] eqn:D; [|discriminate].
    apply digits1_inv in D as (-> & Di & S).
    destruct (opt_fraction_cases r) as [(f & r' & -> & Df & _ & ->)| ->]; simpl.
    + intros E. apply is_empty_true in E. subst r'. rewrite app_nil_r. right. eauto.
    + intros E. apply is_empty_true in E. subst r. rewrite app_nil_r. now left.
  - intros [D|(i & f & -> & Di & Df)].
    + rewrite (digits1_digits _ D). reflexivity.
    + rewrite (digits1_app i (dot :: f) Di dot_not_digit).
      now rewrite (opt_fraction_frac f Df).
Qed.

Lemma unsigned_decimal_no_sign (s : jsstring) :
  unsigned_decimal s -> opt_sign s = ([], s).
Proof.
  intros [D|(i & f & -> & Di & Df)].
  - now apply digits_no_sign.
  - destruct (digits_cons i Di) as (c & r & -> & Hc). simpl.
    now rewrite (digit_not_sign c Hc).
Qed.

Lemma test_signed_decimal_iff (s : jsstring) :
  test_signed_decimal s = true <-> signed unsigned_decimal s.
Proof.
  rewrite test_signed_decimal_greedy, <- test_decimal_greedy.
  unfold signed. split.
  - destruct (opt_sign_cases s) as [[-> _]|(c & r & -> & Sc & ->)]; simpl;
      rewrite test_decimal_iff; intros D; [now left|].
    right. exists c, r. auto.
  - intros [D|(c & r & -> & Sc & D)].
    + rewrite (unsigned_decimal_no_sign _ D). simpl. now apply test_decimal_iff.
    + rewrite (opt_sign_signed _ _ Sc). simpl. now apply test_decimal_iff.
Qed.

(** *** String to Number *)

Lemma digits_value_app (a b : jsstring) :
  digits_value (a ++ b)
  = fold_left (fun acc c => (10 * acc + digit_value c)%Z) b (digits_value a).
Proof. unfold digits_value. apply fold_left_app. Qed.

Lemma fold_digits_bounds (b : jsstring) (n : Z) :
  (0 <= n)%Z -> forallb is_digit b = true ->
  let v := fold_left (fun acc c => (10 * acc + digit_value c)%Z) b n in
  (n * 10 ^ Z.of_nat (length b) <= v < (n + 1) * 10 ^ Z.of_nat (length b))%Z.
Proof.
  revert n. induction b as [|c b IH]; intros n Hn F; simpl fold_left.
  - simpl. lia.
  - simpl in F. apply andb_true_iff in F as [Fc F].
    assert (Hc : (0 <= digit_value c <= 9)%Z).
    { unfold is_digit in Fc. apply andb_true_iff in Fc as [A B].
      apply N.leb_le in A, B. unfold digit_value. lia. }
    specialize (IH (10 * n + digit_value c)%Z ltac:(lia) F). cbv zeta in IH.
    replace (Z.of_nat (length (c :: b))) with (1 + Z.of_nat (length b))%Z
      by (simpl length; lia).
    rewrite Z.pow_add_r by lia. change (10 ^ 1)%Z with 10%Z.
    assert (P : (0 < 10 ^ Z.of_nat (length b))%Z) by (apply Z.pow_pos_nonneg; lia).
    cbv zeta.
    set (v := fold_left _ b _) in *. set (q := (10 ^ Z.of_nat (length b))%Z) in *.
    nia.
Qed.

Lemma digits_value_bounds (s : jsstring) :
  forallb is_digit s = true ->
  (0 <= digits_value s < 10 ^ Z.of_nat (length s))%Z.
Proof.
  intros F. generalize (fold_digits_bounds s 0 ltac:(lia) F). cbv zeta.
  unfold digits_value. lia.
Qed.

Lemma unsigned_value_digits (s : jsstring) :
  digits s -> unsigned_value s == inject_Z (digits_value s).
Proof.
  intros [_ F]. unfold unsigned_value. rewrite (span_all _ _ F).
  unfold decimal_value. simpl tl. rewrite app_nil_r. simpl length.
  change (inject_Z (10 ^ Z.of_nat 0)) with 1. field.
Qed.

Lemma unsigned_value_frac (i f : jsstring) :
  digits i -> unsigned_value (i ++ dot :: f) = decimal_value i f.
Proof.
  intros [_ F]. unfold unsigned_value.
  now rewrite (span_app _ i (dot :: f) F dot_not_digit).
Qed.

Lemma StringToNumber_unsigned (s : jsstring) :
  unsigned_decimal s -> StringToNumber s = round64 (unsigned_value s).
Proof.
  intros U. unfold StringToNumber. rewrite (unsigned_decimal_no_sign s U).
  destruct U as [D|(i & f & -> & Di & Df)].
  - rewrite (digits1_digits _ D). simpl.
    apply round64_comp. rewrite (unsigned_value_digits _ D).
    unfold decimal_value. rewrite app_nil_r. simpl length.
    change (inject_Z (10 ^ Z.of_nat 0)) with 1. field.
  - rewrite (digits1_app i (dot :: f) Di dot_not_digit).
    rewrite (opt_fraction_frac f Df). simpl.
    now rewrite (unsigned_value_frac i f Di).
Qed.

Lemma StringToNumber_signed (c : char) (r : jsstring) :
  is_sign c = true -> unsigned_decimal r ->
  StringToNumber (c :: r)
  = if (c =? minus)%N then fneg (round64 (unsigned_value r))
    else round64 (unsigned_value r).
Proof.
  intros Sc U. rewrite <- (StringToNumber_unsigned r U).
  unfold StringToNumber at 1. rewrite (opt_sign_signed c r Sc).
  unfold StringToNumber. rewrite (unsigned_decimal_no_sign r U).
  destruct (digits1 r) as [[ds s2]|];
    [|now destruct (c =? minus)%N].
  destruct (opt_fraction s2) as [fr [|x t]]; simpl;
    now destruct (c =? minus)%N.
Qed.

Lemma fold_digits_nonneg (b : jsstring) (n : Z) :
  (0 <= n)%Z ->
  (0 <= fold_left (fun acc c => (10 * acc + digit_value c)%Z) b n)%Z.
Proof.
  revert n. induction b as [|c b IH]; intros n Hn; cbn [fold_left]; [exact Hn|].
  apply IH. unfold digit_value. lia.
Qed.

Lemma decimal_value_nonneg (i f : jsstring) : 0 <= decimal_value i f.
Proof.
  unfold decimal_value. apply Qle_shift_div_l.
  - change 0 with (inject_Z 0). apply inject_Z_lt_iff.
    apply Z.pow_pos_nonneg; lia.
  - rewrite Qmult_0_l. change 0 with (inject_Z 0). apply inject_Z_le_iff.
    apply fold_digits_nonneg. lia.
Qed.

Lemma unsigned_value_nonneg (s : jsstring) : 0 <= unsigned_value s.
Proof.
  unfold unsigned_value. destruct (span is_digit s) as [i r].
  apply decimal_value_nonneg.
Qed.

(** *** Comparisons with a constant *)

Lemma fge_finite (a : number) (c : Q) :
  isFinite a = true -> (fge a (Fin c) = true <-> c <= value a).
Proof.
  intros F. destruct a as [| | |q]; try discriminate; cbn [fge value].
  - destruct (Qcompare_spec 0 c) as [H|H|H]; split; try discriminate; try reflexivity; try lra; intros; lra.
  - destruct (Qcompare_spec q c) as [H|H|H]; split; try discriminate; try reflexivity; try lra; intros; lra.
Qed.

Lemma flt_finite (a : number) (c : Q) :
  isFinite a = true -> (flt a (Fin c) = true <-> value a < c).
Proof.
  intros F. destruct a as [| | |q]; try discriminate; cbn [flt value].
  - destruct (Qcompare_spec 0 c) as [H|H|H]; split; try discriminate; try reflexivity; try lra; intros; lra.
  - destruct (Qcompare_spec q c) as [H|H|H]; split; try discriminate; try reflexivity; try lra; intros; lra.
Qed.

(** *** The error of one rounding *)

Lemma round64_err (x : Q) (k : Z) :
  0 <= x -> x < pow2 k -> (-1021 <= k <= 1023)%Z ->
  exists q, round64 x = Fin q
            /\ x - pow2 (k - 54) <= q /\ q <= x + pow2 (k - 54) /\ 0 <= q.
Proof.
  intros H0 Hk Hr. destruct (Qle_lt_or_eq _ _ H0) as [P|Z].
  - rewrite (round64_pos x P). now apply round_pos_err.
  - rewrite (round64_zero x (Qeq_sym _ _ Z)). exists 0.
    assert (Q := pow2_pos (k - 54)). repeat split; lra.
Qed.

(** *** Every finite result of a rounding is a double *)

Lemma rounded_representable (x : Q) :
  0 < x -> rounded x < pow2 1024 -> representable (rounded x).
Proof.
  intros Hx Hb. assert (N := rounded_nonneg x Hx).
  assert (A : Qabs (rounded x) < pow2 1024) by (rewrite Qabs_pos; assumption).
  unfold rounded in *. set (e := ulp_exp x) in *.
  set (m := rne (x / pow2 e)) in *.
  assert (M1 : (m <= 2 ^ 53)%Z).
  { apply rne_le_Z. change (inject_Z (2 ^ 53)) with (pow2 53).
    apply Qlt_le_weak. now apply scaled_lt. }
  assert (M0 : (0 <= m)%Z).
  { apply rne_ge_Z. change (inject_Z 0) with 0.
    apply Qle_shift_div_l; [apply pow2_pos|lra]. }
  assert (E : (-1074 <= e)%Z) by (unfold e, ulp_exp; lia).
  destruct (Z.eq_dec m (2 ^ 53)) as [T|T].
  - exists 1%Z, (53 + e)%Z. repeat split; try lia; try assumption.
    rewrite T, pow2_add. change (inject_Z (2 ^ 53)) with (pow2 53). ring.
  - exists m, e. repeat split; try lia; try assumption.
Qed.

Lemma representable_opp (x : Q) : representable x -> representable (- x).
Proof.
  intros (m & k & Hm & Hk & Hb & Hx). exists (- m)%Z, k.
  repeat split; try lia.
  - now rewrite Qabs_opp.
  - rewrite inject_Z_opp, Hx. ring.
Qed.

Lemma representable_0 : representable 0.
Proof. exists 0%Z, 0%Z. repeat split; try lia; reflexivity. Qed.

Lemma round64_representable (x : Q) :
  isFinite (round64 x) = true -> representable (value (round64 x)).
Proof.
  destruct (Qcompare_spec x 0) as [H|H|H].
  - rewrite (round64_zero x H). intros _. apply representable_0.
  - rewrite (round64_neg x H), isFinite_fneg. intros F.
    apply representable_comp with (- value (round_pos (- x)));
      [symmetry; apply value_fneg|].
    apply representable_opp.
    destruct (round_pos_cases (- x)) as [[E _]|[E B]]; rewrite E in *; [discriminate|].
    cbn [value]. apply representable_comp with (rounded (- x));
      [symmetry; apply Qred_correct|].
    apply rounded_representable; [lra|exact B].
  - rewrite (round64_pos x H). intros F.
    destruct (round_pos_cases x) as [[E _]|[E B]]; rewrite E in *; [discriminate|].
    cbn [value]. apply representable_comp with (rounded x);
      [symmetry; apply Qred_correct|].
    now apply rounded_representable.
Qed.

(** *** Sixty *)

Lemma round_pos_sixty (x : Q) :
  0 < x ->
  (x < sixty_cut ->
     exists q, round_pos x = Fin q /\ 0 <= q /\ q < 60)
  /\ (sixty_cut <= x -> isFinite (round_pos x) = true ->
      60 <= value (round_pos x)).
Proof.
  intros Hx.
  assert (C1 : pow2 5 < sixty_cut) by (vm_compute; reflexivity).
  assert (C2 : sixty_cut < pow2 6) by (vm_compute; reflexivity).
  assert (C3 : pow2 6 < pow2 1024) by (apply pow2_lt; lia).
  assert (C4 : 60 < pow2 6) by reflexivity.
  assert (C5 : pow2 5 < 60) by reflexivity.
  assert (N := rounded_nonneg x Hx).
  assert (Q := Qred_correct (rounded x)).
  destruct (Qlt_le_dec x (pow2 5)) as [A|A].
  - (* below 32 *)
    assert (L := ilog2_lt x 5 Hx A).
    assert (R : rounded x <= pow2 5).
    { apply rounded_le_pow2; [exact Hx|lra|unfold ulp_exp; lia]. }
    destruct (round_pos_cases x) as [[_ B]|[E B]]; [lra|]. rewrite E.
    split; [|intros S F; exfalso; lra]. intros _. exists (Qred (rounded x)). repeat split; lra.
  - destruct (Qlt_le_dec x (pow2 6)) as [B|B].
    + (* the binade of 60 *)
      assert (B6 := B). change (pow2 6) with (pow2 (5 + 1)) in B.
      assert (I := rounded_ge_iff x 5 (60 * 2 ^ 47) A B ltac:(lia) eq_refl).
      setoid_replace (inject_Z (60 * 2 ^ 47) * pow2 (5 - 52)) with 60 in I
        by (vm_compute; reflexivity).
      setoid_replace ((inject_Z (60 * 2 ^ 47) - (1 # 2)) * pow2 (5 - 52))
        with sixty_cut in I by (vm_compute; reflexivity).
      assert (R : rounded x <= pow2 6).
      { apply rounded_le_pow2; [exact Hx|lra|].
        rewrite (ulp_exp_binade x 5 A B); lia. }
      destruct (round_pos_cases x) as [[_ B']|[E B']]; [lra|]. rewrite E.
      cbn [value]. split.
      * intros S. exists (Qred (rounded x)).
        assert (G : rounded x < 60).
        { apply Qnot_le_lt. intros G. apply I in G. lra. }
        repeat split; lra.
      * intros S _. rewrite Q. now apply I.
    + split; [intros; lra|]. intros _ F.
      assert (L := ilog2_ge x 6 B).
      destruct (ilog2_spec x Hx) as [L1 _].
      assert (R : pow2 (ilog2 x) <= rounded x).
      { apply rounded_ge_pow2; [exact L1|unfold ulp_exp; lia]. }
      assert (P : pow2 6 <= pow2 (ilog2 x)) by (apply pow2_le; lia).
      destruct (round_pos_cases x) as [[E _]|[E _]]; rewrite E in *; [discriminate|].
      cbn [value]. lra.
Qed.

Lemma round64_below_sixty (x : Q) :
  0 <= x -> x < sixty_cut ->
  exists q, round64 x = Fin q /\ 0 <= q /\ q < 60.
Proof.
  intros H0 H. destruct (Qle_lt_or_eq _ _ H0) as [P|Z].
  - rewrite (round64_pos x P). now apply round_pos_sixty.
  - rewrite (round64_zero x (Qeq_sym _ _ Z)). exists 0. repeat split; lra.
Qed.

Lemma round64_from_sixty (x : Q) :
  sixty_cut <= x -> isFinite (round64 x) = true -> 60 <= value (round64 x).
Proof.
  intros H. assert (C : 0 < sixty_cut) by reflexivity.
  rewrite (round64_pos x) by lra. apply round_pos_sixty; lra.
Qed.

Lemma parseColonTimeToMs_eq (t : jsstring) :
  parseColonTimeToMs t =
  match split colon t with
  | [h; m] => colon_body (trim h) (trim m) None
  | [h; m; s] => colon_body (trim h) (trim m) (Some (trim s))
  | _ => None
  end.
Proof.
  unfold parseColonTimeToMs.
  destruct (split colon t) as [|h [|m [|s [|x l]]]]; reflexivity.
Qed.

(** *** Hours *)

Lemma Qopp_opp (q : Q) : - - q = q.
Proof. destruct q as [n d]. unfold Qopp. simpl. now rewrite Z.opp_involutive. Qed.

Lemma round64_shape (x : Q) :
  0 <= x -> round64 x = Inf false \/ exists q, round64 x = Fin (Qred q) /\ 0 <= q.
Proof.
  intros H. destruct (Qle_lt_or_eq _ _ H) as [P|Z].
  - rewrite (round64_pos x P).
    destruct (round_pos_cases x) as [[E _]|[E _]]; rewrite E; [now left|right].
    exists (rounded x). split; [reflexivity|]. now apply rounded_nonneg.
  - rewrite (round64_zero x (Qeq_sym _ _ Z)). right. exists 0. split; [reflexivity|lra].
Qed.

Lemma Math_abs_nonneg (x : Q) : 0 <= x -> Math_abs (round64 x) = round64 x.
Proof.
  intros H. destruct (round64_shape x H) as [->|(q & -> & Hq)]; [reflexivity|].
  unfold Math_abs. cbn [signbit].
  destruct (Qcompare_spec (Qred q) 0) as [C|C|C]; try reflexivity.
  rewrite Qred_correct in C. lra.
Qed.

Lemma Math_abs_fneg (x : Q) : 0 <= x -> Math_abs (fneg (round64 x)) = round64 x.
Proof.
  intros H. destruct (round64_shape x H) as [->|(q & -> & Hq)]; [reflexivity|].
  cbn [fneg]. destruct (Qeq_bool (Qred q) 0) eqn:Z.
  - apply Qeq_bool_iff in Z. unfold Math_abs. cbn [signbit fneg].
    f_equal. change 0 with (Qred 0). apply Qred_complete.
    now rewrite <- Z, Qred_correct.
  - apply Qeq_bool_neq in Z. rewrite Qred_correct in Z.
    unfold Math_abs. cbn [signbit].
    assert (C : Qcompare (Qred (- Qred q)) 0 = Lt).
    { apply (proj1 (Qlt_alt _ _)). rewrite !Qred_correct. lra. }
    rewrite C. cbn [fneg].
    assert (Z' : Qeq_bool (Qred (- Qred q)) 0 = false).
    { destruct (Qeq_bool _ 0) eqn:Z'; [|reflexivity].
      apply Qeq_bool_iff in Z'. rewrite !Qred_correct in Z'. lra. }
    rewrite Z'. f_equal. apply Qred_complete. rewrite !Qred_correct. ring.
Qed.

Lemma digits_unsigned (s : jsstring) : digits s -> unsigned_decimal s.
Proof. now left. Qed.

Lemma digits_nonempty (s : jsstring) : digits s -> is_empty s = false.
Proof. intros [N _]. destruct s; [congruence|reflexivity]. Qed.

Lemma digits_value_nonneg (s : jsstring) : (0 <= digits_value s)%Z.
Proof. apply fold_digits_nonneg. lia. Qed.

Lemma hours_of_segment (h : jsstring) :
  signed digits h ->
  Math_abs (StringToNumber h) = round64 (inject_Z (digits_value (strip_sign h)))
  /\ is_empty h = false.
Proof.
  assert (N : forall s, 0 <= inject_Z (digits_value s)).
  { intros s. change 0 with (inject_Z 0). apply inject_Z_le_iff, digits_value_nonneg. }
  intros [D|(c & r & -> & Sc & D)].
  - rewrite (StringToNumber_unsigned h (digits_unsigned h D)).
    rewrite (round64_comp _ _ (unsigned_value_digits h D)).
    destruct (digits_cons h D) as (c & r & -> & Hc).
    unfold strip_sign. rewrite (digit_not_sign c Hc).
    split; [|reflexivity]. apply Math_abs_nonneg, N.
  - rewrite (StringToNumber_signed c r Sc (digits_unsigned r D)).
    rewrite (round64_comp _ _ (unsigned_value_digits r D)).
    unfold strip_sign. rewrite Sc. split; [|reflexivity].
    destruct (c =? minus)%N; [apply Math_abs_fneg|apply Math_abs_nonneg]; apply N.
Qed.

Lemma signed_digits_minus (h : jsstring) :
  signed digits h -> startsWith minus h = true ->
  exists r, h = minus :: r /\ digits r.
Proof.
  intros [D|(c & r & -> & Sc & D)] S.
  - destruct (digits_cons h D) as (c & r & -> & Hc). simpl in S.
    apply N.eqb_eq in S. subst c. discriminate.
  - simpl in S. apply N.eqb_eq in S. subst c. eauto.
Qed.

(** *** Minutes and seconds *)

Lemma Qred_inject_Z (z : Z) : Qred (inject_Z z) = inject_Z z.
Proof. apply Qred_identity. simpl. apply Z.gcd_1_r. Qed.

Lemma small_Z_exact (z : Z) :
  (Z.abs z <= 2 ^ 53)%Z -> round64 (inject_Z z) = Fin (inject_Z z).
Proof.
  intros H. rewrite round64_exact by (apply representable_Z; lia).
  now rewrite Qred_inject_Z.
Qed.

Lemma minutes_of_segment (m : jsstring) :
  digits m -> (digits_value m <= 59)%Z ->
  StringToNumber m = Fin (inject_Z (digits_value m)).
Proof.
  intros D H. rewrite (StringToNumber_unsigned m (digits_unsigned m D)).
  rewrite (round64_comp _ _ (unsigned_value_digits m D)).
  apply small_Z_exact. pose proof (digits_value_nonneg m).
  assert (59 < 2 ^ 53)%Z by reflexivity. lia.
Qed.

Lemma unsigned_finite_nonneg (s : jsstring) :
  isFinite (round64 (unsigned_value s)) = true ->
  0 <= value (round64 (unsigned_value s)).
Proof.
  intros F. apply (round64_sign _ F). apply unsigned_value_nonneg.
Qed.

(** From the range test of the code back to the exact value. *)
Lemma range_check_exact (x : Q) :
  0 <= x -> isFinite (round64 x) = true ->
  fge (round64 x) (of_Z 60) = false -> x < sixty_cut.
Proof.
  intros H0 F G. apply Qnot_le_lt. intros C.
  assert (V := round64_from_sixty x C F).
  apply (fge_finite _ 60 F) in V. unfold of_Z in G. change (inject_Z 60) with 60 in G.
  congruence.
Qed.

Lemma range_check_passes (x : Q) :
  0 <= x -> x < sixty_cut ->
  isFinite (round64 x) = true
  /\ flt (round64 x) (of_Z 0) = false /\ fge (round64 x) (of_Z 60) = false.
Proof.
  intros H0 H. destruct (round64_below_sixty x H0 H) as (q & -> & Q0 & Q60).
  split; [reflexivity|]. unfold of_Z, flt, fge. cbn [value].
  change (inject_Z 0) with 0. change (inject_Z 60) with 60. split.
  - destruct (Qcompare_spec q 0); try reflexivity. lra.
  - destruct (Qcompare_spec q 60); try reflexivity; lra.
Qed.

Lemma sixty_cut_lt : sixty_cut < 60.
Proof. reflexivity. Qed.

(** *** What the parser accepts *)

Lemma segments_eq (t : jsstring) (l : list jsstring) :
  split colon t = l -> segments t = List.map trim l.
Proof. now intros <-. Qed.

Lemma colon_body_accepts (h m : jsstring) (s : option jsstring) :
  signed digits h -> digits m -> (digits_value m <= 59)%Z ->
  match s with Some x => unsigned_decimal x | None => True end ->
  let H := digits_value (strip_sign h) in
  let S := match s with Some x => unsigned_value x | None => 0 end in
  inject_Z H < overflow_threshold -> S < sixty_cut ->
  colon_body h m s =
  Some (Math_round
    (fmul
      (fadd
        (fadd (fmul (round64 (inject_Z H)) (of_Z 3600000))
              (fmul (round64 (inject_Z (digits_value m))) (of_Z 60000)))
        (fmul (round64 S) (of_Z 1000)))
      (of_Z (if startsWith minus h then (-1)%Z else 1%Z)))).
Proof.
  intros Dh Dm Rm Ds H S HH HS. unfold colon_body.
  destruct (hours_of_segment h Dh) as [Eh Nh]. rewrite Eh, Nh. fold H.
  rewrite (digits_nonempty m Dm). cbn [orb].
  rewrite (proj2 (test_signed_digits_iff h) Dh).
  rewrite (proj2 (test_digits_iff m) Dm). cbn [negb].
  assert (T : match s with Some x => negb (test_decimal x) | None => false end = false).
  { destruct s as [x|]; [|reflexivity]. now rewrite (proj2 (test_decimal_iff x) Ds). }
  rewrite T.
  assert (Es : match s with Some x => StringToNumber x | None => of_Z 0 end = round64 S).
  { unfold S. destruct s as [x|]; [now apply StringToNumber_unsigned|reflexivity]. }
  rewrite Es.
  assert (S0 : 0 <= S).
  { unfold S. destruct s; [apply unsigned_value_nonneg|apply Qle_refl]. }
  destruct (range_check_passes S S0 HS) as (F1 & F2 & F3).
  rewrite F1, F2, F3.
  assert (FH : isFinite (round64 (inject_Z H)) = true).
  { apply round64_finite_iff. rewrite Qabs_pos; [exact HH|].
    change 0 with (inject_Z 0). apply inject_Z_le_iff, digits_value_nonneg. }
  rewrite FH. rewrite (minutes_of_segment m Dm Rm).
  assert (M0 := digits_value_nonneg m).
  rewrite (small_Z_exact (digits_value m))
    by (assert (59 < 2 ^ 53)%Z by reflexivity; lia).
  assert (M1 : flt (Fin (inject_Z (digits_value m))) (of_Z 0) = false).
  { unfold flt, of_Z. cbn [value].
    destruct (Qcompare_spec (inject_Z (digits_value m)) (inject_Z 0)) as [C|C|C];
      try reflexivity. rewrite <- Zlt_Qlt in C. lia. }
  assert (M2 : fge (Fin (inject_Z (digits_value m))) (of_Z 60) = false).
  { unfold fge, of_Z. cbn [value].
    destruct (Qcompare_spec (inject_Z (digits_value m)) (inject_Z 60)) as [C|C|C];
      try reflexivity.
    - unfold Qeq in C. simpl in C. lia.
    - rewrite <- Zlt_Qlt in C. lia. }
  rewrite M1, M2. cbn [isFinite negb orb].
  now destruct (startsWith minus h).
Qed.

Lemma colon_body_valid (h m : jsstring) (s : option jsstring) (r : number) :
  colon_body h m s = Some r ->
  signed digits h /\ digits m /\ (digits_value m <= 59)%Z
  /\ inject_Z (digits_value (strip_sign h)) < overflow_threshold
  /\ match s with
     | Some x => unsigned_decimal x /\ unsigned_value x < sixty_cut
     | None => True
     end.
Proof.
  unfold colon_body. cbv zeta.
  destruct (is_empty h || is_empty m); [discriminate|].
  destruct (test_signed_digits h) eqn:Th; [|discriminate].
  destruct (test_digits m) eqn:Tm; [|discriminate]. cbn [negb].
  apply test_signed_digits_iff in Th. apply test_digits_iff in Tm.
  destruct (match s with Some x => negb (test_decimal x) | None => false end) eqn:Ts;
    [discriminate|].
  destruct (isFinite (Math_abs (StringToNumber h))) eqn:Fh; [|discriminate].
  destruct (isFinite (StringToNumber m)) eqn:Fm; [|discriminate].
  set (sec := match s with Some x => StringToNumber x | None => of_Z 0 end).
  destruct (isFinite sec) eqn:Fs; [|discriminate]. cbn [negb orb].
  destruct (flt (StringToNumber m) (of_Z 0) || fge (StringToNumber m) (of_Z 60)) eqn:Rm;
    [discriminate|].
  destruct (flt sec (of_Z 0) || fge sec (of_Z 60)) eqn:Rs; [discriminate|].
  intros _. unfold sec in *. clear sec.
  apply orb_false_iff in Rm as [_ Rm]. apply orb_false_iff in Rs as [_ Rs].
  split; [exact Th|]. split; [exact Tm|]. split; [|split].
  - rewrite (StringToNumber_unsigned m (digits_unsigned m Tm)) in Fm, Rm.
    rewrite (round64_comp _ _ (unsigned_value_digits m Tm)) in Fm, Rm.
    assert (N := digits_value_nonneg m).
    assert (L : inject_Z (digits_value m) < sixty_cut).
    { apply range_check_exact; try assumption.
      change 0 with (inject_Z 0). now rewrite <- Zle_Qle. }
    assert (L' : inject_Z (digits_value m) < inject_Z 60).
    { change (inject_Z 60) with 60. assert (C := sixty_cut_lt). lra. }
    rewrite <- Zlt_Qlt in L'. lia.
  - destruct (hours_of_segment h Th) as [E _]. rewrite E in Fh.
    apply round64_finite_iff in Fh. rewrite Qabs_pos in Fh; [exact Fh|].
    change 0 with (inject_Z 0). rewrite <- Zle_Qle. apply digits_value_nonneg.
  - destruct s as [x|]; [|exact I].
    destruct (test_decimal x) eqn:Tx; [|discriminate].
    apply test_decimal_iff in Tx. split; [exact Tx|].
    rewrite (StringToNumber_unsigned x Tx) in Fs, Rs.
    apply range_check_exact; try assumption. apply unsigned_value_nonneg.
Qed.

Lemma colon_sound (t : jsstring) (r : number) :
  parseColonTimeToMs t = Some r -> accepted_clock t.
Proof.
  rewrite parseColonTimeToMs_eq.
  unfold accepted_clock, valid_clock, clock_hours, clock_seconds, segments.
  assert (C := sixty_cut_lt).
  destruct (split colon t) as [|h [|m [|s [|x l]]]]; try discriminate;
    cbn [List.map nth]; intros H; apply colon_body_valid in H.
  - destruct H as (A & B & D & E & _).
    split; [auto|]. split; [exact E|reflexivity].
  - destruct H as (A & B & D & E & F & G).
    split; [|split; assumption]. repeat (split; [assumption|]). lra.
Qed.

Lemma colon_rejects (t : jsstring) :
  ~ valid_clock t -> parseColonTimeToMs t = None.
Proof.
  intros N. destruct (parseColonTimeToMs t) as [r|] eqn:E; [|reflexivity].
  apply colon_sound in E. destruct E as [V _]. contradiction.
Qed.

Lemma colon_accepts (t : jsstring) :
  valid_clock t ->
  inject_Z (clock_hours t) < overflow_threshold ->
  clock_seconds t < sixty_cut ->
  parseColonTimeToMs t = Some (Math_round (clock_binary64 t)).
Proof.
  rewrite parseColonTimeToMs_eq.
  unfold valid_clock, clock_binary64, clock_sign, clock_hours, clock_minutes,
    clock_seconds, clock_negative, segments.
  destruct (split colon t) as [|h [|m [|s [|x l]]]]; cbn [List.map nth]; try tauto.
  - intros (Dh & Dm & Rm) HH HS.
    now rewrite (colon_body_accepts (trim h) (trim m) None Dh Dm Rm I HH HS).
  - intros (Dh & Dm & Rm & Ds & _) HH HS.
    now rewrite (colon_body_accepts (trim h) (trim m) (Some (trim s)) Dh Dm Rm Ds HH HS).
Qed.

(** *** Exact results *)

Lemma fadd_representable (a b : number) :
  isFinite a = true -> isFinite b = true -> isFinite (fadd a b) = true ->
  representable (value (fadd a b)).
Proof.
  intros Fa Fb. rewrite (fadd_finite a b Fa Fb).
  destruct a, b; try discriminate; try apply round64_representable.
  intros _. apply representable_0.
Qed.

Lemma round_half_up_near (x : Q) (n : Z) :
  inject_Z n - (1 # 2) <= x -> x < inject_Z n + (1 # 2) -> round_half_up x = n.
Proof.
  intros L U. unfold round_half_up.
  destruct (floor_bounds (x + (1 # 2))) as [F1 F2].
  set (f := Qfloor (x + (1 # 2))) in *.
  assert (A : inject_Z f < inject_Z (n + 1)) by (rewrite inject_Z_plus; change (inject_Z 1) with 1; lra).
  assert (B : inject_Z n < inject_Z (f + 1)) by (rewrite inject_Z_plus; change (inject_Z 1) with 1; lra).
  rewrite <- Zlt_Qlt in A, B. lia.
Qed.

Lemma millis_of_seconds (S : Q) :
  0 <= S -> S < sixty_cut ->
  exists p, fmul (round64 S) (of_Z 1000) = Fin p /\ 0 <= p
            /\ S * 1000 - pow2 (-37) <= p /\ p <= S * 1000 + pow2 (-37)
            /\ p < pow2 16.
Proof.
  intros S0 S60.
  destruct (round64_below_sixty S S0 S60) as (q & Eq & Q0 & Q60).
  assert (S6 : S < pow2 6) by (assert (sixty_cut < pow2 6) by reflexivity; lra).
  destruct (round64_err S 6 S0 S6 ltac:(lia)) as (q' & Eq' & E1 & E2 & _).
  rewrite Eq in Eq'. injection Eq' as <-. rewrite Eq.
  change (pow2 (6 - 54)) with (pow2 (-48)) in *.
  assert (K : 1000 * pow2 (-48) + pow2 (-38) < pow2 (-37)) by reflexivity.
  assert (K16 : 60000 + pow2 (-37) < pow2 16) by reflexivity.
  assert (P38 := pow2_pos (-38)). assert (P48 := pow2_pos (-48)).
  rewrite fmul_finite by reflexivity. cbn [is_zero value of_Z signbit].
  change (Qeq_bool (inject_Z 1000) 0) with false. rewrite orb_false_r.
  destruct (Qeq_bool q 0) eqn:Z.
  - apply Qeq_bool_iff in Z.
    assert (Sg : match Qcompare q 0 with Lt => true | _ => false end = false).
    { destruct (Qcompare_spec q 0); try reflexivity. lra. }
    rewrite Sg. cbn [xorb]. exists 0.
    assert (P37 := pow2_pos (-37)). assert (P16 := pow2_pos 16).
    split; [reflexivity|]. repeat split; lra.
  - change (inject_Z 1000) with 1000.
    assert (B : q * 1000 < pow2 16).
    { assert (60 * 1000 < pow2 16) by reflexivity. lra. }
    destruct (round64_err (q * 1000) 16 ltac:(lra) B ltac:(lia)) as (p & -> & E3 & E4 & P0).
    change (pow2 (16 - 54)) with (pow2 (-38)) in *.
    exists p. repeat split; lra.
Qed.

Lemma valid_clock_ranges (t : jsstring) :
  valid_clock t ->
  (0 <= clock_hours t)%Z /\ (0 <= clock_minutes t <= 59)%Z
  /\ 0 <= clock_seconds t /\ clock_seconds t < 60.
Proof.
  unfold valid_clock, clock_hours, clock_minutes, clock_seconds.
  destruct (segments t) as [|h [|m [|s [|x l]]]]; cbn [nth]; try tauto.
  - intros (_ & _ & R). repeat split; try apply digits_value_nonneg; try lra; exact R.
  - intros (_ & _ & R & _ & S). repeat split; try apply digits_value_nonneg;
      try apply unsigned_value_nonneg; assumption.
Qed.

Lemma representable_int (x : Q) (z : Z) :
  x == inject_Z z -> (Z.abs z <= 2 ^ 53)%Z -> representable x.
Proof.
  intros E H. apply representable_comp with (inject_Z z); [now symmetry|].
  now apply representable_Z.
Qed.

Lemma denotes_Fin (q : Q) : denotes (Fin q) q.
Proof. split; reflexivity. Qed.

Lemma colon_exact (t : jsstring) :
  valid_clock t -> (clock_hours t <= 2 ^ 30)%Z ->
  (exists n : Z, clock_seconds t * 1000 == inject_Z n) ->
  exists r, parseColonTimeToMs t = Some r /\ isFinite r = true
            /\ value r == clock_exact t.
Proof.
  intros V HH [n Hn].
  destruct (valid_clock_ranges t V) as (H0 & [M0 M59] & S0 & S60).
  assert (N0 : (0 <= n <= 59999)%Z).
  { assert (A : inject_Z (-1) < inject_Z n /\ inject_Z n < inject_Z 60000).
    { rewrite <- Hn. change (inject_Z (-1)) with (-1). change (inject_Z 60000) with 60000.
      split; lra. }
    destruct A as [A B]. rewrite <- Zlt_Qlt in A, B. lia. }
  assert (Sc : clock_seconds t < sixty_cut).
  { assert (B : inject_Z n <= inject_Z 59999) by (rewrite <- Zle_Qle; lia).
    change (inject_Z 59999) with 59999 in B.
    assert (C : 59999 < sixty_cut * 1000) by reflexivity. lra. }
  assert (T30 : (2 ^ 30 = 1073741824)%Z) by reflexivity.
  assert (T53 : (2 ^ 53 = 9007199254740992)%Z) by reflexivity.
  assert (Ht : inject_Z (clock_hours t) < overflow_threshold).
  { apply Qle_lt_trans with (inject_Z (2 ^ 30)); [|reflexivity].
    rewrite <- Zle_Qle. lia. }
  rewrite (colon_accepts t V Ht Sc). eexists. split; [reflexivity|].
  unfold clock_binary64, clock_exact.
  set (H := clock_hours t) in *. set (M := clock_minutes t) in *.
  set (S := clock_seconds t) in *. set (sg := clock_sign t).
  assert (Sg : sg = 1%Z \/ sg = (-1)%Z) by (unfold sg, clock_sign; destruct (clock_negative t); auto).
  rewrite (small_Z_exact H) by lia. rewrite (small_Z_exact M) by lia.
  (* the whole milliseconds of hours and minutes *)
  assert (D1 : denotes (fmul (Fin (inject_Z H)) (of_Z 3600000)) (inject_Z H * inject_Z 3600000)).
  { apply denotes_fmul; [apply denotes_Fin|apply denotes_of_Z|].
    apply representable_int with (H * 3600000)%Z; [now rewrite inject_Z_mult|lia]. }
  assert (D2 : denotes (fmul (Fin (inject_Z M)) (of_Z 60000)) (inject_Z M * inject_Z 60000)).
  { apply denotes_fmul; [apply denotes_Fin|apply denotes_of_Z|].
    apply representable_int with (M * 60000)%Z; [now rewrite inject_Z_mult|lia]. }
  assert (D3 := denotes_fadd _ _ _ _ D1 D2).
  set (A := fadd _ _) in *.
  assert (Ea : inject_Z H * inject_Z 3600000 + inject_Z M * inject_Z 60000
               == inject_Z (H * 3600000 + M * 60000)).
  { now rewrite inject_Z_plus, !inject_Z_mult. }
  specialize (D3 ltac:(apply representable_int with (H * 3600000 + M * 60000)%Z; [exact Ea|lia])).
  destruct D3 as [Fa Va]. rewrite Ea in Va.
  set (a := (H * 3600000 + M * 60000)%Z) in *.
  assert (A0 : (0 <= a <= 3865470569940000)%Z) by (unfold a; lia).
  (* the milliseconds of the seconds *)
  destruct (millis_of_seconds S S0 Sc) as (p & -> & P0 & P1 & P2 & P16).
  rewrite Hn in P1, P2.
  (* their sum *)
  assert (Et : fadd A (Fin p) = round64 (value A + p)).
  { rewrite (fadd_finite A (Fin p) Fa eq_refl). now destruct A. }
  assert (B52 : value A + p < pow2 52).
  { rewrite Va. assert (inject_Z a <= inject_Z 3865470569940000) by (rewrite <- Zle_Qle; lia).
    assert (inject_Z 3865470569940000 + pow2 16 < pow2 52) by reflexivity. lra. }
  assert (Pa : 0 <= inject_Z a) by (change 0 with (inject_Z 0); rewrite <- Zle_Qle; lia).
  destruct (round64_err (value A + p) 52 ltac:(lra) B52 ltac:(lia))
    as (tau & Etau & T1 & T2 & T0).
  change (pow2 (52 - 54)) with (1 # 4) in T1, T2.
  assert (Rt : representable tau).
  { change tau with (value (Fin tau)). rewrite <- Etau.
    apply round64_representable. now rewrite Etau. }
  rewrite Et, Etau.
  assert (K37 : pow2 (-37) < 1 # 8) by reflexivity.
  (* the sign *)
  assert (Dr : denotes (fmul (Fin tau) (of_Z sg)) (tau * inject_Z sg)).
  { apply denotes_fmul; [apply denotes_Fin|apply denotes_of_Z|].
    destruct Sg as [-> | ->].
    - apply representable_comp with tau; [change (inject_Z 1) with 1; ring|exact Rt].
    - apply representable_comp with (- tau); [change (inject_Z (-1)) with (-1); ring|].
      now apply representable_opp. }
  destruct (denotes_Math_round _ _ Dr) as [Fr Vr].
  split; [exact Fr|]. rewrite Vr.
  assert (Rh : round_half_up (tau * inject_Z sg) = (sg * (a + n))%Z).
  { apply round_half_up_near; destruct Sg as [-> | ->];
      rewrite inject_Z_mult, inject_Z_plus;
      change (inject_Z 1) with 1; change (inject_Z (-1)) with (-1); lra. }
  rewrite Rh, inject_Z_mult, inject_Z_plus. unfold a.
  rewrite inject_Z_plus, !inject_Z_mult, <- Hn.
  change (inject_Z 3600000) with 3600000. change (inject_Z 60000) with 60000. ring.
Qed.

(** *** The token pattern *)

Lemma number_prefix_inv (s num rest : jsstring) :
  number_prefix s = Some (num, rest) ->
  s = num ++ rest /\ signed unsigned_decimal num.
Proof.
  unfold number_prefix.
  destruct (opt_sign_cases s) as [[E _]|(c & r & -> & Sc & E)]; rewrite E.
  - destruct (digits1 s) as [[ds s2]|] eqn:D; [|discriminate].
    apply digits1_inv in D as (-> & Dd & _).
    destruct (opt_fraction_cases s2) as [(f & r & -> & Df & _ & F)|F]; rewrite F;
      intros H; injection H as <- <-; cbn [app].
    + split; [now rewrite <- app_assoc|]. left. right. exists ds, f. auto.
    + rewrite app_nil_r. split; [reflexivity|]. left. now left.
  - destruct (digits1 r) as [[ds s2]|] eqn:D; [|discriminate].
    apply digits1_inv in D as (-> & Dd & _).
    destruct (opt_fraction_cases s2) as [(f & r' & -> & Df & _ & F)|F]; rewrite F;
      intros H; injection H as <- <-; cbn [app].
    + split; [now rewrite <- app_assoc|]. right. exists c, (ds ++ dot :: f).
      repeat split; auto. right. exists ds, f. auto.
    + rewrite app_nil_r. split; [reflexivity|]. right. exists c, ds.
      repeat split; auto. now left.
Qed.

Lemma TOKEN_REG_EX_inv (s rest : jsstring) (t : token) :
  TOKEN_REG_EX s = Some (t, rest) ->
  signed unsigned_decimal (tok_number t)
  /\ tok_unit t <> [] /\ forallb is_alpha (tok_unit t) = true
  /\ exists ws, s = tok_number t ++ ws ++ tok_unit t ++ rest
                /\ forallb is_space ws = true.
Proof.
  rewrite TOKEN_REG_EX_greedy. unfold greedy_token.
  destruct (number_prefix s) as [[num s1]|] eqn:N; [|discriminate].
  apply number_prefix_inv in N as (-> & Sn).
  destruct (span_spec is_space s1) as (E1 & F1 & _).
  destruct (span is_space s1) as [ws s2]. cbn [fst snd] in *.
  destruct (span_spec is_alpha s2) as (E2 & F2 & _).
  destruct (span is_alpha s2) as [u s3]. cbn [fst snd] in *.
  destruct u as [|c u]; [discriminate|].
  intros H. injection H as <- <-. cbn [tok_number tok_unit].
  repeat split; auto; [discriminate|].
  exists ws. split; [|exact F1]. now rewrite E1, E2.
Qed.

Lemma TOKEN_REG_EX_shorter (s rest : jsstring) (t : token) :
  TOKEN_REG_EX s = Some (t, rest) -> (length rest < length s)%nat.
Proof.
  intros H. apply TOKEN_REG_EX_inv in H as (_ & N & _ & ws & -> & _).
  rewrite !length_app. destruct (tok_unit t); [congruence|]. simpl. lia.
Qed.

(** *** The global scan *)

Lemma scan_from_enough (n : nat) (s : jsstring) :
  (length s <= n)%nat -> scan_from n s = scan_from (length s) s.
Proof.
  revert s. induction n as [n IH] using lt_wf_ind. intros s L.
  destruct s as [|c r]; [now destruct n|].
  destruct n as [|n]; [simpl in L; lia|].
  cbn [scan_from length].
  destruct (TOKEN_REG_EX (c :: r)) as [[t rest]|] eqn:T.
  - apply TOKEN_REG_EX_shorter in T. simpl in T, L.
    f_equal. rewrite (IH n) by lia. symmetry. apply IH; lia.
  - simpl in L. f_equal. rewrite (IH n) by lia. reflexivity.
Qed.

Lemma scan_nil : scan [] = [].
Proof. reflexivity. Qed.

Lemma scan_cons (c : char) (r : jsstring) :
  scan (c :: r) =
  match TOKEN_REG_EX (c :: r) with
  | Some (t, rest) => Matched t :: scan rest
  | None => Skipped c :: scan r
  end.
Proof.
  unfold scan. cbn [scan_from length].
  destruct (TOKEN_REG_EX (c :: r)) as [[t rest]|] eqn:T; [|reflexivity].
  apply TOKEN_REG_EX_shorter in T. simpl in T.
  f_equal. apply scan_from_enough. lia.
Qed.

Lemma scan_matched (s : jsstring) (t : token) :
  In (Matched t) (scan s) ->
  exists s' rest, TOKEN_REG_EX s' = Some (t, rest)
                  /\ (length s' <= length s)%nat.
Proof.
  remember (length s) as n eqn:Hn. revert s Hn.
  induction n as [n IH] using lt_wf_ind. intros s Hn.
  destruct s as [|c r]; [contradiction|]. rewrite scan_cons.
  destruct (TOKEN_REG_EX (c :: r)) as [[t' rest]|] eqn:T.
  - intros [E|I].
    + injection E as ->. exists (c :: r), rest. split; [exact T|]. lia.
    + assert (S := TOKEN_REG_EX_shorter _ _ _ T).
      destruct (IH (length rest) ltac:(lia) rest eq_refl I) as (s' & rest' & T' & L).
      exists s', rest'. split; [exact T'|]. lia.
  - intros [E|I]; [discriminate|].
    simpl in Hn.
    destruct (IH (length r) ltac:(lia) r eq_refl I) as (s' & rest' & T' & L).
    exists s', rest'. split; [exact T'|]. simpl. lia.
Qed.

Lemma matchAll_In (s : jsstring) (t : token) :
  In t (matchAll s) <-> In (Matched t) (scan s).
Proof.
  unfold matchAll. rewrite in_flat_map. split.
  - intros ([c|t'] & I & H); simpl in H; [contradiction|].
    destruct H as [->|[]]. exact I.
  - intros I. exists (Matched t). split; [exact I|now left].
Qed.

Lemma matchAll_token (s : jsstring) (t : token) :
  In t (matchAll s) ->
  signed unsigned_decimal (tok_number t)
  /\ tok_unit t <> [] /\ forallb is_alpha (tok_unit t) = true
  /\ (length (tok_number t) <= length s)%nat.
Proof.
  intros I. apply matchAll_In, scan_matched in I as (s' & rest & T & L).
  apply TOKEN_REG_EX_inv in T as (A & B & C & ws & -> & _).
  repeat split; auto. rewrite length_app in L. lia.
Qed.

(** *** The unit table *)

Lemma canonical_lookup (k : jsstring) :
  In k canonical_units ->
  UNIT_MS_get k = NumberV (of_Z (multiplier k)) /\ (0 < multiplier k)%Z.
Proof.
  unfold canonical_units. cbn [List.map]. intros H.
  repeat (destruct H as [<-|H]; [split; reflexivity|]). contradiction.
Qed.

Lemma assoc_In (k : jsstring) (l : list (jsstring * number)) (v : number) :
  assoc k l = Some v -> In k (List.map fst l).
Proof.
  induction l as [|[k' v'] l IH]; simpl; [discriminate|].
  destruct (Str.eqb k k') eqn:E.
  - apply eqb_eq in E. auto.
  - auto.
Qed.

Lemma In_existsb (k : jsstring) (l : list jsstring) :
  In k l <-> existsb (Str.eqb k) l = true.
Proof.
  rewrite existsb_exists. split.
  - intros H. exists k. split; [exact H|apply eqb_refl].
  - intros (x & H & E). apply eqb_eq in E. now subst.
Qed.

Lemma own_keys_canonical (k : jsstring) :
  In k (List.map fst UNIT_MS) -> In k canonical_units.
Proof.
  unfold UNIT_MS. cbn [List.map fst]. intros H.
  repeat (destruct H as [<-|H]; [apply In_existsb; reflexivity|]). contradiction.
Qed.

Lemma isDurationUnit_iff (v : jsstring) :
  isDurationUnit v = true <-> In v canonical_units.
Proof. unfold isDurationUnit. symmetry. apply In_existsb. Qed.

(** The canonical spellings are the own keys of [UNIT_MS]. *)
Lemma own_key_iff (v : jsstring) :
  In v (List.map fst UNIT_MS) <-> In v canonical_units.
Proof.
  split; [apply own_keys_canonical|].
  unfold canonical_units. cbn [List.map]. intros H.
  repeat (destruct H as [<-|H]; [apply In_existsb; reflexivity|]). contradiction.
Qed.

Lemma lower_alpha (c : char) : is_alpha c = true -> is_lower (lower c) = true.
Proof.
  unfold is_alpha, is_lower, lower. intros H.
  destruct ((65 <=? c)%N && (c <=? 90)%N) eqn:U.
  - apply andb_true_iff in U as [A B]. apply N.leb_le in A, B.
    apply andb_true_iff. split; apply N.leb_le; lia.
  - rewrite orb_false_l in H. exact H.
Qed.

Lemma toLowerCase_lower (u : jsstring) :
  forallb is_alpha u = true -> forallb is_lower (toLowerCase u) = true.
Proof.
  induction u as [|c u IH]; simpl; [reflexivity|].
  intros H. apply andb_true_iff in H as [A B].
  now rewrite (lower_alpha c A), IH.
Qed.

Lemma inherited_lower (k : jsstring) :
  forallb is_lower k = true -> k <> str "constructor" ->
  inherited k Object_prototype = Undefined.
Proof.
  intros L N. unfold Object_prototype. cbn [inherited].
  repeat match goal with
         | |- context [Str.eqb k ?n] =>
             let E := fresh "E" in
             destruct (Str.eqb k n) eqn:E;
             [apply eqb_eq in E; subst k; first [contradiction | discriminate]|]
         end.
  reflexivity.
Qed.

Lemma unknown_lookup (u : jsstring) :
  forallb is_alpha u = true ->
  ~ In (toLowerCase u) canonical_units ->
  toLowerCase u <> str "constructor" ->
  UNIT_MS_get (toLowerCase u) = Undefined.
Proof.
  intros A N C. unfold UNIT_MS_get.
  destruct (assoc (toLowerCase u) UNIT_MS) as [n|] eqn:E.
  - exfalso. apply N. now apply own_keys_canonical, assoc_In with n.
  - apply inherited_lower; [now apply toLowerCase_lower|exact C].
Qed.

(** *** Reading a numeric text *)

Lemma text_value_unsigned (s : jsstring) :
  unsigned_decimal s -> text_value s = unsigned_value s.
Proof.
  intros U. assert (E := unsigned_decimal_no_sign s U).
  destruct s as [|c r]; [reflexivity|]. simpl in E.
  destruct (is_sign c) eqn:S; [discriminate|].
  unfold is_sign in S. apply orb_false_iff in S as [S1 S2].
  unfold text_value. now rewrite S1, S2.
Qed.

Lemma text_value_signed (c : char) (r : jsstring) :
  is_sign c = true ->
  text_value (c :: r)
  = if (c =? minus)%N then - unsigned_value r else unsigned_value r.
Proof.
  unfold is_sign, text_value. intros S.
  destruct (c =? minus)%N; [reflexivity|]. rewrite orb_false_r in S. now rewrite S.
Qed.

Lemma round64_opp (x : Q) :
  0 <= x ->
  isFinite (round64 (- x)) = isFinite (round64 x)
  /\ value (round64 (- x)) == - value (round64 x).
Proof.
  intros H. destruct (Qle_lt_or_eq _ _ H) as [P|Z].
  - rewrite (round64_neg (- x)) by lra.
    rewrite (round_pos_comp (- - x) x) by (try lra; ring).
    rewrite (round64_pos x P), isFinite_fneg. split; [reflexivity|apply value_fneg].
  - rewrite (round64_zero x (Qeq_sym _ _ Z)).
    rewrite (round64_zero (- x)) by (rewrite <- Z; ring).
    split; reflexivity.
Qed.

Lemma StringToNumber_reads (s : jsstring) :
  signed unsigned_decimal s ->
  isFinite (StringToNumber s) = isFinite (round64 (text_value s))
  /\ value (StringToNumber s) == value (round64 (text_value s)).
Proof.
  intros [U|(c & r & -> & Sc & U)].
  - rewrite (StringToNumber_unsigned s U), (text_value_unsigned s U).
    split; reflexivity.
  - rewrite (StringToNumber_signed c r Sc U), (text_value_signed c r Sc).
    destruct (c =? minus)%N; [|split; reflexivity].
    destruct (round64_opp (unsigned_value r) (unsigned_value_nonneg r)) as [F V].
    rewrite F, V, isFinite_fneg. split; [reflexivity|apply value_fneg].
Qed.

Lemma StringToNumber_finite (s : jsstring) :
  signed unsigned_decimal s ->
  (isFinite (StringToNumber s) = true <-> finite_text s).
Proof.
  intros S. destruct (StringToNumber_reads s S) as [F _]. rewrite F.
  apply round64_finite_iff.
Qed.

Lemma StringToNumber_denotes (s : jsstring) :
  signed unsigned_decimal s -> representable (text_value s) ->
  denotes (StringToNumber s) (text_value s).
Proof.
  intros S R. destruct (StringToNumber_reads s S) as [F V].
  destruct (denotes_round64 _ R) as [F' V'].
  split; [now rewrite F|now rewrite V].
Qed.

(** *** The accumulation loop *)

Lemma token_step_ok (raw : jsstring) (total : number) (t : token) :
  isFinite (StringToNumber (tok_number t)) = true -> canonical_token t ->
  token_step raw total t = inr (fadd total (token_term t)).
Proof.
  intros F C. unfold token_step, token_term, token_factor. rewrite F. cbn [negb].
  destruct (canonical_lookup _ C) as [-> P]. cbn [falsy ToNumber of_Z is_zero].
  assert (Z : Qeq_bool (inject_Z (multiplier (toLowerCase (tok_unit t)))) 0 = false).
  { destruct (Qeq_bool _ 0) eqn:E; [|reflexivity].
    apply Qeq_bool_iff in E. unfold Qeq in E. simpl in E. lia. }
  now rewrite Z.
Qed.

Lemma token_step_unknown (raw : jsstring) (total : number) (t : token) :
  isFinite (StringToNumber (tok_number t)) = true ->
  UNIT_MS_get (toLowerCase (tok_unit t)) = Undefined ->
  token_step raw total t = inl (UnknownUnit (tok_unit t) raw).
Proof.
  intros F U. unfold token_step. rewrite F, U. reflexivity.
Qed.

Lemma token_step_infinite (raw : jsstring) (total : number) (t : token) :
  isFinite (StringToNumber (tok_number t)) = false ->
  token_step raw total t = inl (InvalidNumberIn (tok_number t) raw).
Proof. intros F. unfold token_step. now rewrite F. Qed.

Lemma token_loop_ok (raw : jsstring) (ts : list token) (total : number) :
  (forall t, In t ts ->
     isFinite (StringToNumber (tok_number t)) = true /\ canonical_token t) ->
  token_loop raw total ts
  = inr (fold_left (fun acc t => fadd acc (token_term t)) ts total).
Proof.
  revert total. induction ts as [|t ts IH]; intros total H; [reflexivity|].
  cbn [token_loop fold_left].
  destruct (H t (or_introl eq_refl)) as [F C].
  rewrite (token_step_ok raw total t F C). apply IH.
  intros t' I. apply H. now right.
Qed.

Lemma token_loop_app (raw : jsstring) (pre post : list token) (total : number) :
  token_loop raw total (pre ++ post)
  = match token_loop raw total pre with
    | inl e => inl e
    | inr total' => token_loop raw total' post
    end.
Proof.
  revert total. induction pre as [|t pre IH]; intros total; [reflexivity|].
  cbn [app token_loop]. destruct (token_step raw total t); [reflexivity|apply IH].
Qed.

Lemma token_loop_invalid (raw : jsstring) (ts : list token) (total : number) (e : error) :
  token_loop raw total ts = inl e -> is_invalid_number e = true ->
  exists t, In t ts /\ isFinite (StringToNumber (tok_number t)) = false.
Proof.
  revert total. induction ts as [|t ts IH]; intros total; [discriminate|].
  cbn [token_loop]. destruct (token_step raw total t) as [e'|total'] eqn:S.
  - intros H I. injection H as ->. exists t. split; [now left|].
    unfold token_step in S.
    destruct (isFinite (StringToNumber (tok_number t))); [|reflexivity].
    cbn [negb] in S. destruct (falsy _); [|discriminate].
    injection S as <-. discriminate.
  - intros H I. destruct (IH total' H I) as (t' & In' & F).
    exists t'. split; [now right|exact F].
Qed.

(** *** Exact sums *)

Lemma tokens_exact_fold (ts : list token) (acc : Q) (total : number) :
  (forall t, In t ts -> signed unsigned_decimal (tok_number t)) ->
  denotes total acc -> exact_steps acc ts ->
  denotes (fold_left (fun a t => fadd a (token_term t)) ts total)
          (fold_left (fun a t => a + token_exact t) ts acc).
Proof.
  revert acc total. induction ts as [|t ts IH]; intros acc total S D E; [exact D|].
  cbn [fold_left]. destruct E as (R1 & R2 & R3 & E).
  apply IH; [intros t' I; apply S; now right| |exact E].
  apply denotes_fadd; [exact D| |exact R3].
  unfold token_term, token_exact. apply denotes_fmul; [|apply denotes_of_Z|exact R2].
  apply StringToNumber_denotes; [apply S; now left|exact R1].
Qed.

(** *** Classes of the dispatcher *)

Lemma split_includes (c : char) (s : jsstring) :
  (2 <= length (split c s))%nat -> includes c s = true.
Proof.
  induction s as [|x s IH]; simpl; [lia|].
  destruct (N.eqb_spec x c) as [->|N].
  - rewrite N.eqb_refl. reflexivity.
  - intros L. rewrite (proj2 (N.eqb_neq c x)) by congruence. simpl.
    apply IH. destruct (split c s); simpl in *; lia.
Qed.

Lemma valid_clock_colon (t : jsstring) : valid_clock t -> includes colon t = true.
Proof.
  unfold valid_clock, segments. intros V. apply split_includes.
  destruct (split colon t) as [|h [|m l]]; simpl in *; try contradiction; lia.
Qed.

Lemma classify_colon (raw : jsstring) :
  includes colon (trim raw) = true -> classify raw = ColonForm.
Proof.
  unfold classify. intros H. rewrite H.
  destruct (trim raw); [discriminate|reflexivity].
Qed.

Lemma digits_chars (s : jsstring) : digits s -> forallb decimal_char s = true.
Proof.
  intros [_ F]. rewrite forallb_forall in *. intros c I.
  unfold decimal_char. rewrite (F c I). now rewrite orb_true_r.
Qed.

Lemma unsigned_decimal_chars (s : jsstring) :
  unsigned_decimal s -> forallb decimal_char s = true.
Proof.
  intros [D|(i & f & -> & Di & Df)]; [now apply digits_chars|].
  rewrite forallb_app. cbn [forallb].
  now rewrite (digits_chars i Di), (digits_chars f Df).
Qed.

Lemma signed_decimal_chars (s : jsstring) :
  signed unsigned_decimal s -> forallb decimal_char s = true.
Proof.
  intros [U|(c & r & -> & Sc & U)]; [now apply unsigned_decimal_chars|].
  cbn [forallb]. rewrite (unsigned_decimal_chars r U).
  unfold decimal_char. now rewrite Sc.
Qed.

Lemma decimal_no_colon (s : jsstring) :
  forallb decimal_char s = true -> includes colon s = false.
Proof.
  unfold includes. induction s as [|c s IH]; cbn [existsb forallb]; [reflexivity|].
  intros H. apply andb_true_iff in H as [Hc H]. rewrite (IH H), orb_false_r.
  apply N.eqb_neq. intros <-. discriminate.
Qed.

Lemma signed_decimal_nonempty (s : jsstring) :
  signed unsigned_decimal s -> is_empty s = false.
Proof.
  intros [[D|(i & f & -> & Di & Df)]|(c & r & -> & _)]; try reflexivity.
  - now apply digits_nonempty.
  - destruct (digits_cons i Di) as (c & r & -> & _). reflexivity.
Qed.

Lemma classify_unitless (raw : jsstring) :
  signed unsigned_decimal (trim raw) -> classify raw = Unitless.
Proof.
  intros S. unfold classify.
  rewrite (signed_decimal_nonempty _ S).
  rewrite (decimal_no_colon _ (signed_decimal_chars _ S)).
  now rewrite (proj2 (test_signed_decimal_iff _) S).
Qed.

Lemma classify_Unitless_inv (raw : jsstring) :
  classify raw = Unitless -> signed unsigned_decimal (trim raw).
Proof.
  unfold classify. destruct (is_empty (trim raw)); [discriminate|].
  destruct (includes colon (trim raw)); [discriminate|].
  destruct (test_signed_decimal (trim raw)) eqn:T; [|discriminate].
  intros _. now apply test_signed_decimal_iff.
Qed.

(** *** Lengths *)

Lemma drop_while_length (p : char -> bool) (s : jsstring) :
  (length (drop_while p s) <= length s)%nat.
Proof.
  induction s as [|c s IH]; simpl; [lia|]. destruct (p c); simpl; lia.
Qed.

Lemma trim_length (s : jsstring) : (length (trim s) <= length s)%nat.
Proof.
  unfold trim. rewrite length_rev.
  etransitivity; [apply drop_while_length|]. rewrite length_rev.
  apply drop_while_length.
Qed.

Lemma pow10_pos (n : nat) : 0 < inject_Z (10 ^ Z.of_nat n).
Proof.
  change 0 with (inject_Z 0). rewrite <- Zlt_Qlt. apply Z.pow_pos_nonneg; lia.
Qed.

Lemma pow10_le (n m : nat) :
  (n <= m)%nat -> inject_Z (10 ^ Z.of_nat n) <= inject_Z (10 ^ Z.of_nat m).
Proof.
  intros H. rewrite <- Zle_Qle. apply Z.pow_le_mono_r; lia.
Qed.

Lemma decimal_value_lt (i f : jsstring) :
  forallb is_digit i = true -> forallb is_digit f = true ->
  decimal_value i f < inject_Z (10 ^ Z.of_nat (length i)).
Proof.
  intros Fi Ff. unfold decimal_value.
  apply Qlt_shift_div_r; [apply pow10_pos|].
  rewrite <- inject_Z_mult, <- Zlt_Qlt, <- Z.pow_add_r by lia.
  assert (F : forallb is_digit (i ++ f) = true) by (rewrite forallb_app; now rewrite Fi, Ff).
  generalize (digits_value_bounds (i ++ f) F). rewrite length_app, Nat2Z.inj_add. lia.
Qed.

Lemma unsigned_value_lt (s : jsstring) :
  unsigned_decimal s -> unsigned_value s < inject_Z (10 ^ Z.of_nat (length s)).
Proof.
  intros [D|(i & f & -> & Di & Df)].
  - rewrite (unsigned_value_digits s D). rewrite <- Zlt_Qlt.
    destruct D as [_ F]. apply (digits_value_bounds s F).
  - rewrite (unsigned_value_frac i f Di).
    apply Qlt_le_trans with (1 := decimal_value_lt i f (proj2 Di) (proj2 Df)).
    apply pow10_le. rewrite length_app. lia.
Qed.

Lemma text_value_lt (s : jsstring) :
  signed unsigned_decimal s ->
  Qabs (text_value s) < inject_Z (10 ^ Z.of_nat (length s)).
Proof.
  intros [U|(c & r & -> & Sc & U)].
  - rewrite (text_value_unsigned s U), Qabs_pos by apply unsigned_value_nonneg.
    now apply unsigned_value_lt.
  - assert (A : Qabs (text_value (c :: r)) == unsigned_value r).
    { rewrite (text_value_signed c r Sc). destruct (c =? minus)%N.
      - rewrite Qabs_opp. apply Qabs_pos, unsigned_value_nonneg.
      - apply Qabs_pos, unsigned_value_nonneg. }
    rewrite A. apply Qlt_le_trans with (1 := unsigned_value_lt r U).
    apply pow10_le. simpl. lia.
Qed.

Lemma overflow_needs_length (s : jsstring) :
  signed unsigned_decimal s -> overflow_threshold <= Qabs (text_value s) ->
  (309 <= length s)%nat.
Proof.
  intros S H. destruct (le_lt_dec 309 (length s)) as [L|L]; [exact L|exfalso].
  assert (A := text_value_lt s S).
  assert (B : inject_Z (10 ^ Z.of_nat (length s)) <= inject_Z (10 ^ Z.of_nat 308))
    by (apply pow10_le; lia).
  assert (C : inject_Z (10 ^ Z.of_nat 308) < overflow_threshold) by reflexivity.
  lra.
Qed.

Lemma round_half_up_Z (z : Z) : round_half_up (inject_Z z) = z.
Proof.
  apply round_half_up_near; generalize (inject_Z z); intros q; lra.
Qed.

Lemma Math_round_nearest (a : number) :
  isFinite a = true ->
  exists n : Z,
    isFinite (Math_round a) = true /\ value (Math_round a) == inject_Z n
    /\ inject_Z n - (1 # 2) <= value a /\ value a < inject_Z n + (1 # 2).
Proof.
  intros F. destruct (Math_round_value a F) as [F' V].
  exists (round_half_up (value a)). repeat split; try assumption.
  - unfold round_half_up. destruct (floor_bounds (value a + (1 # 2))). lra.
  - unfold round_half_up. destruct (floor_bounds (value a + (1 # 2))). lra.
Qed.

(** *** Short decimals *)

Lemma inject_Z_sub (a b : Z) : inject_Z (a - b) == inject_Z a - inject_Z b.
Proof. unfold Z.sub. now rewrite inject_Z_plus, inject_Z_opp. Qed.

Lemma same_side_round (x q : Q) :
  same_side x q ->
  round_half_up q = round_half_up x /\ round_half_up (- q) = round_half_up (- x).
Proof.
  intros H. split.
  - apply round_half_up_near.
    + destruct (H (round_half_up x - 1)%Z) as [[A _] _].
      unfold round_half_up in *. destruct (floor_bounds (x + (1 # 2))) as [F1 F2].
      rewrite inject_Z_sub in A. change (inject_Z 1) with 1 in A.
      assert (G := A ltac:(lra)). lra.
    + destruct (H (round_half_up x)) as [[_ A] _].
      unfold round_half_up in *. destruct (floor_bounds (x + (1 # 2))) as [F1 F2].
      apply Qnot_le_lt. intros C. apply A in C. lra.
  - apply round_half_up_near.
    + destruct (H (- round_half_up (- x))%Z) as [_ [A _]].
      unfold round_half_up in *. destruct (floor_bounds (- x + (1 # 2))) as [F1 F2].
      rewrite inject_Z_opp in A. assert (G := A ltac:(lra)). lra.
    + destruct (H (- round_half_up (- x) - 1)%Z) as [_ [_ A]].
      unfold round_half_up in *. destruct (floor_bounds (- x + (1 # 2))) as [F1 F2].
      rewrite inject_Z_sub, inject_Z_opp in A. change (inject_Z 1) with 1 in A.
      apply Qnot_le_lt. intros C. assert (G := A ltac:(lra)). lra.
Qed.

Lemma half_integer_gap (n m : Z) (D : Z) :
  (0 < D)%Z ->
  let x := inject_Z n / inject_Z D in
  let h := inject_Z m + (1 # 2) in
  x == h \/ h + 1 / (2 * inject_Z D) <= x \/ x <= h - 1 / (2 * inject_Z D).
Proof.
  intros HD x h.
  assert (PD : 0 < inject_Z D) by (change 0 with (inject_Z 0); now rewrite <- Zlt_Qlt).
  set (N := (2 * n - (2 * m + 1) * D)%Z).
  assert (E : x - h == inject_Z N / (2 * inject_Z D)).
  { unfold x, h, N. rewrite inject_Z_sub, !inject_Z_mult, inject_Z_plus, inject_Z_mult.
    change (inject_Z 2) with 2. change (inject_Z 1) with 1. field. lra. }
  assert (P2 : 0 < 2 * inject_Z D) by lra.
  destruct (Z.lt_trichotomy N 0) as [L|[Z|G]].
  - right. right.
    assert (A : inject_Z N <= inject_Z (-1)) by (rewrite <- Zle_Qle; lia).
    change (inject_Z (-1)) with (-1) in A.
    assert (B : inject_Z N / (2 * inject_Z D) <= - 1 / (2 * inject_Z D)).
    { apply Qle_shift_div_l; [exact P2|].
      setoid_replace (inject_Z N / (2 * inject_Z D) * (2 * inject_Z D)) with (inject_Z N)
        by (field; lra). exact A. }
    setoid_replace (- 1 / (2 * inject_Z D)) with (- (1 / (2 * inject_Z D))) in B
      by (field; lra). lra.
  - left. rewrite Z in E. setoid_replace (inject_Z 0 / (2 * inject_Z D)) with 0 in E
      by (field; lra). lra.
  - right. left.
    assert (A : inject_Z 1 <= inject_Z N) by (rewrite <- Zle_Qle; lia).
    change (inject_Z 1) with 1 in A.
    assert (B : 1 / (2 * inject_Z D) <= inject_Z N / (2 * inject_Z D)).
    { apply Qle_shift_div_l; [exact P2|].
      setoid_replace (1 / (2 * inject_Z D) * (2 * inject_Z D)) with 1 by (field; lra).
      exact A. }
    lra.
Qed.

Lemma half_integer_sides (m : Z) (y : Q) :
  0 <= y -> y < 1 # 2 ->
  (inject_Z m + (1 # 2) <= y <-> (m < 0)%Z)
  /\ (y <= inject_Z m + (1 # 2) <-> (0 <= m)%Z).
Proof.
  intros Y0 Y1. destruct (Z.lt_ge_cases m 0) as [L|G].
  - assert (A : inject_Z m <= inject_Z (-1)) by (rewrite <- Zle_Qle; lia).
    change (inject_Z (-1)) with (-1) in A.
    split; split; intros; try lia; lra.
  - assert (A : inject_Z 0 <= inject_Z m) by (rewrite <- Zle_Qle; lia).
    change (inject_Z 0) with 0 in A.
    split; split; intros; try lia; lra.
Qed.

Lemma short_decimal_same_side (n D : Z) :
  (0 <= n < 2 ^ 52)%Z -> (0 < D)%Z ->
  let x := inject_Z n / inject_Z D in
  exists q, round64 x = Fin q /\ same_side x q.
Proof.
  intros Hn HD x.
  assert (PD : 1 <= inject_Z D) by (change 1 with (inject_Z 1); rewrite <- Zle_Qle; lia).
  assert (N0 : 0 <= inject_Z n) by (change 0 with (inject_Z 0); rewrite <- Zle_Qle; lia).
  assert (N52 : inject_Z n < pow2 52)
    by (change (pow2 52) with (inject_Z (2 ^ 52)); rewrite <- Zlt_Qlt; lia).
  assert (X0 : 0 <= x) by (apply Qle_shift_div_l; lra).
  assert (Xn : x <= inject_Z n).
  { apply Qle_shift_div_r; [lra|].
    setoid_replace (inject_Z n) with (1 * inject_Z n) at 1 by ring.
    rewrite (Qmult_comm (inject_Z n) (inject_Z D)).
    apply Qmult_le_compat_r; lra. }
  destruct (Qlt_le_dec x (pow2 (-2))) as [S|B].
  - (* below one quarter *)
    destruct (round64_err x (-2) X0 S ltac:(lia)) as (q & E & Q1 & Q2 & Q0).
    exists q. split; [exact E|]. intros m.
    assert (P56 : pow2 (-2 - 54) < 1 # 4) by reflexivity.
    change (pow2 (-2)) with (1 # 4) in S.
    destruct (half_integer_sides m x X0 ltac:(lra)) as [A1 A2].
    destruct (half_integer_sides m q Q0 ltac:(lra)) as [B1 B2].
    split; [rewrite A1, B1|rewrite A2, B2]; reflexivity.
  - assert (Xp : 0 < x) by (assert (0 < pow2 (-2)) by reflexivity; lra).
    destruct (ilog2_spec x Xp) as [L1 L2].
    assert (LL := ilog2_ge x (-2) B).
    assert (LU : (ilog2 x < 52)%Z) by (apply ilog2_lt; [exact Xp|lra]).
    set (L := ilog2 x) in *.
    destruct (round64_err x (L + 1) X0 L2 ltac:(lia)) as (q & E & Q1 & Q2 & Q0).
    replace (L + 1 - 54)%Z with (L + (-53))%Z in Q1, Q2 by lia.
    rewrite pow2_add in Q1, Q2.
    set (g := 1 / (2 * inject_Z D)).
    assert (G : pow2 L * pow2 (-53) < g).
    { apply Qle_lt_trans with (x * pow2 (-53)).
      - apply Qmult_le_r; [reflexivity|exact L1].
      - unfold g, x. apply Qlt_shift_div_l; [lra|].
        setoid_replace (inject_Z n / inject_Z D * pow2 (-53) * (2 * inject_Z D))
          with (inject_Z n * (2 * pow2 (-53))) by (field; lra).
        assert (K : pow2 52 * (2 * pow2 (-53)) == 1) by reflexivity.
        assert (K' : 0 < 2 * pow2 (-53)) by reflexivity.
        rewrite <- K. apply Qmult_lt_r; assumption. }
    exists q. split; [exact E|]. intros m.
    pose proof (half_integer_gap n m D HD) as HG. cbv zeta in HG.
    fold x in HG. fold g in HG. destruct HG as [T|[U|V]].
    + (* a tie is a double *)
      assert (R : representable x).
      { exists (2 * m + 1)%Z, (-1)%Z.
        assert (M : inject_Z (2 * m + 1) * pow2 (-1) == x).
        { rewrite T, inject_Z_plus, inject_Z_mult.
          change (inject_Z 2) with 2. change (inject_Z 1) with 1.
          change (pow2 (-1)) with (1 # 2). ring. }
        assert (Mb : inject_Z (-1) < inject_Z (2 * m + 1)
                     /\ inject_Z (2 * m + 1) < inject_Z (2 ^ 53)).
        { change (inject_Z (2 ^ 53)) with (2 * pow2 52).
          change (inject_Z (-1)) with (-1).
          change (pow2 (-1)) with (1 # 2) in M. split; lra. }
        destruct Mb as [M1 M2]. rewrite <- Zlt_Qlt in M1, M2.
        repeat split; try lia.
        - rewrite Qabs_pos by exact X0.
          assert (pow2 52 < pow2 1024) by (apply pow2_lt; lia). lra.
        - now symmetry. }
      rewrite (round64_exact x R) in E. injection E as <-.
      assert (Q := Qred_correct x). rewrite Q. tauto.
    + split; split; intros; lra.
    + split; split; intros; lra.
Qed.

Lemma filter_all (p : char -> bool) (s : jsstring) :
  forallb p s = true -> filter p s = s.
Proof.
  induction s as [|c s IH]; simpl; [reflexivity|].
  intros H. apply andb_true_iff in H as [A B]. now rewrite A, IH.
Qed.

Lemma text_digits_nonneg (s : jsstring) : (0 <= text_digits s)%Z.
Proof. apply digits_value_nonneg. Qed.

Lemma unsigned_value_ratio (s : jsstring) :
  unsigned_decimal s ->
  exists j : nat,
    unsigned_value s
    == inject_Z (text_digits s) / inject_Z (10 ^ Z.of_nat j).
Proof.
  intros [D|(i & f & -> & Di & Df)].
  - exists 0%nat. rewrite (unsigned_value_digits s D). unfold text_digits.
    rewrite (filter_all _ _ (proj2 D)).
    change (inject_Z (10 ^ Z.of_nat 0)) with 1. field.
  - exists (length f). rewrite (unsigned_value_frac i f Di). unfold text_digits.
    rewrite filter_app. cbn [filter]. rewrite dot_not_digit.
    rewrite (filter_all _ _ (proj2 Di)), (filter_all _ _ (proj2 Df)).
    reflexivity.
Qed.

Lemma text_digits_signed (c : char) (r : jsstring) :
  is_sign c = true -> text_digits (c :: r) = text_digits r.
Proof.
  intros S. unfold text_digits. cbn [filter]. now rewrite (sign_not_digit c S).
Qed.

Lemma unsigned_short_exact (s : jsstring) :
  unsigned_decimal s -> (text_digits s < 2 ^ 52)%Z ->
  exists q, round64 (unsigned_value s) = Fin q
            /\ round_half_up q = round_half_up (unsigned_value s)
            /\ round_half_up (- q) = round_half_up (- unsigned_value s).
Proof.
  intros U H. destruct (unsigned_value_ratio s U) as [j E].
  assert (P : (0 < 10 ^ Z.of_nat j)%Z) by (apply Z.pow_pos_nonneg; lia).
  destruct (short_decimal_same_side (text_digits s) (10 ^ Z.of_nat j)
              (conj (text_digits_nonneg s) H) P) as (q & R & S).
  cbv zeta in R, S. rewrite <- E in R.
  exists q. split; [exact R|].
  destruct (same_side_round _ _ S) as [A B].
  rewrite A, B. split; apply round_half_up_comp; rewrite E; reflexivity.
Qed.

(** A decimal text whose digits make an integer below [2^52]: rounding
    the nearest double gives the rounded real. *)
Lemma short_decimal_exact (s : jsstring) :
  signed unsigned_decimal s -> (text_digits s < 2 ^ 52)%Z ->
  denotes (Math_round (StringToNumber s))
          (inject_Z (round_half_up (text_value s))).
Proof.
  intros S H. destruct S as [U|(c & r & -> & Sc & U)].
  - destruct (unsigned_short_exact s U H) as (q & R & A & _).
    rewrite (StringToNumber_unsigned s U), (text_value_unsigned s U), R, <- A.
    apply denotes_Math_round. split; reflexivity.
  - rewrite (text_digits_signed c r Sc) in H.
    destruct (unsigned_short_exact r U H) as (q & R & A & B).
    rewrite (StringToNumber_signed c r Sc U), (text_value_signed c r Sc), R.
    destruct (c =? minus)%N.
    + rewrite <- B. apply denotes_Math_round.
      split; [apply isFinite_fneg|apply value_fneg].
    + rewrite <- A. apply denotes_Math_round. split; reflexivity.
Qed.

(** *** The arithmetic against the Standard Library's IEEE 754 specification *)

(** Division (for reading a decimal), multiplication and addition of the
    model agree with binary64 of [SpecFloat] on normal, subnormal,
    overflowing, underflowing and signed-zero samples. *)
Example binary64_samples :
  let SFmul := SpecFloat.SFmul 53 1024 in
  let SFadd := SpecFloat.SFadd 53 1024 in
  let SFdiv := SpecFloat.SFdiv 53 1024 in
  let a := round64 (1 # 10) in
  let b := round64 (599999 # 10000) in
  let c := of_Z 3600000 in
  let big := round64 (inject_Z (10 ^ 200)) in
  let tiny := round64 (1 # 10 ^ 200) in
  to_spec a = SFdiv (to_spec (of_Z 1)) (to_spec (of_Z 10))
  /\ to_spec b = SFdiv (to_spec (of_Z 599999)) (to_spec (of_Z 10000))
  /\ to_spec (round64 (- 1 # 3)) = SFdiv (to_spec (of_Z (-1))) (to_spec (of_Z 3))
  /\ to_spec (round64 (5005 # 10000))
     = SFdiv (to_spec (of_Z 5005)) (to_spec (of_Z 10000))
  /\ to_spec (fmul a c) = SFmul (to_spec a) (to_spec c)
  /\ to_spec (fmul b (of_Z 1000)) = SFmul (to_spec b) (to_spec (of_Z 1000))
  /\ to_spec (fmul (round64 (5005 # 10000)) (of_Z 1000))
     = SFmul (to_spec (round64 (5005 # 10000))) (to_spec (of_Z 1000))
  /\ to_spec (fadd a b) = SFadd (to_spec a) (to_spec b)
  /\ to_spec (fadd (fmul a c) (fneg b))
     = SFadd (SFmul (to_spec a) (to_spec c)) (to_spec (fneg b))
  /\ to_spec (fmul big big) = SFmul (to_spec big) (to_spec big)
  /\ to_spec (fmul tiny tiny) = SFmul (to_spec tiny) (to_spec tiny)
  /\ to_spec (fmul (fneg tiny) tiny) = SFmul (to_spec (fneg tiny)) (to_spec tiny)
  /\ to_spec (fmul tiny (round64 (1 # 10 ^ 120)))
     = SFmul (to_spec tiny) (to_spec (round64 (1 # 10 ^ 120)))
  /\ to_spec (fadd (fmul big big) (fneg (fmul big big)))
     = SFadd (SFmul (to_spec big) (to_spec big)) (to_spec (fneg (fmul big big)))
  /\ to_spec (fadd a (fneg a)) = SFadd (to_spec a) (to_spec (fneg a))
  /\ to_spec (fadd NegZero NegZero) = SFadd (to_spec NegZero) (to_spec NegZero)
  /\ to_spec (fadd NegZero (of_Z 0)) = SFadd (to_spec NegZero) (to_spec (of_Z 0))
  /\ to_spec (fmul NegZero (of_Z 5)) = SFmul (to_spec NegZero) (to_spec (of_Z 5))
  /\ to_spec (fmul (Inf false) (of_Z 0))
     = SFmul (to_spec (Inf false)) (to_spec (of_Z 0)).
Proof. cbv zeta. repeat split; vm_compute; reflexivity. Qed.

(** ** The value before the final rounding *)

Lemma classify_Empty (raw : jsstring) :
  classify raw = Empty -> parseDurationMs raw = Return (of_Z 0).
Proof.
  intros H. apply parse_empty. unfold classify in H.
  destruct (trim raw); [reflexivity|].
  cbn [is_empty] in H. destruct (includes _ _); [discriminate|].
  destruct (test_signed_decimal _); discriminate.
Qed.

Lemma token_step_finite (raw : jsstring) (total x : number) (t : token) :
  token_step raw total t = inr x ->
  isFinite (StringToNumber (tok_number t)) = true.
Proof.
  unfold token_step. destruct (isFinite _); [reflexivity|discriminate].
Qed.

Lemma fmul_NaN_r (a : number) : fmul a NaN = NaN.
Proof. now destruct a. Qed.

Lemma fadd_NaN_r (a : number) : fadd a NaN = NaN.
Proof. now destruct a. Qed.

(** A turn of the loop that does not throw adds the product for a
    canonical unit; the only other unit it lets through, the inherited
    name, turns the total into NaN. *)
Lemma token_step_inr (raw : jsstring) (total x : number) (t : token) :
  forallb is_alpha (tok_unit t) = true ->
  token_step raw total t = inr x ->
  (canonical_token t /\ x = fadd total (token_term t)) \/ x = NaN.
Proof.
  intros A H. assert (F := token_step_finite _ _ _ _ H).
  destruct (existsb (Str.eqb (toLowerCase (tok_unit t))) canonical_units) eqn:C.
  - apply In_existsb in C. left. split; [exact C|].
    rewrite (token_step_ok raw total t F C) in H. now injection H.
  - right. assert (N : ~ canonical_token t).
    { intros I. apply In_existsb in I. congruence. }
    destruct (Str.eqb (toLowerCase (tok_unit t)) (str "constructor")) eqn:K.
    + apply eqb_eq in K. unfold token_step in H. rewrite F, K in H.
      cbn [negb] in H.
      change (UNIT_MS_get (str "constructor")) with FunctionV in H.
      cbn [falsy ToNumber] in H. injection H as <-.
      now rewrite fmul_NaN_r, fadd_NaN_r.
    + assert (K' : toLowerCase (tok_unit t) <> str "constructor").
      { intros E. apply eqb_eq in E. congruence. }
      rewrite (token_step_unknown raw total t F (unknown_lookup _ A N K')) in H.
      discriminate.
Qed.

Lemma token_loop_NaN (raw : jsstring) (ts : list token) (x : number) :
  (forall t, In t ts -> forallb is_alpha (tok_unit t) = true) ->
  token_loop raw NaN ts = inr x -> x = NaN.
Proof.
  induction ts as [|t ts IH]; intros A; [intros H; now injection H|].
  cbn [token_loop]. destruct (token_step raw NaN t) as [e|total'] eqn:S;
    [discriminate|].
  assert (E : total' = NaN).
  { destruct (token_step_inr _ _ _ _ (A t (or_introl eq_refl)) S) as [[_ ->]| ->];
      reflexivity. }
  rewrite E. apply IH. intros u I. apply A. now right.
Qed.

Lemma token_loop_sum (raw : jsstring) (ts : list token) (total x : number) :
  (forall t, In t ts -> forallb is_alpha (tok_unit t) = true) ->
  token_loop raw total ts = inr x -> x <> NaN ->
  x = fold_left (fun acc t => fadd acc (token_term t)) ts total.
Proof.
  revert total. induction ts as [|t ts IH]; intros total A;
    [intros H _; now injection H|].
  cbn [token_loop fold_left].
  destruct (token_step raw total t) as [e|total'] eqn:S; [discriminate|].
  assert (A' : forall u, In u ts -> forallb is_alpha (tok_unit u) = true)
    by (intros u I; apply A; now right).
  destruct (token_step_inr _ _ _ _ (A t (or_introl eq_refl)) S) as [[_ ->]| ->].
  - now apply IH.
  - intros H N. now apply token_loop_NaN in H.
Qed.

Lemma token_loop_canonical (raw : jsstring) (ts : list token) (total x : number) :
  (forall t, In t ts -> canonical_token t) ->
  token_loop raw total ts = inr x ->
  x = fold_left (fun acc t => fadd acc (token_term t)) ts total.
Proof.
  revert total. induction ts as [|t ts IH]; intros total C;
    [intros H; now injection H|].
  cbn [token_loop fold_left].
  destruct (token_step raw total t) as [e|total'] eqn:S; [discriminate|].
  assert (F := token_step_finite _ _ _ _ S).
  rewrite (token_step_ok raw total t F (C t (or_introl eq_refl))) in S.
  injection S as <-. apply IH. intros u I. apply C. now right.
Qed.

(** What is returned for a non-empty input is [Math.round], applied once,
    to the unrounded value of the branch. *)
Lemma returned_unrounded (raw : jsstring) (r : number) :
  parseDurationMs raw = Return r -> classify raw <> Empty -> r <> NaN ->
  r = Math_round (unrounded raw).
Proof.
  intros H N R. unfold unrounded. destruct (classify raw) eqn:C.
  - congruence.
  - rewrite (parse_colon raw C) in H.
    destruct (parseColonTimeToMs (trim raw)) as [ms|] eqn:P; [|discriminate].
    injection H as ->. destruct (colon_sound _ _ P) as (V & Hh & S).
    rewrite (colon_accepts _ V Hh S) in P. now injection P.
  - rewrite (parse_unitless raw C) in H.
    destruct (isFinite _); [now injection H|discriminate].
  - rewrite (parse_tokens raw C) in H.
    destruct (token_loop raw (of_Z 0) (matchAll (trim raw))) as [e|total] eqn:L;
      [discriminate|].
    destruct (_ || _); [discriminate|]. injection H as <-.
    f_equal. apply (token_loop_sum raw _ _ _) in L; [exact L| |].
    + intros t I. now destruct (matchAll_token _ _ I) as (_ & _ & A & _).
    + intros E. apply R. now rewrite E.
Qed.

Lemma round_half_up_nearest (x : Q) :
  inject_Z (round_half_up x) - (1 # 2) <= x
  /\ x < inject_Z (round_half_up x) + (1 # 2).
Proof.
  unfold round_half_up. destruct (floor_bounds (x + (1 # 2))). split; lra.
Qed.

(** On the inputs where the binary64 evaluation loses nothing, what is
    returned is the real value of the branch rounded once. *)
Lemma returned_exact (raw : jsstring) (r : number) :
  parseDurationMs raw = Return r -> branch_exact raw ->
  denotes r (inject_Z (round_half_up (branch_value raw))).
Proof.
  unfold branch_exact, branch_value. intros H. destruct (classify raw) eqn:C.
  - intros _. rewrite (classify_Empty raw C) in H. injection H as <-.
    split; reflexivity.
  - intros [H30 [n Hn]]. rewrite (parse_colon raw C) in H.
    destruct (parseColonTimeToMs (trim raw)) as [ms|] eqn:P; [|discriminate].
    injection H as ->. destruct (colon_sound _ _ P) as (V & _).
    destruct (colon_exact _ V H30 (ex_intro _ n Hn)) as (r' & E & F & Vr).
    rewrite P in E. injection E as <-. split; [exact F|]. rewrite Vr.
    assert (I : clock_exact (trim raw)
                == inject_Z (clock_sign (trim raw)
                             * (clock_hours (trim raw) * 3600000
                                + clock_minutes (trim raw) * 60000 + n))).
    { unfold clock_exact. rewrite Hn.
      rewrite inject_Z_mult, !inject_Z_plus, !inject_Z_mult. reflexivity. }
    rewrite (round_half_up_comp _ _ I), round_half_up_Z. exact I.
  - intros T. rewrite (parse_unitless raw C) in H.
    destruct (isFinite _); [|discriminate]. injection H as <-.
    exact (short_decimal_exact _ (classify_Unitless_inv raw C) T).
  - intros [G E]. rewrite (parse_tokens raw C) in H.
    destruct (token_loop raw (of_Z 0) (matchAll (trim raw))) as [e|total] eqn:L;
      [discriminate|].
    destruct (_ || _); [discriminate|]. injection H as <-.
    rewrite (token_loop_canonical raw _ _ _ G L).
    apply denotes_Math_round. apply tokens_exact_fold; try assumption.
    + intros t I. now destruct (matchAll_token _ _ I).
    + apply denotes_of_Z.
Qed.

(** * The claims *)

(** ** Empty input *)

(** C9.  Every input whose trimmed form is empty, for the white space the
    specification names (space, tab, newline) and for all the white space
    [trim] strips, gives 0 and raises nothing; and the empty class is the
    only class of the dispatcher with no failing input: the colon class,
    the unitless class and the token class each contain an input that
    throws. *)
Theorem C9_empty_input :
  (forall raw, spec_trim raw = [] -> parseDurationMs raw = Return (of_Z 0))
  /\ (forall raw, classify raw = Empty -> parseDurationMs raw = Return (of_Z 0))
  /\ (forall c, c <> Empty ->
      exists raw e, classify raw = c /\ parseDurationMs raw = Throw e).
Proof.
  split; [|split].
  - intros raw H. now apply parse_empty, spec_trim_nil_trim.
  - exact classify_Empty.
  - intros [] H; [congruence| | |].
    + exists (str ":"), (InvalidColon (str ":")). split; reflexivity.
    + exists (one_and_zeros 309), (InvalidNumber (one_and_zeros 309)).
      split; vm_compute; reflexivity.
    + exists (str "abc"), (CouldNotFullyParse (str "abc")). split; reflexivity.
Qed.

Lemma C9_empty_input_witness :
  spec_trim [10; 9; 32; 32]%N = []
  /\ parseDurationMs [10; 9; 32; 32]%N = Return (of_Z 0).
Proof.
  split; [reflexivity|]. apply (proj1 C9_empty_input). reflexivity.
Defined.

(** ** The unit predicate *)

(** C7, as amended.  [isDurationUnit] is total and answers true exactly on
    the canonical lowercase spellings, which are the keys of the table
    [UNIT_MS]; there are 23 of them, all different.  What it accepts is
    never changed by case folding or by trimming and is never empty, so a
    capitalised variant, a padded spelling, the empty text and any other
    text are refused. *)
Theorem C7_isDurationUnit :
  (forall v, isDurationUnit v = true <-> In v canonical_units)
  /\ (forall v, isDurationUnit v = true <-> In v (List.map fst UNIT_MS))
  /\ length canonical_units = 23%nat /\ NoDup canonical_units
  /\ (forall v, isDurationUnit v = true ->
        toLowerCase v = v /\ trim v = v /\ v <> [])
  /\ isDurationUnit (str "MS") = false /\ isDurationUnit (str "Sec") = false
  /\ isDurationUnit [] = false /\ isDurationUnit (str "minute ") = false
  /\ isDurationUnit (str "constructor") = false.
Proof.
  split; [exact isDurationUnit_iff|]. split.
  { intros v. rewrite own_key_iff. apply isDurationUnit_iff. }
  split; [reflexivity|]. split.
  - unfold canonical_units. cbn [List.map].
    repeat (constructor; [rewrite In_existsb; vm_compute; discriminate|]).
    constructor.
  - split; [|repeat split; reflexivity].
    intros v H. apply isDurationUnit_iff in H.
    unfold canonical_units in H. cbn [List.map] in H.
    repeat (destruct H as [<-|H];
            [split; [reflexivity|split; [reflexivity|discriminate]]|]).
    contradiction.
Qed.

Lemma C7_isDurationUnit_witness :
  isDurationUnit (str "seconds") = true
  /\ toLowerCase (str "seconds") = str "seconds".
Proof.
  split; [reflexivity|].
  apply (proj1 (proj2 (proj2 (proj2 (proj2 C7_isDurationUnit)))) (str "seconds")).
  reflexivity.
Defined.

(** C7 as stated fails: the spellings [isDurationUnit] accepts cannot be
    listed without repetition in 24 entries. *)
Lemma C7_not_24_spellings :
  ~ exists l : list jsstring,
      NoDup l /\ length l = 24%nat
      /\ forall v, isDurationUnit v = true <-> In v l.
Proof.
  intros (l & N & L & H).
  assert (I : incl l canonical_units).
  { intros v Hv. now apply isDurationUnit_iff, H. }
  apply (NoDup_incl_length N) in I. rewrite L in I.
  change (length canonical_units) with 23%nat in I. lia.
Qed.

(** ** Clock times *)

(** C10.  The range test [0 <= seconds < 60] is made on the seconds read
    from the text, before the scaling to milliseconds and the final
    rounding: "00:00:59.9999" is a valid clock time with seconds below 60,
    and it gives 60000, the value of "00:01:00". *)
Theorem C10_seconds_round_up_to_minute :
  valid_clock (str "00:00:59.9999")
  /\ clock_seconds (str "00:00:59.9999") < 60
  /\ parseDurationMs (str "00:00:59.9999") = Return (of_Z 60000)
  /\ parseDurationMs (str "00:01:00") = Return (of_Z 60000).
Proof.
  assert (P : parseColonTimeToMs (str "00:00:59.9999") = Some (of_Z 60000))
    by (vm_compute; reflexivity).
  apply colon_sound in P. destruct P as [V _].
  split; [exact V|]. split; [vm_compute; reflexivity|].
  split; vm_compute; reflexivity.
Qed.

(** C3.  When the trimmed input contains a colon the colon-time parser
    alone decides: its value is returned, its refusal is the one error
    [invalid ":" duration] carrying the untrimmed input, and no other
    error can come out; and every text that does not split into two or
    three segments passing their pattern and range checks (each segment
    taken without the white space around it) is refused. *)
Theorem C3_colon_dispatch (raw : jsstring) :
  includes colon (trim raw) = true ->
  parseDurationMs raw =
    match parseColonTimeToMs (trim raw) with
    | Some ms => Return ms
    | None => Throw (InvalidColon raw)
    end
  /\ (~ valid_clock (trim raw) -> parseDurationMs raw = Throw (InvalidColon raw))
  /\ (forall e, parseDurationMs raw = Throw e -> e = InvalidColon raw)
  /\ message (InvalidColon raw)
     = str "parseDurationMs: invalid " ++ quote :: colon :: quote
       :: str " duration " ++ quote :: raw ++ [quote].
Proof.
  intros H. assert (E := parse_colon raw (classify_colon raw H)).
  split; [|split; [|split]].
  - rewrite E. now destruct (parseColonTimeToMs (trim raw)).
  - intros N. rewrite E. now rewrite (colon_rejects _ N).
  - intros e. rewrite E. destruct (parseColonTimeToMs (trim raw)); congruence.
  - reflexivity.
Qed.

Lemma C3_colon_dispatch_witness :
  includes colon (trim (str "1:30h")) = true
  /\ parseDurationMs (str "1:30h") = Throw (InvalidColon (str "1:30h")).
Proof.
  split; [reflexivity|].
  rewrite (proj1 (C3_colon_dispatch (str "1:30h") eq_refl)). reflexivity.
Defined.

(** The malformed clock times the specification lists. *)
Example colon_rejections :
  Forall (fun s => parseDurationMs (str s) = Throw (InvalidColon (str s)))
    ["1:30h"; ":"; "1::2"; "1:2:3:4"; "01:60"; "00:00:60"; "00:00:01.";
     ":30"; "1:"; "1.5:30"; "01:-30"; "00:00:-1"; "abc1:30"]%string.
Proof. repeat constructor. Qed.

(** C2, as amended.  A valid clock time whose hours read as a finite
    double (magnitude below [2^1024 - 2^970]) and whose seconds read as a
    double below 60 (seconds below [60 - 2^-48]) gives [Math.round] of the
    binary64 evaluation of [(hours * 3600000 + minutes * 60000 +
    seconds * 1000) * sign]: the sign comes from the hour segment alone
    and multiplies the whole unsigned sum, and rounding is applied once.
    When moreover the hours are at most [2^30] and the seconds are a whole
    number of milliseconds, that is exactly the real number
    [round (sign * (hours * 3600000 + minutes * 60000 + seconds * 1000))],
    up to the sign of a zero. *)
Theorem C2_colon_time_value (raw : jsstring) :
  valid_clock (trim raw) ->
  inject_Z (clock_hours (trim raw)) < overflow_threshold ->
  clock_seconds (trim raw) < sixty_cut ->
  parseDurationMs raw = Return (Math_round (clock_binary64 (trim raw)))
  /\ ((clock_hours (trim raw) <= 2 ^ 30)%Z ->
      (exists n : Z, clock_seconds (trim raw) * 1000 == inject_Z n) ->
      denotes (Math_round (clock_binary64 (trim raw)))
              (inject_Z (round_half_up (clock_exact (trim raw))))).
Proof.
  intros V H S.
  rewrite (parse_colon raw (classify_colon raw (valid_clock_colon _ V))).
  rewrite (colon_accepts _ V H S). split; [reflexivity|].
  intros H30 [n Hn].
  destruct (colon_exact _ V H30 (ex_intro _ n Hn)) as (r & E & F & Vr).
  rewrite (colon_accepts _ V H S) in E. injection E as <-.
  split; [exact F|]. rewrite Vr.
  (* the exact total is an integer *)
  assert (I : clock_exact (trim raw)
              == inject_Z (clock_sign (trim raw)
                           * (clock_hours (trim raw) * 3600000
                              + clock_minutes (trim raw) * 60000 + n))).
  { unfold clock_exact. rewrite Hn.
    rewrite inject_Z_mult, !inject_Z_plus, !inject_Z_mult. reflexivity. }
  rewrite (round_half_up_comp _ _ I), round_half_up_Z. exact I.
Qed.

Lemma C2_colon_time_value_witness :
  valid_clock (trim (str "01:30:15.250"))
  /\ inject_Z (clock_hours (trim (str "01:30:15.250"))) < overflow_threshold
  /\ clock_seconds (trim (str "01:30:15.250")) < sixty_cut
  /\ parseDurationMs (str "01:30:15.250") = Return (of_Z 5415250).
Proof.
  assert (P : parseColonTimeToMs (trim (str "01:30:15.250")) = Some (of_Z 5415250))
    by (vm_compute; reflexivity).
  apply colon_sound in P. destruct P as (V & H & S).
  split; [exact V|]. split; [exact H|]. split; [exact S|].
  rewrite (proj1 (C2_colon_time_value (str "01:30:15.250") V H S)).
  vm_compute. reflexivity.
Defined.

(** C2 as stated fails, in three ways.  The hour segment of a one
    followed by 309 zeros is a valid one, but it reads as an infinity and
    the input is refused.  The seconds of "00:00:59.99999999999999999999"
    are in [0, 60), yet the nearest double to them is 60 and the input is
    refused.  And "00:00:00.5005" is 500.5 milliseconds, which rounds to
    501, but the product of the double nearest to 0.5005 and 1000 is
    below 500.5 and the result is 500. *)
Lemma C2_valid_clock_refused_or_inexact :
  (valid_clock (trim (one_and_zeros 309 ++ str ":00"))
   /\ parseDurationMs (one_and_zeros 309 ++ str ":00")
      = Throw (InvalidColon (one_and_zeros 309 ++ str ":00")))
  /\ (valid_clock (trim (str "00:00:59.99999999999999999999"))
      /\ clock_seconds (trim (str "00:00:59.99999999999999999999")) < 60
      /\ parseDurationMs (str "00:00:59.99999999999999999999")
         = Throw (InvalidColon (str "00:00:59.99999999999999999999")))
  /\ (valid_clock (trim (str "00:00:00.5005"))
      /\ round_half_up (clock_exact (trim (str "00:00:00.5005"))) = 501%Z
      /\ parseDurationMs (str "00:00:00.5005") = Return (of_Z 500)).
Proof.
  split; [|split].
  - split; [|vm_compute; reflexivity].
    unfold valid_clock.
    replace (segments (trim (one_and_zeros 309 ++ str ":00")))
      with [one_and_zeros 309; str "00"] by (vm_compute; reflexivity).
    split; [left; split; [discriminate|vm_compute; reflexivity]|].
    split; [split; [discriminate|reflexivity]|vm_compute; discriminate].
  - split; [|split; vm_compute; reflexivity].
    unfold valid_clock.
    change (segments (trim (str "00:00:59.99999999999999999999")))
      with [str "00"; str "00"; str "59.99999999999999999999"].
    split; [left; split; [discriminate|reflexivity]|].
    split; [split; [discriminate|reflexivity]|].
    split; [vm_compute; discriminate|].
    split; [|vm_compute; reflexivity].
    right. exists (str "59"), (str "99999999999999999999").
    split; [reflexivity|]. split; split; (discriminate || reflexivity).
  - assert (P : parseColonTimeToMs (trim (str "00:00:00.5005")) = Some (of_Z 500))
      by (vm_compute; reflexivity).
    apply colon_sound in P. destruct P as (V & _).
    split; [exact V|]. split; vm_compute; reflexivity.
Qed.

(** The clock times the specification and the tests give. *)
Example colon_values :
  parseDurationMs (str "00:00") = Return (of_Z 0)
  /\ parseDurationMs (str "01:30") = Return (of_Z 5400000)
  /\ parseDurationMs (str "01:30:15.250") = Return (of_Z 5415250)
  /\ parseDurationMs (str "-00:00:00.500") = Return (of_Z (-500))
  /\ parseDurationMs (str "-999:59:59.999") = Return (of_Z (-3599999999))
  /\ parseDurationMs (str " -00:30 ") = Return (of_Z (-1800000)).
Proof. repeat split; vm_compute; reflexivity. Qed.

(** ** The unitless fast path *)

(** C8, as amended.  When the whole trimmed input is an optional sign,
    digits and an optional fraction, the input is in the unitless class
    (neither the colon parser nor the scanner sees it) and is read as the
    double nearest to its value.  Below the overflow threshold
    [2^1024 - 2^970] the result is [Math.round] of that double; it is the
    rounded real itself whenever the digits of the text, read as one
    integer, stay below [2^52] (every text of up to 15 digits), and
    whenever the value is a double.  From the threshold on the text reads
    as an infinity and the parse fails with [invalid number].  The texts
    Infinity, -Infinity and NaN are not of that shape and fail with
    [could not fully parse]. *)
Theorem C8_unitless_fast_path (raw : jsstring) :
  signed unsigned_decimal (trim raw) ->
  let x := text_value (trim raw) in
  classify raw = Unitless
  /\ (Qabs x < overflow_threshold ->
      exists r, parseDurationMs raw = Return r
                /\ denotes r (inject_Z (round_half_up (value (round64 x))))
                /\ ((text_digits (trim raw) < 2 ^ 52)%Z ->
                    denotes r (inject_Z (round_half_up x)))
                /\ (representable x -> denotes r (inject_Z (round_half_up x))))
  /\ (overflow_threshold <= Qabs x ->
      parseDurationMs raw = Throw (InvalidNumber raw))
  /\ parseDurationMs (str "Infinity") = Throw (CouldNotFullyParse (str "Infinity"))
  /\ parseDurationMs (str "-Infinity") = Throw (CouldNotFullyParse (str "-Infinity"))
  /\ parseDurationMs (str "NaN") = Throw (CouldNotFullyParse (str "NaN")).
Proof.
  intros S x. assert (C := classify_unitless raw S).
  split; [exact C|]. rewrite (parse_unitless raw C).
  destruct (StringToNumber_reads _ S) as [F V]. fold x in F, V.
  assert (I := round64_finite_iff x). split; [|split].
  - intros B. apply I in B. rewrite F, B.
    exists (Math_round (StringToNumber (trim raw))). split; [reflexivity|].
    assert (D : denotes (StringToNumber (trim raw)) (value (round64 x))).
    { split; [now rewrite F|exact V]. }
    split; [now apply denotes_Math_round|]. split.
    + intros T. exact (short_decimal_exact _ S T).
    + intros R. apply denotes_Math_round.
      destruct D as [D1 D2]. split; [exact D1|].
      rewrite D2. now apply denotes_round64.
  - intros B. rewrite F. destruct (isFinite (round64 x)); [|reflexivity].
    assert (B' : Qabs x < overflow_threshold) by now apply I. lra.
  - repeat split; vm_compute; reflexivity.
Qed.

Lemma C8_unitless_fast_path_witness :
  signed unsigned_decimal (trim (str "-1500.5"))
  /\ parseDurationMs (str "-1500.5") = Return (of_Z (-1500)).
Proof.
  assert (S : signed unsigned_decimal (trim (str "-1500.5"))).
  { right. exists minus, (str "1500.5"). split; [reflexivity|].
    split; [reflexivity|]. right. exists (str "1500"), (str "5").
    split; [reflexivity|]. split; split; (discriminate || reflexivity). }
  split; [exact S|].
  destruct (C8_unitless_fast_path (str "-1500.5") S) as (C & _ & _).
  rewrite (parse_unitless _ C). vm_compute. reflexivity.
Defined.

(** C8 as stated fails.  A one followed by 309 zeros matches the digit
    pattern in its entirety, and the parse fails with [invalid number]
    instead of returning a value.  And "0.49999999999999999" is below one
    half, so its rounded real is 0, but the double nearest to it is 0.5
    and the result is 1. *)
Lemma C8_overflow_and_tie :
  (test_signed_decimal (trim (one_and_zeros 309)) = true
   /\ parseDurationMs (one_and_zeros 309)
      = Throw (InvalidNumber (one_and_zeros 309)))
  /\ (test_signed_decimal (trim (str "0.49999999999999999")) = true
      /\ round_half_up (text_value (trim (str "0.49999999999999999"))) = 0%Z
      /\ parseDurationMs (str "0.49999999999999999") = Return (of_Z 1)).
Proof. repeat split; vm_compute; reflexivity. Qed.

(** The unitless inputs the specification and the tests give. *)
Example unitless_values :
  parseDurationMs (str "1500") = Return (of_Z 1500)
  /\ parseDurationMs (str "-1500.5") = Return (of_Z (-1500))
  /\ parseDurationMs (str "1500.5") = Return (of_Z 1501)
  /\ parseDurationMs (str "  123.9  ") = Return (of_Z 124)
  /\ parseDurationMs (str "9007199254740991") = Return (of_Z 9007199254740991)
  /\ parseDurationMs (str "Infinity") = Throw (CouldNotFullyParse (str "Infinity"))
  /\ parseDurationMs (str "-Infinity") = Throw (CouldNotFullyParse (str "-Infinity"))
  /\ parseDurationMs (str "NaN") = Throw (CouldNotFullyParse (str "NaN")).
Proof. repeat split; vm_compute; reflexivity. Qed.

(** ** The finiteness guards *)

(** C6, as amended.  An [invalid number] error is raised only for a
    numeric text (the whole unitless input, or the number of a token)
    whose magnitude is [2^1024 - 2^970] or more, which reads as an
    infinity; such a text has at least 309 characters, so no input shorter
    than that can raise it. *)
Theorem C6_invalid_number_needs_overflow (raw : jsstring) (e : error) :
  parseDurationMs raw = Throw e -> is_invalid_number e = true ->
  (exists text,
      (text = trim raw
       \/ exists t, In t (matchAll (trim raw)) /\ text = tok_number t)
      /\ signed unsigned_decimal text
      /\ overflow_threshold <= Qabs (text_value text))
  /\ (309 <= length raw)%nat.
Proof.
  intros H I.
  assert (G : exists text,
      (text = trim raw
       \/ exists t, In t (matchAll (trim raw)) /\ text = tok_number t)
      /\ signed unsigned_decimal text
      /\ overflow_threshold <= Qabs (text_value text)
      /\ (length text <= length (trim raw))%nat).
  { destruct (classify raw) eqn:C.
    - rewrite (classify_Empty raw C) in H. discriminate.
    - rewrite (parse_colon raw C) in H.
      destruct (parseColonTimeToMs (trim raw)); [discriminate|].
      injection H as <-. discriminate.
    - assert (S := classify_Unitless_inv raw C).
      rewrite (parse_unitless raw C) in H.
      destruct (isFinite (StringToNumber (trim raw))) eqn:F; [discriminate|].
      exists (trim raw). split; [now left|]. split; [exact S|]. split; [|lia].
      apply Qnot_lt_le. intros B. apply (StringToNumber_finite _ S) in B. congruence.
    - rewrite (parse_tokens raw C) in H.
      destruct (token_loop raw (of_Z 0) (matchAll (trim raw))) as [e'|total] eqn:L.
      + injection H as ->.
        destruct (token_loop_invalid _ _ _ _ L I) as (t & It & F).
        destruct (matchAll_token _ _ It) as (S & _ & _ & Len).
        exists (tok_number t). split; [right; now exists t|]. split; [exact S|].
        split; [|exact Len].
        apply Qnot_lt_le. intros B. apply (StringToNumber_finite _ S) in B. congruence.
      + destruct (_ || _); [injection H as <-; discriminate|discriminate]. }
  destruct G as (text & W & S & O & Len). split; [now exists text|].
  assert (A := overflow_needs_length text S O).
  assert (B := trim_length raw). lia.
Qed.

Lemma C6_invalid_number_needs_overflow_witness :
  parseDurationMs (one_and_zeros 309) = Throw (InvalidNumber (one_and_zeros 309))
  /\ (309 <= length (one_and_zeros 309))%nat.
Proof.
  assert (H : parseDurationMs (one_and_zeros 309)
              = Throw (InvalidNumber (one_and_zeros 309)))
    by (vm_compute; reflexivity).
  split; [exact H|].
  exact (proj2 (C6_invalid_number_needs_overflow _ _ H eq_refl)).
Defined.

(** C6 as stated fails: a one followed by 309 zeros matches the unitless
    digit pattern and reads as an infinity, and the same digits before a
    unit do so in the scanner; both guards fire. *)
Lemma C6_invalid_number_is_reachable :
  test_signed_decimal (one_and_zeros 309) = true
  /\ parseDurationMs (one_and_zeros 309)
     = Throw (InvalidNumber (one_and_zeros 309))
  /\ parseDurationMs (one_and_zeros 309 ++ str "h")
     = Throw (InvalidNumberIn (one_and_zeros 309) (one_and_zeros 309 ++ str "h")).
Proof. repeat split; vm_compute; reflexivity. Qed.

(** ** The token scanner *)

(** C1, as amended.  For an input of the token class whose matched tokens
    all have a canonical unit (one of the 23 spellings, after lowercasing)
    and a number that reads as a finite double: if there is at least one
    token and every code unit outside the matches is white space, the
    result is [Math.round] of the running binary64 total of
    [value * multiplier], each token carrying its own sign and the
    rounding applied once to the total, and this is the rounded real sum
    whenever no step of the accumulation rounds; if no token matches or a
    code unit other than white space is left over, the parse fails with
    [could not fully parse]. *)
Theorem C1_token_scanner (raw : jsstring) :
  classify raw = TokenList ->
  (forall t, In t (matchAll (trim raw)) ->
     canonical_token t /\ finite_text (tok_number t)) ->
  (matchAll (trim raw) <> [] ->
   forallb is_space (replace_all (trim raw)) = true ->
   parseDurationMs raw = Return (Math_round (tokens_binary64 (matchAll (trim raw))))
   /\ (exact_steps 0 (matchAll (trim raw)) ->
       denotes (Math_round (tokens_binary64 (matchAll (trim raw))))
         (inject_Z (round_half_up (tokens_exact (matchAll (trim raw)))))))
  /\ (matchAll (trim raw) = []
      \/ forallb is_space (replace_all (trim raw)) = false ->
      parseDurationMs raw = Throw (CouldNotFullyParse raw)).
Proof.
  intros C G. rewrite (parse_tokens raw C).
  set (ts := matchAll (trim raw)) in *.
  assert (S : forall t, In t ts -> signed unsigned_decimal (tok_number t)).
  { intros t I. now destruct (matchAll_token _ _ I). }
  assert (L : token_loop raw (of_Z 0) ts = inr (tokens_binary64 ts)).
  { apply token_loop_ok. intros t I. destruct (G t I) as [Ct Ft].
    split; [|exact Ct]. now apply StringToNumber_finite; [apply S|]. }
  rewrite L. split.
  - intros N W. rewrite W. destruct ts as [|t ts']; [congruence|].
    split; [reflexivity|]. intros E.
    apply denotes_Math_round. apply tokens_exact_fold; try assumption.
    apply denotes_of_Z.
  - intros [N|W]; [now rewrite N|]. rewrite W.
    now destruct (Nat.eqb (length ts) 0).
Qed.

Lemma C1_token_scanner_witness :
  classify (str "1h -30m") = TokenList
  /\ parseDurationMs (str "1h -30m") = Return (of_Z 1800000).
Proof.
  split; [reflexivity|].
  assert (G : forall t, In t (matchAll (trim (str "1h -30m"))) ->
                canonical_token t /\ finite_text (tok_number t)).
  { intros t I. vm_compute in I.
    destruct I as [<-|[<-|[]]]; split;
      try (apply In_existsb; vm_compute; reflexivity); vm_compute; reflexivity. }
  destruct (C1_token_scanner (str "1h -30m") eq_refl G) as [A _].
  destruct A as [A _]; [vm_compute; discriminate|vm_compute; reflexivity|].
  rewrite A. vm_compute. reflexivity.
Defined.

(** C1 as stated fails, in three ways.  In "1x abc" the pattern matches
    "1x" and the letters "abc" are left over, yet the error is [unknown
    unit], raised while the tokens are accumulated, before the left-over
    text is looked at.  A one followed by 309 zeros and the unit "h" is one
    token that covers the input and has a canonical unit, but its number
    reads as an infinity and the parse fails with [invalid number].  And
    "0.5005s" is 500.5 milliseconds, which rounds to 501, but the product
    of the double nearest to 0.5005 and 1000 is below 500.5 and the
    result is 500. *)
Lemma C1_unknown_unit_comes_first :
  (classify (str "1x abc") = TokenList
   /\ matchAll (trim (str "1x abc")) <> []
   /\ forallb is_space (replace_all (trim (str "1x abc"))) = false
   /\ parseDurationMs (str "1x abc")
      = Throw (UnknownUnit (str "x") (str "1x abc")))
  /\ (classify (one_and_zeros 309 ++ str "h") = TokenList
      /\ matchAll (trim (one_and_zeros 309 ++ str "h"))
         = [Token (one_and_zeros 309) (str "h")]
      /\ replace_all (trim (one_and_zeros 309 ++ str "h")) = []
      /\ parseDurationMs (one_and_zeros 309 ++ str "h")
         = Throw (InvalidNumberIn (one_and_zeros 309)
                    (one_and_zeros 309 ++ str "h")))
  /\ (classify (str "0.5005s") = TokenList
      /\ matchAll (trim (str "0.5005s")) = [Token (str "0.5005") (str "s")]
      /\ replace_all (trim (str "0.5005s")) = []
      /\ round_half_up (tokens_exact (matchAll (trim (str "0.5005s")))) = 501%Z
      /\ parseDurationMs (str "0.5005s") = Return (of_Z 500)).
Proof. repeat split; vm_compute; (reflexivity || discriminate). Qed.

(** The token lists the specification and the tests give. *)
Example token_values :
  parseDurationMs (str "0.25ms 0.25ms") = Return (of_Z 1)
  /\ parseDurationMs (str "1h -30m") = Return (of_Z 1800000)
  /\ parseDurationMs (str "30m 1h") = Return (of_Z 5400000)
  /\ parseDurationMs (str "1h30m") = Return (of_Z 5400000)
  /\ parseDurationMs (str "10MS") = Return (of_Z 10)
  /\ parseDurationMs (str "2d 3h 4m 5s 6ms") = Return (of_Z 183845006)
  /\ parseDurationMs (str "1.5d") = Return (of_Z 129600000)
  /\ parseDurationMs (str "0.0005s") = Return (of_Z 1).
Proof. repeat split; vm_compute; reflexivity. Qed.

Example token_rejections :
  Forall (fun s => parseDurationMs (str s) = Throw (CouldNotFullyParse (str s)))
    ["1h abc"; "1h30"; "1h,"; "abc"; "1h2"; "NaNh"; "Infinityh"; "1..5h"]%string.
Proof. repeat constructor. Qed.

(** C5, as amended.  In an input of the token class, the leftmost matched
    token whose lowercased unit is not a canonical spelling makes the
    parse fail with [unknown unit], naming the unit as it was written and
    carrying the untrimmed input, provided the number of that token and
    of every token before it reads as a finite double (else [invalid
    number] is raised first) and the lowercased unit is not the name
    "constructor", which the table object inherits. *)
Theorem C5_unknown_unit (raw : jsstring) (pre post : list token) (t : token) :
  classify raw = TokenList ->
  matchAll (trim raw) = pre ++ t :: post ->
  (forall p, In p pre -> canonical_token p /\ finite_text (tok_number p)) ->
  finite_text (tok_number t) ->
  ~ canonical_token t ->
  toLowerCase (tok_unit t) <> str "constructor" ->
  parseDurationMs raw = Throw (UnknownUnit (tok_unit t) raw)
  /\ message (UnknownUnit (tok_unit t) raw)
     = str "parseDurationMs: unknown unit " ++ quote :: tok_unit t
       ++ quote :: str " in " ++ quote :: raw ++ [quote].
Proof.
  intros C M G F N K. split.
  - rewrite (parse_tokens raw C), M, token_loop_app.
    assert (S : forall p, In p (pre ++ t :: post) ->
                signed unsigned_decimal (tok_number p) /\ forallb is_alpha (tok_unit p) = true).
    { intros p I. rewrite <- M in I. destruct (matchAll_token _ _ I) as (A & _ & B & _).
      now split. }
    rewrite token_loop_ok.
    + cbn [token_loop]. rewrite token_step_unknown; [reflexivity| |].
      * apply StringToNumber_finite; [|exact F]. apply S, in_elt.
      * apply unknown_lookup; [apply S, in_elt|exact N|exact K].
    + intros p I. destruct (G p I) as [Cp Fp]. split; [|exact Cp].
      apply StringToNumber_finite; [|exact Fp]. apply S, in_or_app. now left.
  - unfold message, quoted. cbn [app]. now rewrite <- !app_assoc.
Qed.

Lemma C5_unknown_unit_witness :
  classify (str "10 XYZ") = TokenList
  /\ parseDurationMs (str "10 XYZ") = Throw (UnknownUnit (str "XYZ") (str "10 XYZ")).
Proof.
  split; [reflexivity|].
  refine (proj1 (C5_unknown_unit (str "10 XYZ") [] []
                   (Token (str "10") (str "XYZ")) eq_refl _ _ _ _ _)).
  - vm_compute. reflexivity.
  - intros p [].
  - vm_compute. reflexivity.
  - unfold canonical_token. rewrite In_existsb. vm_compute. discriminate.
  - vm_compute. discriminate.
Defined.

(** C5 as stated fails: the token of a one followed by 309 zeros and the
    unit "x" has an unknown unit, but its number reads as an infinity and
    the error is [invalid number]. *)
Lemma C5_invalid_number_comes_first :
  matchAll (trim (one_and_zeros 309 ++ str "x"))
    = [Token (one_and_zeros 309) (str "x")]
  /\ ~ canonical_token (Token (one_and_zeros 309) (str "x"))
  /\ parseDurationMs (one_and_zeros 309 ++ str "x")
     = Throw (InvalidNumberIn (one_and_zeros 309) (one_and_zeros 309 ++ str "x")).
Proof.
  split; [vm_compute; reflexivity|]. split; [|vm_compute; reflexivity].
  unfold canonical_token. rewrite In_existsb. vm_compute. discriminate.
Qed.

(** What the scanner does with the unit "constructor": the lookup finds
    the function every object inherits, the product is NaN and the parse
    returns NaN instead of failing. *)
Example constructor_unit :
  UNIT_MS_get (str "constructor") = FunctionV
  /\ parseDurationMs (str "1 constructor") = Return NaN.
Proof. split; vm_compute; reflexivity. Qed.

(** ** Rounding *)

(** C4.  [Math.round] of a finite number is the integer nearest to it, a
    tie going up whatever the sign.  It is applied once, at the end of
    the branch taken: every number [parseDurationMs] returns for a
    non-empty input is [Math.round] of the unrounded value of that
    branch, which is the binary64 evaluation of the clock formula, the
    double the text reads as, or the binary64 sum of the products
    [value * multiplier(unit)]; nothing is rounded to an integer before.
    Where that evaluation is exact, the result is the integer nearest to
    the real value of the branch, a tie going up.  In each branch 2.5
    gives 3 and -2.5 gives -2; "0.5ms" gives 1 and "-0.5ms" a number
    equal to 0; "0.25ms 0.25ms" gives 1, where rounding each product
    first would give 0. *)
Theorem C4_rounding_policy :
  (forall a, isFinite a = true ->
     exists n : Z,
       isFinite (Math_round a) = true /\ value (Math_round a) == inject_Z n
       /\ inject_Z n - (1 # 2) <= value a /\ value a < inject_Z n + (1 # 2))
  /\ (forall raw r, parseDurationMs raw = Return r -> classify raw <> Empty ->
        r <> NaN
        \/ (forall t, In t (matchAll (trim raw)) -> canonical_token t) ->
        r = Math_round (unrounded raw))
  /\ (forall raw r, parseDurationMs raw = Return r -> branch_exact raw ->
        exists n : Z,
          denotes r (inject_Z n)
          /\ inject_Z n - (1 # 2) <= branch_value raw
          /\ branch_value raw < inject_Z n + (1 # 2))
  /\ Math_round (Fin (5 # 2)) = of_Z 3
  /\ Math_round (Fin (- 5 # 2)) = of_Z (-2)
  /\ parseDurationMs (str "0.5ms") = Return (of_Z 1)
  /\ (exists r, parseDurationMs (str "-0.5ms") = Return r
                /\ num_eqb r (of_Z 0) = true)
  /\ (unrounded (str "00:00:00.0025") = Fin (5 # 2)
      /\ parseDurationMs (str "00:00:00.0025") = Return (of_Z 3))
  /\ (unrounded (str "-00:00:00.0025") = Fin (- 5 # 2)
      /\ parseDurationMs (str "-00:00:00.0025") = Return (of_Z (-2)))
  /\ (unrounded (str "2.5") = Fin (5 # 2)
      /\ parseDurationMs (str "2.5") = Return (of_Z 3))
  /\ (unrounded (str "-2.5") = Fin (- 5 # 2)
      /\ parseDurationMs (str "-2.5") = Return (of_Z (-2)))
  /\ (unrounded (str "2.5ms") = Fin (5 # 2)
      /\ parseDurationMs (str "2.5ms") = Return (of_Z 3))
  /\ (unrounded (str "-2.5ms") = Fin (- 5 # 2)
      /\ parseDurationMs (str "-2.5ms") = Return (of_Z (-2)))
  /\ (unrounded (str "0.25ms 0.25ms") = Fin (1 # 2)
      /\ parseDurationMs (str "0.25ms 0.25ms") = Return (of_Z 1)
      /\ fold_left (fun acc t => fadd acc (Math_round (token_term t)))
           (matchAll (str "0.25ms 0.25ms")) (of_Z 0) = of_Z 0).
Proof.
  split; [exact Math_round_nearest|]. split; [|split].
  - intros raw r H N [R|G]; [now apply returned_unrounded|].
    unfold unrounded. destruct (classify raw) eqn:C.
    + congruence.
    + rewrite (parse_colon raw C) in H.
      destruct (parseColonTimeToMs (trim raw)) as [ms|] eqn:P; [|discriminate].
      injection H as ->. destruct (colon_sound _ _ P) as (V & Hh & S).
      rewrite (colon_accepts _ V Hh S) in P. now injection P.
    + rewrite (parse_unitless raw C) in H.
      destruct (isFinite _); [now injection H|discriminate].
    + rewrite (parse_tokens raw C) in H.
      destruct (token_loop raw (of_Z 0) (matchAll (trim raw))) as [e|total] eqn:L;
        [discriminate|].
      destruct (_ || _); [discriminate|]. injection H as <-.
      f_equal. exact (token_loop_canonical raw _ _ _ G L).
  - intros raw r H E. exists (round_half_up (branch_value raw)).
    split; [exact (returned_exact raw r H E)|apply round_half_up_nearest].
  - repeat split; try (vm_compute; reflexivity).
    exists NegZero. split; vm_compute; reflexivity.
Qed.

Lemma C4_rounding_policy_witness :
  parseDurationMs (str "-00:00:00.0025") = Return (of_Z (-2))
  /\ classify (str "-00:00:00.0025") <> Empty
  /\ of_Z (-2) <> NaN
  /\ of_Z (-2) = Math_round (unrounded (str "-00:00:00.0025")).
Proof.
  assert (H : parseDurationMs (str "-00:00:00.0025") = Return (of_Z (-2)))
    by (vm_compute; reflexivity).
  assert (N : classify (str "-00:00:00.0025") <> Empty) by (vm_compute; discriminate).
  assert (R : of_Z (-2) <> NaN) by discriminate.
  split; [exact H|]. split; [exact N|]. split; [exact R|].
  exact (proj1 (proj2 C4_rounding_policy) _ _ H N (or_introl R)).
Defined.

(** * Further properties of the code *)

(** ** Errors *)

Lemma token_step_error (raw : jsstring) (total : number) (t : token) (e : error) :
  token_step raw total t = inl e ->
  e = InvalidNumberIn (tok_number t) raw \/ e = UnknownUnit (tok_unit t) raw.
Proof.
  unfold token_step. destruct (isFinite _); cbn [negb].
  - destruct (falsy _); [|discriminate]. intros H. injection H as <-. now right.
  - intros H. injection H as <-. now left.
Qed.

Lemma token_loop_error (raw : jsstring) (ts : list token) (total : number) (e : error) :
  token_loop raw total ts = inl e ->
  exists t, In t ts
            /\ (e = InvalidNumberIn (tok_number t) raw
                \/ e = UnknownUnit (tok_unit t) raw).
Proof.
  revert total. induction ts as [|t ts IH]; intros total; [discriminate|].
  cbn [token_loop]. destruct (token_step raw total t) as [e'|total'] eqn:S.
  - intros H. injection H as ->. exists t. split; [now left|].
    exact (token_step_error _ _ _ _ S).
  - intros H. destruct (IH total' H) as (t' & I & E).
    exists t'. split; [now right|exact E].
Qed.

Lemma thrown_cases (raw : jsstring) (e : error) :
  parseDurationMs raw = Throw e ->
  (classify raw = ColonForm /\ e = InvalidColon raw)
  \/ (classify raw = Unitless /\ e = InvalidNumber raw)
  \/ (classify raw = TokenList
      /\ ((exists t, In t (matchAll (trim raw))
                     /\ (e = InvalidNumberIn (tok_number t) raw
                         \/ e = UnknownUnit (tok_unit t) raw))
          \/ e = CouldNotFullyParse raw)).
Proof.
  intros H. destruct (classify raw) eqn:C.
  - rewrite (classify_Empty raw C) in H. discriminate.
  - left. split; [reflexivity|]. rewrite (parse_colon raw C) in H.
    destruct (parseColonTimeToMs (trim raw)); congruence.
  - right; left. split; [reflexivity|]. rewrite (parse_unitless raw C) in H.
    destruct (isFinite _); congruence.
  - right; right. split; [reflexivity|]. rewrite (parse_tokens raw C) in H.
    destruct (token_loop raw (of_Z 0) (matchAll (trim raw))) as [e'|total] eqn:L.
    + injection H as ->. left. exact (token_loop_error _ _ _ _ L).
    + destruct (_ || _); [|discriminate]. injection H as <-. now right.
Qed.

(** X1.  Whatever error [parseDurationMs] throws, its message starts with
    the name of the function and ends with the input as it was given,
    before trimming, between double quotes. *)
Theorem X1_message_embeds_input (raw : jsstring) (e : error) :
  parseDurationMs raw = Throw e ->
  exists detail,
    message e = str "parseDurationMs: " ++ detail ++ quote :: raw ++ [quote].
Proof.
  intros H.
  destruct (thrown_cases raw e H)
    as [[_ ->]|[[_ ->]|[_ [(t & _ & [->| ->])| ->]]]].
  - exists (str "invalid " ++ quoted (str ":") ++ str " duration "). reflexivity.
  - exists (str "invalid number "). reflexivity.
  - exists (str "invalid number " ++ quoted (tok_number t) ++ str " in ").
    unfold message, quoted.
    change (str "parseDurationMs: invalid number ")
      with (str "parseDurationMs: " ++ str "invalid number ").
    cbn [app]. rewrite <- !app_assoc. cbn [app]. now rewrite <- ?app_assoc.
  - exists (str "unknown unit " ++ quoted (tok_unit t) ++ str " in ").
    unfold message, quoted.
    change (str "parseDurationMs: unknown unit ")
      with (str "parseDurationMs: " ++ str "unknown unit ").
    cbn [app]. rewrite <- !app_assoc. cbn [app]. now rewrite <- ?app_assoc.
  - exists (str "could not fully parse "). reflexivity.
Qed.

Lemma X1_message_embeds_input_witness :
  parseDurationMs (str " 1h abc ") = Throw (CouldNotFullyParse (str " 1h abc "))
  /\ exists detail,
       message (CouldNotFullyParse (str " 1h abc "))
       = str "parseDurationMs: " ++ detail ++ quote :: str " 1h abc " ++ [quote].
Proof.
  assert (H : parseDurationMs (str " 1h abc ")
              = Throw (CouldNotFullyParse (str " 1h abc ")))
    by (vm_compute; reflexivity).
  split; [exact H|]. exact (X1_message_embeds_input _ _ H).
Defined.

(** ** White space around the input *)

Lemma drop_while_app (p : char -> bool) (x y : jsstring) :
  drop_while p (x ++ y)
  = if forallb p x then drop_while p y else drop_while p x ++ y.
Proof.
  induction x as [|c x IH]; [reflexivity|].
  cbn [app drop_while forallb]. destruct (p c); [exact IH|reflexivity].
Qed.

Lemma forallb_rev (p : char -> bool) (x : jsstring) :
  forallb p (rev x) = forallb p x.
Proof.
  induction x as [|c x IH]; [reflexivity|].
  cbn [rev forallb]. rewrite forallb_app, IH. cbn [forallb].
  now rewrite andb_true_r, andb_comm.
Qed.

Lemma trim_padded (a raw b : jsstring) :
  forallb is_space a = true -> forallb is_space b = true ->
  trim (a ++ raw ++ b) = trim raw.
Proof.
  intros A B. unfold trim. rewrite drop_while_app, A, drop_while_app.
  destruct (forallb is_space raw) eqn:R.
  - apply drop_while_nil in R. rewrite R.
    apply drop_while_nil in B. now rewrite B.
  - rewrite rev_app_distr, drop_while_app, forallb_rev, B. reflexivity.
Qed.

Lemma token_step_input (x y : jsstring) (total : number) (t : token) :
  token_step x total t
  = match token_step y total t with
    | inl e => inl (retarget x e)
    | inr v => inr v
    end.
Proof.
  unfold token_step. destruct (isFinite _); cbn [negb]; [|reflexivity].
  now destruct (falsy _).
Qed.

Lemma token_loop_input (x y : jsstring) (ts : list token) (total : number) :
  token_loop x total ts
  = match token_loop y total ts with
    | inl e => inl (retarget x e)
    | inr v => inr v
    end.
Proof.
  revert total. induction ts as [|t ts IH]; intros total; [reflexivity|].
  cbn [token_loop]. rewrite (token_step_input x y).
  destruct (token_step y total t); [reflexivity|apply IH].
Qed.

Lemma same_trim (x y : jsstring) :
  trim x = trim y -> parseDurationMs x = on_input x (parseDurationMs y).
Proof.
  intros E. unfold parseDurationMs. cbv zeta. rewrite E.
  destruct (is_empty (trim y)); [reflexivity|].
  destruct (includes colon (trim y)).
  { now destruct (parseColonTimeToMs (trim y)). }
  destruct (test_signed_decimal (trim y)).
  { now destruct (isFinite _). }
  rewrite (token_loop_input x y).
  destruct (token_loop y (of_Z 0) (matchAll (trim y))); [reflexivity|].
  now destruct (_ || _).
Qed.

(** X2.  White space before and after the input changes nothing but the
    input quoted in an error message: the padded input gives the value
    the bare input gives, or fails with the same error. *)
Theorem X2_padding_is_ignored (a raw b : jsstring) :
  forallb is_space a = true -> forallb is_space b = true ->
  parseDurationMs (a ++ raw ++ b)
  = on_input (a ++ raw ++ b) (parseDurationMs raw).
Proof. intros A B. apply same_trim. now apply trim_padded. Qed.

Lemma X2_padding_is_ignored_witness :
  parseDurationMs (str "  " ++ str "1h 30m" ++ [9; 10]%N) = Return (of_Z 5400000).
Proof.
  rewrite (X2_padding_is_ignored (str "  ") (str "1h 30m") [9; 10]%N eq_refl eq_refl).
  vm_compute. reflexivity.
Defined.

(** ** What is returned *)

Lemma returned_cases (raw : jsstring) (r : number) :
  parseDurationMs raw = Return r ->
  match classify raw with
  | Empty => r = of_Z 0
  | ColonForm => r = Math_round (clock_binary64 (trim raw))
                 /\ accepted_clock (trim raw)
  | Unitless => r = Math_round (StringToNumber (trim raw))
                /\ isFinite (StringToNumber (trim raw)) = true
  | TokenList => exists total,
      token_loop raw (of_Z 0) (matchAll (trim raw)) = inr total
      /\ r = Math_round total
      /\ matchAll (trim raw) <> []
      /\ forallb is_space (replace_all (trim raw)) = true
  end.
Proof.
  intros H. destruct (classify raw) eqn:C.
  - rewrite (classify_Empty raw C) in H. congruence.
  - rewrite (parse_colon raw C) in H.
    destruct (parseColonTimeToMs (trim raw)) as [ms|] eqn:P; [|discriminate].
    injection H as ->. assert (A := colon_sound _ _ P). split; [|exact A].
    destruct A as (V & Hh & S). rewrite (colon_accepts _ V Hh S) in P. congruence.
  - rewrite (parse_unitless raw C) in H.
    destruct (isFinite _); [|discriminate]. split; congruence.
  - rewrite (parse_tokens raw C) in H.
    destruct (token_loop raw (of_Z 0) (matchAll (trim raw))) as [e|total];
      [discriminate|].
    exists total. split; [reflexivity|].
    destruct (Nat.eqb (length (matchAll (trim raw))) 0) eqn:M; [discriminate|].
    destruct (forallb is_space _); [|discriminate].
    injection H as <-. repeat split.
    intros E. rewrite E in M. discriminate.
Qed.

Lemma Math_round_finite (a : number) :
  isFinite (Math_round a) = isFinite a.
Proof.
  destruct a as [| | |q]; try reflexivity.
  unfold Math_round. now destruct (_ && _).
Qed.

Lemma Math_round_integer (a : number) :
  isFinite (Math_round a) = true ->
  exists n : Z, value (Math_round a) == inject_Z n.
Proof.
  rewrite Math_round_finite. intros F.
  destruct (Math_round_value a F) as [_ V]. now exists (round_half_up (value a)).
Qed.

(** X3.  A value [parseDurationMs] returns is a whole number of
    milliseconds whenever it is finite, whatever the branch; for an input
    of the unitless class it is always finite. *)
Theorem X3_results_are_integers (raw : jsstring) (r : number) :
  parseDurationMs raw = Return r ->
  (isFinite r = true -> exists n : Z, value r == inject_Z n)
  /\ (classify raw = Unitless -> isFinite r = true).
Proof.
  intros H. apply returned_cases in H. split.
  - destruct (classify raw).
    + subst r. intros _. now exists 0%Z.
    + destruct H as [-> _]. apply Math_round_integer.
    + destruct H as [-> _]. apply Math_round_integer.
    + destruct H as (total & _ & -> & _). apply Math_round_integer.
  - intros C. rewrite C in H. destruct H as [-> F]. now rewrite Math_round_finite.
Qed.

Lemma X3_results_are_integers_witness :
  parseDurationMs (str "1.5h 20.0004s") = Return (of_Z 5420000)
  /\ exists n : Z, value (of_Z 5420000) == inject_Z n.
Proof.
  assert (H : parseDurationMs (str "1.5h 20.0004s") = Return (of_Z 5420000))
    by (vm_compute; reflexivity).
  split; [exact H|].
  exact (proj1 (X3_results_are_integers _ _ H) eq_refl).
Defined.

(** ** The sign of a clock time *)

Lemma round64_nonneg (x : Q) : 0 <= x -> is_nonneg (round64 x) = true.
Proof.
  intros H. destruct (round64_shape x H) as [->|(q & -> & Hq)]; [reflexivity|].
  cbn [is_nonneg]. apply Qle_bool_iff. now rewrite Qred_correct.
Qed.

Lemma is_nonneg_value (a : number) : is_nonneg a = true -> 0 <= value a.
Proof.
  destruct a as [| | |q]; cbn [is_nonneg value]; try lra.
  intros H. now apply Qle_bool_iff.
Qed.

Lemma is_nonneg_signbit (a : number) : is_nonneg a = true -> signbit a = false.
Proof.
  destruct a as [|s| |q]; cbn [is_nonneg signbit]; try discriminate.
  - now destruct s.
  - intros H. apply Qle_bool_iff in H.
    destruct (Qcompare_spec q 0) as [C|C|C]; try reflexivity. lra.
Qed.



Lemma fmul_nonneg (a b : number) :
  isFinite a = true -> isFinite b = true ->
  is_nonneg a = true -> is_nonneg b = true -> is_nonneg (fmul a b) = true.
Proof.
  intros Fa Fb Na Nb.
  assert (Sa := is_nonneg_signbit a Na). assert (Sb := is_nonneg_signbit b Nb).
  assert (Va := is_nonneg_value a Na). assert (Vb := is_nonneg_value b Nb).
  destruct a as [| | |p]; try discriminate; destruct b as [| | |q]; try discriminate.
  unfold fmul. rewrite Sa, Sb. cbn [xorb].
  destruct (_ || _); [reflexivity|].
  apply round64_nonneg. cbn [value] in *. nra.
Qed.

Lemma fadd_nonneg (a b : number) :
  is_nonneg a = true -> is_nonneg b = true -> is_nonneg (fadd a b) = true.
Proof.
  intros Na Nb.
  assert (Va := is_nonneg_value a Na). assert (Vb := is_nonneg_value b Nb).
  destruct a as [|s| |p]; try discriminate; destruct b as [|t| |q]; try discriminate;
    cbn [fadd is_nonneg] in *.
  - destruct s, t; try discriminate; reflexivity.
  - exact Na.
  - exact Nb.
  - apply round64_nonneg. cbn [value] in *. lra.
Qed.







(** ** Trimmed texts *)

Lemma drop_while_idempotent (p : char -> bool) (s : jsstring) :
  drop_while p (drop_while p s) = drop_while p s.
Proof.
  induction s as [|c s IH]; [reflexivity|].
  cbn [drop_while]. destruct (p c) eqn:E; [exact IH|].
  cbn [drop_while]. now rewrite E.
Qed.

Lemma drop_while_head (p : char -> bool) (s r : jsstring) (c : char) :
  drop_while p s = c :: r -> p c = false.
Proof.
  induction s as [|x s IH]; [discriminate|].
  cbn [drop_while]. destruct (p x) eqn:E; [exact IH|].
  intros H. injection H as <- _. exact E.
Qed.

(** A trimmed text is empty or starts and ends with a code unit that is
    no white space. *)
Lemma trim_ends (s : jsstring) :
  trim s = []
  \/ exists c m, trim s = c :: m /\ is_space c = false
                 /\ drop_while is_space (rev (trim s)) = rev (trim s).
Proof.
  unfold trim. destruct (drop_while is_space s) as [|c d] eqn:D; [now left|].
  right. assert (Hc := drop_while_head _ _ _ _ D).
  assert (K : drop_while is_space (rev (c :: d))
              = drop_while is_space (rev d) ++ [c]).
  { cbn [rev]. rewrite drop_while_app.
    destruct (forallb is_space (rev d)) eqn:F; [|reflexivity].
    apply drop_while_nil in F. rewrite F. cbn [drop_while app]. now rewrite Hc. }
  exists c, (rev (drop_while is_space (rev d))).
  rewrite rev_involutive. split; [|split; [exact Hc|]].
  - rewrite K, rev_app_distr. reflexivity.
  - apply drop_while_idempotent.
Qed.

Lemma trim_idempotent (s : jsstring) : trim (trim s) = trim s.
Proof.
  destruct (trim_ends s) as [E|(c & m & E & Hc & R)].
  - now rewrite E.
  - unfold trim at 1. rewrite E at 1. cbn [drop_while]. rewrite Hc, <- E, R.
    apply rev_involutive.
Qed.

Lemma trim_not_blank (s : jsstring) :
  trim s <> [] -> forallb is_space (trim s) = false.
Proof.
  intros N. destruct (trim_ends s) as [E|(c & m & E & Hc & _)]; [contradiction|].
  rewrite E. cbn [forallb]. now rewrite Hc.
Qed.

(** ** A scan without a match *)

Lemma matchAll_cons (c : char) (r : jsstring) :
  matchAll (c :: r) =
  match TOKEN_REG_EX (c :: r) with
  | Some (t, rest) => t :: matchAll rest
  | None => matchAll r
  end.
Proof.
  unfold matchAll. rewrite scan_cons.
  now destruct (TOKEN_REG_EX (c :: r)) as [[t rest]|].
Qed.

Lemma replace_all_cons (c : char) (r : jsstring) :
  replace_all (c :: r) =
  match TOKEN_REG_EX (c :: r) with
  | Some (t, rest) => replace_all rest
  | None => c :: replace_all r
  end.
Proof.
  unfold replace_all. rewrite scan_cons.
  now destruct (TOKEN_REG_EX (c :: r)) as [[t rest]|].
Qed.

Lemma no_match_no_change (s : jsstring) :
  matchAll s = [] -> replace_all s = s.
Proof.
  induction s as [|c r IH]; [reflexivity|].
  rewrite matchAll_cons, replace_all_cons.
  destruct (TOKEN_REG_EX (c :: r)) as [[t rest]|]; [discriminate|].
  intros H. now rewrite (IH H).
Qed.

(** X5.  In the token branch the test [!matchedAny] never decides alone:
    when the pattern matches nowhere, the replacement leaves the trimmed
    text as it is, so the remainder is that text and is not empty. *)
Theorem X5_no_match_leaves_remainder (raw : jsstring) :
  trim raw <> [] -> matchAll (trim raw) = [] ->
  trim (replace_all (trim raw)) = trim raw
  /\ Nat.ltb 0 (length (trim (replace_all (trim raw)))) = true.
Proof.
  intros N M. rewrite (no_match_no_change _ M), trim_idempotent.
  split; [reflexivity|]. destruct (trim raw); [congruence|reflexivity].
Qed.

Lemma X5_no_match_leaves_remainder_witness :
  trim (str " 12 34 ") <> [] /\ matchAll (trim (str " 12 34 ")) = []
  /\ trim (replace_all (trim (str " 12 34 "))) = str "12 34".
Proof.
  assert (N : trim (str " 12 34 ") <> []) by (vm_compute; discriminate).
  assert (M : matchAll (trim (str " 12 34 ")) = []) by (vm_compute; reflexivity).
  split; [exact N|]. split; [exact M|].
  rewrite (proj1 (X5_no_match_leaves_remainder (str " 12 34 ") N M)).
  vm_compute. reflexivity.
Defined.

(** ** Whole numbers *)

Lemma Math_round_of_Z (z : Z) :
  Math_round (of_Z z) = of_Z z.
Proof.
  unfold Math_round, of_Z.
  change (Qfloor (inject_Z z + (1 # 2))) with (round_half_up (inject_Z z)).
  rewrite round_half_up_Z.
  destruct (Z.eqb_spec z 0) as [->|N]; [reflexivity|]. reflexivity.
Qed.

Lemma fneg_of_Z (z : Z) :
  fneg (of_Z z) = if (z =? 0)%Z then NegZero else of_Z (- z).
Proof.
  unfold of_Z, fneg. destruct (Z.eqb_spec z 0) as [->|N]; [reflexivity|].
  assert (E : Qeq_bool (inject_Z z) 0 = false).
  { destruct (Qeq_bool _ 0) eqn:E; [|reflexivity].
    apply Qeq_bool_iff in E. unfold Qeq in E. simpl in E. lia. }
  rewrite E. change (- inject_Z z) with (inject_Z (- z)).
  now rewrite Qred_inject_Z.
Qed.

Lemma integer_text (s : jsstring) :
  digits s -> (digits_value s <= 2 ^ 53)%Z ->
  StringToNumber s = of_Z (digits_value s).
Proof.
  intros D H. rewrite (StringToNumber_unsigned s (digits_unsigned s D)).
  rewrite (round64_comp _ _ (unsigned_value_digits s D)).
  apply small_Z_exact. pose proof (digits_value_nonneg s). lia.
Qed.

(** X6.  A plain integer text of value at most [2^53], with white space
    around it or not, is returned as it is: unsigned or under a plus sign
    it gives its value; under a minus sign it gives the opposite, which
    is -0 for a zero. *)
Theorem X6_safe_integers (raw s : jsstring) :
  digits s -> (digits_value s <= 2 ^ 53)%Z ->
  (trim raw = s \/ trim raw = plus :: s ->
   parseDurationMs raw = Return (of_Z (digits_value s)))
  /\ (trim raw = minus :: s ->
      parseDurationMs raw
      = Return (if (digits_value s =? 0)%Z then NegZero
                else of_Z (- digits_value s))).
Proof.
  intros D H. assert (N := integer_text s D H).
  assert (U := digits_unsigned s D).
  assert (P : forall c, is_sign c = true -> trim raw = c :: s ->
              parseDurationMs raw
              = Return (Math_round (if (c =? minus)%N
                                    then fneg (of_Z (digits_value s))
                                    else of_Z (digits_value s)))).
  { intros c Sc E.
    assert (S : signed unsigned_decimal (trim raw)).
    { rewrite E. right. exists c, s. auto. }
    rewrite (parse_unitless raw (classify_unitless raw S)), E.
    rewrite (StringToNumber_signed c s Sc U).
    rewrite <- (StringToNumber_unsigned s U), N.
    destruct (c =? minus)%N; [|reflexivity].
    rewrite fneg_of_Z. now destruct (digits_value s =? 0)%Z. }
  split.
  - intros [E|E].
    + assert (S : signed unsigned_decimal (trim raw)) by (rewrite E; now left).
      rewrite (parse_unitless raw (classify_unitless raw S)), E, N.
      cbn [isFinite of_Z]. fold (of_Z (digits_value s)). now rewrite Math_round_of_Z.
    + rewrite (P plus eq_refl E). cbn [N.eqb]. apply f_equal, Math_round_of_Z.
  - intros E. rewrite (P minus eq_refl E). cbn [N.eqb]. rewrite fneg_of_Z.
    destruct (digits_value s =? 0)%Z; [reflexivity|].
    apply f_equal, Math_round_of_Z.
Qed.

Lemma X6_safe_integers_witness :
  digits (str "9007199254740992")
  /\ (digits_value (str "9007199254740992") <= 2 ^ 53)%Z
  /\ parseDurationMs (str " -9007199254740992 ") = Return (of_Z (-9007199254740992)).
Proof.
  assert (D : digits (str "9007199254740992")) by (split; [discriminate|reflexivity]).
  assert (H : (digits_value (str "9007199254740992") <= 2 ^ 53)%Z)
    by (vm_compute; discriminate).
  split; [exact D|]. split; [exact H|].
  rewrite (proj2 (X6_safe_integers (str " -9007199254740992 ") _ D H) eq_refl).
  reflexivity.
Defined.

(** ** The token pattern *)

Lemma stops_number_digit (r : jsstring) : stops number_char r -> stops is_digit r.
Proof.
  destruct r as [|c r]; [auto|]. cbn [stops]. unfold number_char.
  intros H. now apply orb_false_iff in H as [H _].
Qed.

Lemma opt_fraction_none (r : jsstring) :
  stops number_char r -> opt_fraction r = ([], r).
Proof.
  destruct r as [|c r]; [reflexivity|]. cbn [stops opt_fraction]. unfold number_char.
  intros H. apply orb_false_iff in H as [_ H]. now rewrite H.
Qed.

Lemma opt_fraction_app (f r : jsstring) :
  digits f -> stops is_digit r -> opt_fraction (dot :: f ++ r) = (dot :: f, r).
Proof.
  intros D S. unfold opt_fraction. now rewrite N.eqb_refl, (digits1_app f r D S).
Qed.

Lemma unsigned_prefix (num tail : jsstring) :
  unsigned_decimal num -> stops number_char tail ->
  match digits1 (num ++ tail) with
  | Some (ds, s2) => let (fr, s3) := opt_fraction s2 in Some (ds ++ fr, s3)
  | None => None
  end = Some (num, tail).
Proof.
  intros [D|(i & f & -> & Di & Df)] S.
  - rewrite (digits1_app num tail D (stops_number_digit _ S)).
    rewrite (opt_fraction_none _ S). now rewrite app_nil_r.
  - rewrite <- app_assoc. cbn [app].
    rewrite (digits1_app i (dot :: f ++ tail) Di dot_not_digit).
    now rewrite (opt_fraction_app f tail Df (stops_number_digit _ S)).
Qed.

Lemma number_prefix_match (num tail : jsstring) :
  signed unsigned_decimal num -> stops number_char tail ->
  number_prefix (num ++ tail) = Some (num, tail).
Proof.
  intros [U|(c & r & -> & Sc & U)] S; unfold number_prefix.
  - assert (E : opt_sign (num ++ tail) = ([], num ++ tail)).
    { assert (N := unsigned_decimal_no_sign num U).
      assert (M := signed_decimal_nonempty num (or_introl U)).
      destruct num as [|x num]; [discriminate|].
      cbn [app opt_sign] in *. now destruct (is_sign x). }
    rewrite E. cbn [app]. exact (unsigned_prefix num tail U S).
  - cbn [app]. rewrite (opt_sign_signed c (r ++ tail) Sc).
    assert (P := unsigned_prefix r tail U S).
    destruct (digits1 (r ++ tail)) as [[ds s2]|]; [|discriminate].
    destruct (opt_fraction s2) as [fr s3]. cbv beta iota in P.
    injection P as <- <-. reflexivity.
Qed.

Lemma stops_app (p : char -> bool) (a r : jsstring) :
  a <> [] -> forallb (fun c => negb (p c)) a = true -> stops p (a ++ r).
Proof.
  destruct a as [|c a]; [congruence|]. cbn [app stops forallb]. intros _ H.
  apply andb_true_iff in H as [H _]. now apply negb_true_iff.
Qed.

Lemma alpha_plain (c : char) :
  is_alpha c = true -> is_space c = false /\ number_char c = false.
Proof.
  intros A. split.
  - destruct (is_space c) eqn:S; [|reflexivity].
    apply space_not_alpha in S. congruence.
  - destruct (number_char c) eqn:N; [|reflexivity].
    apply number_char_plain in N as [_ N]. congruence.
Qed.

Lemma space_plain (c : char) : is_space c = true -> number_char c = false.
Proof.
  intros S. destruct (number_char c) eqn:N; [|reflexivity].
  apply number_char_plain in N as [N _]. congruence.
Qed.

(** A number, white space, letters and a rest that does not go on with a
    letter: the pattern matches exactly that. *)
Lemma token_match (num ws unit rest : jsstring) :
  signed unsigned_decimal num -> forallb is_space ws = true ->
  unit <> [] -> forallb is_alpha unit = true -> stops is_alpha rest ->
  TOKEN_REG_EX (num ++ ws ++ unit ++ rest) = Some (Token num unit, rest).
Proof.
  intros Sn Fw Nu Fu Sr. rewrite TOKEN_REG_EX_greedy. unfold greedy_token.
  destruct unit as [|u unit]; [congruence|].
  cbn [forallb] in Fu. apply andb_true_iff in Fu as [Hu Fu].
  destruct (alpha_plain u Hu) as [Us Un].
  assert (T : stops number_char (ws ++ (u :: unit) ++ rest)).
  { destruct ws as [|w ws]; cbn [app stops]; [exact Un|].
    cbn [forallb] in Fw. apply andb_true_iff in Fw as [Hw _].
    now apply space_plain. }
  rewrite (number_prefix_match num _ Sn T).
  rewrite (span_app is_space ws ((u :: unit) ++ rest) Fw Us).
  assert (A : forallb is_alpha (u :: unit) = true) by (cbn [forallb]; now rewrite Hu).
  now rewrite (span_app is_alpha (u :: unit) rest A Sr).
Qed.

(** X7.  What [TOKEN_REG_EX] matches at the front of a text: a signed
    decimal number, then white space, possibly none, then one or more
    letters, all the letters there are; the captures are the number and
    the letters.  There is a match exactly when the text starts this
    way. *)
Theorem X7_token_pattern (s rest : jsstring) (t : token) :
  TOKEN_REG_EX s = Some (t, rest)
  <-> signed unsigned_decimal (tok_number t)
      /\ tok_unit t <> [] /\ forallb is_alpha (tok_unit t) = true
      /\ stops is_alpha rest
      /\ exists ws, forallb is_space ws = true
                    /\ s = tok_number t ++ ws ++ tok_unit t ++ rest.
Proof.
  split.
  - intros H. destruct (TOKEN_REG_EX_inv s rest t H) as (A & B & C & ws & E & W).
    repeat split; try assumption; [|now exists ws].
    rewrite TOKEN_REG_EX_greedy in H. unfold greedy_token in H.
    destruct (number_prefix s) as [[num s1]|]; [|discriminate].
    destruct (span is_space s1) as [w s2].
    destruct (span_spec is_alpha s2) as (_ & _ & S).
    destruct (span is_alpha s2) as [[|x u] s3]; [discriminate|].
    injection H as _ <-. exact S.
  - intros (A & B & C & S & ws & W & ->). destruct t as [num unit].
    now apply token_match.
Qed.

(** ** Writing and scanning *)

Lemma matchAll_match (s rest : jsstring) (t : token) :
  TOKEN_REG_EX s = Some (t, rest) ->
  matchAll s = t :: matchAll rest /\ replace_all s = replace_all rest.
Proof.
  intros H. destruct s as [|c r].
  - apply TOKEN_REG_EX_shorter in H. simpl in H. lia.
  - now rewrite matchAll_cons, replace_all_cons, H.
Qed.

Lemma space_starts_no_token (c : char) (r : jsstring) :
  is_space c = true -> TOKEN_REG_EX (c :: r) = None.
Proof.
  intros S. destruct (TOKEN_REG_EX (c :: r)) as [[t rest]|] eqn:T; [|reflexivity].
  apply TOKEN_REG_EX_inv in T as (A & _ & _ & ws & E & _).
  assert (Ne := signed_decimal_nonempty _ A).
  apply signed_decimal_chars in A. revert A E Ne.
  destruct (tok_number t) as [|x n]; [discriminate|]. intros A E _.
  cbn [app] in E. injection E as <- _. cbn [forallb] in A.
  apply andb_true_iff in A as [A _]. unfold decimal_char in A.
  exfalso. revert S A. unfold is_space, is_sign, is_digit, plus, minus, dot.
  intros S A.
  assert (R : (c = 43 \/ c = 45 \/ 48 <= c <= 57 \/ c = 46)%N).
  { repeat (apply orb_true_iff in A as [A|A]);
      try (apply andb_true_iff in A as [A1 A2]; apply N.leb_le in A1, A2);
      try apply N.eqb_eq in A; lia. }
  repeat (apply orb_true_iff in S as [S|S]);
    try (apply andb_true_iff in S as [S1 S2]; apply N.leb_le in S1, S2);
    try apply N.eqb_eq in S; lia.
Qed.

Lemma scan_spaces (ws s : jsstring) :
  forallb is_space ws = true ->
  matchAll (ws ++ s) = matchAll s /\ replace_all (ws ++ s) = ws ++ replace_all s.
Proof.
  induction ws as [|c ws IH]; [now split|].
  cbn [forallb app]. intros H. apply andb_true_iff in H as [Hc H].
  rewrite matchAll_cons, replace_all_cons, (space_starts_no_token c _ Hc).
  destruct (IH H) as [A B]. now rewrite A, B.
Qed.

Lemma stops_space (ws r : jsstring) :
  ws <> [] -> forallb is_space ws = true -> stops is_alpha (ws ++ r).
Proof.
  destruct ws as [|c ws]; [congruence|]. cbn [forallb app stops]. intros _ H.
  apply andb_true_iff in H as [H _]. now apply space_not_alpha.
Qed.

Lemma written_scan (sep : jsstring) (ts : list token) :
  sep <> [] -> forallb is_space sep = true ->
  (forall t, In t ts -> well_formed t) ->
  matchAll (write_tokens sep ts) = ts
  /\ replace_all (write_tokens sep ts)
     = concat (repeat sep (length ts - 1)).
Proof.
  intros N S. induction ts as [|t ts IH]; intros W; [now split|].
  destruct (W t (or_introl eq_refl)) as (A & B & C).
  destruct ts as [|u ts].
  - cbn [write_tokens]. rewrite <- (app_nil_r (tok_unit t)).
    assert (T := token_match (tok_number t) [] (tok_unit t) [] A eq_refl B C I).
    cbn [app] in T. destruct (matchAll_match _ _ _ T) as [M R].
    rewrite M, R. now destruct t.
  - assert (W' : forall x, In x (u :: ts) -> well_formed x)
      by (intros x Hx; apply W; now right).
    destruct (IH W') as [M' R'].
    change (write_tokens sep (t :: u :: ts))
      with (tok_number t ++ tok_unit t ++ sep ++ write_tokens sep (u :: ts)).
    assert (T := token_match (tok_number t) [] (tok_unit t)
                   (sep ++ write_tokens sep (u :: ts)) A eq_refl B C
                   (stops_space sep _ N S)).
    cbn [app] in T. destruct (matchAll_match _ _ _ T) as [M R].
    destruct (scan_spaces sep (write_tokens sep (u :: ts)) S) as [M2 R2].
    rewrite M, R, M2, R2, M', R'. split; [now destruct t|].
    cbn [length]. rewrite !Nat.sub_succ, !Nat.sub_0_r. reflexivity.
Qed.

(** X8.  Writing and scanning are inverse: when well-formed tokens are
    written one after the other with white space between them, the
    global scan finds exactly these tokens, in order, and the replacement
    leaves the white space alone. *)
Theorem X8_scan_of_written_tokens (sep : jsstring) (ts : list token) :
  sep <> [] -> forallb is_space sep = true ->
  (forall t, In t ts -> well_formed t) ->
  matchAll (write_tokens sep ts) = ts
  /\ replace_all (write_tokens sep ts)
     = concat (repeat sep (length ts - 1)).
Proof. exact (written_scan sep ts). Qed.

Lemma X8_scan_of_written_tokens_witness :
  matchAll (write_tokens (str " ") [Token (str "1.5") (str "h"); Token (str "-30") (str "min")])
  = [Token (str "1.5") (str "h"); Token (str "-30") (str "min")].
Proof.
  refine (proj1 (X8_scan_of_written_tokens (str " ") _ _ eq_refl _)).
  - discriminate.
  - intros t [<-|[<-|[]]]; (split; [|split; [discriminate|reflexivity]]).
    + left. right. exists (str "1"), (str "5").
      split; [reflexivity|]. split; split; (discriminate || reflexivity).
    + right. exists minus, (str "30"). split; [reflexivity|].
      split; [reflexivity|]. left. split; (discriminate || reflexivity).
Defined.

(** ** Parsing what was written *)

Lemma token_chars (sep : jsstring) (ts : list token) :
  forallb is_space sep = true -> (forall t, In t ts -> well_formed t) ->
  forallb token_char (write_tokens sep ts) = true.
Proof.
  intros S. 
  assert (Fs : forallb token_char sep = true).
  { rewrite forallb_forall in *. intros c I. unfold token_char.
    now rewrite (S c I), orb_true_r. }
  assert (Ft : forall t, well_formed t ->
            forallb token_char (tok_number t ++ tok_unit t) = true).
  { intros t (A & _ & C). apply signed_decimal_chars in A.
    rewrite forallb_app. apply andb_true_iff. split.
    - rewrite forallb_forall in *. intros c I. unfold token_char. now rewrite (A c I).
    - rewrite forallb_forall in *. intros c I. unfold token_char.
      now rewrite (C c I), orb_true_r. }
  induction ts as [|t ts IH]; intros W; [reflexivity|].
  assert (Wt := Ft t (W t (or_introl eq_refl))).
  destruct ts as [|u ts]; [exact Wt|].
  change (write_tokens sep (t :: u :: ts))
    with (tok_number t ++ tok_unit t ++ sep ++ write_tokens sep (u :: ts)).
  rewrite app_assoc, forallb_app, Wt, forallb_app, Fs. cbn [andb].
  apply IH. intros x Hx. apply W. now right.
Qed.

Lemma token_char_no_colon (s : jsstring) :
  forallb token_char s = true -> includes colon s = false.
Proof.
  unfold includes. induction s as [|c s IH]; [reflexivity|].
  cbn [forallb existsb]. intros H. apply andb_true_iff in H as [Hc H].
  rewrite (IH H), orb_false_r. apply N.eqb_neq. intros <-. discriminate.
Qed.

Lemma written_has_letter (sep : jsstring) (t : token) (ts : list token) :
  well_formed t -> forallb decimal_char (write_tokens sep (t :: ts)) = false.
Proof.
  intros (_ & B & C).
  assert (F : forallb decimal_char (tok_unit t) = false).
  { destruct (tok_unit t) as [|c u]; [congruence|].
    cbn [forallb] in *. apply andb_true_iff in C as [C _].
    assert (D : decimal_char c = false).
    { destruct (decimal_char c) eqn:D; [|reflexivity]. exfalso.
      unfold decimal_char in D. apply orb_true_iff in D as [D|D].
      - apply orb_true_iff in D as [D|D].
        + revert C D. unfold is_alpha, is_sign, plus, minus. intros C D.
          apply orb_true_iff in D as [D|D]; apply N.eqb_eq in D; subst c; discriminate.
        + assert (Nc : number_char c = true) by (unfold number_char; now rewrite D).
          apply number_char_plain in Nc as [_ Nc]. congruence.
      - assert (Nc : number_char c = true)
          by (unfold number_char; now rewrite D, orb_true_r).
        apply number_char_plain in Nc as [_ Nc]. congruence. }
    now rewrite D. }
  destruct ts as [|u ts]; cbn [write_tokens]; rewrite !forallb_app, F;
    now rewrite andb_false_r.
Qed.

Lemma written_class (raw sep : jsstring) (t : token) (ts : list token) :
  forallb is_space sep = true ->
  (forall x, In x (t :: ts) -> well_formed x) ->
  trim raw = write_tokens sep (t :: ts) -> classify raw = TokenList.
Proof.
  intros S W E. unfold classify. rewrite E.
  assert (Wt := W t (or_introl eq_refl)).
  assert (Ne : is_empty (write_tokens sep (t :: ts)) = false).
  { destruct Wt as (A & _). apply signed_decimal_nonempty in A. revert A.
    destruct ts; cbn [write_tokens]; now destruct (tok_number t). }
  rewrite Ne, (token_char_no_colon _ (token_chars sep _ S W)).
  destruct (test_signed_decimal _) eqn:T; [|reflexivity].
  apply test_signed_decimal_iff, signed_decimal_chars in T.
  rewrite (written_has_letter sep t ts Wt) in T. discriminate.
Qed.

Lemma forallb_concat_repeat (p : char -> bool) (sep : jsstring) (n : nat) :
  forallb p sep = true -> forallb p (concat (repeat sep n)) = true.
Proof.
  intros S. induction n as [|n IH]; [reflexivity|].
  cbn [repeat concat]. now rewrite forallb_app, S, IH.
Qed.

Lemma written_parse (raw sep : jsstring) (ts : list token) :
  sep <> [] -> forallb is_space sep = true -> ts <> [] ->
  (forall t, In t ts ->
     well_formed t /\ canonical_token t
     /\ isFinite (StringToNumber (tok_number t)) = true) ->
  trim raw = write_tokens sep ts ->
  parseDurationMs raw = Return (Math_round (tokens_binary64 ts)).
Proof.
  intros N S Ne G E. destruct ts as [|t ts]; [congruence|].
  assert (W : forall x, In x (t :: ts) -> well_formed x) by (intros x I; now apply G).
  rewrite (parse_tokens raw (written_class raw sep t ts S W E)), E.
  destruct (written_scan sep (t :: ts) N S W) as [M R].
  rewrite M, R, (forallb_concat_repeat _ sep _ S).
  rewrite token_loop_ok; [reflexivity|].
  intros x I. destruct (G x I) as (_ & C & F). now split.
Qed.

(** X9.  A list of tokens written with white space between them parses:
    when every unit is a canonical spelling in any capitalisation and
    every number reads as a finite double, the result is [Math.round] of
    the running binary64 total. *)
Theorem X9_written_tokens_parse (raw sep : jsstring) (ts : list token) :
  sep <> [] -> forallb is_space sep = true -> ts <> [] ->
  (forall t, In t ts ->
     well_formed t /\ canonical_token t /\ finite_text (tok_number t)) ->
  trim raw = write_tokens sep ts ->
  parseDurationMs raw = Return (Math_round (tokens_binary64 ts)).
Proof.
  intros N S Ne G. apply written_parse; try assumption.
  intros t I. destruct (G t I) as ((A & B) & C & F).
  split; [now split|]. split; [exact C|]. now apply StringToNumber_finite.
Qed.

Lemma X9_written_tokens_parse_witness :
  parseDurationMs (str " 2H  15min ") = Return (of_Z 8100000).
Proof.
  rewrite (X9_written_tokens_parse (str " 2H  15min ") (str "  ")
             [Token (str "2") (str "H"); Token (str "15") (str "min")]).
  - vm_compute. reflexivity.
  - discriminate.
  - reflexivity.
  - discriminate.
  - intros t [<-|[<-|[]]]; (split; [split; [|split; [discriminate|reflexivity]]|]).
    + left. left. split; (discriminate || reflexivity).
    + split; [apply In_existsb|]; vm_compute; reflexivity.
    + left. left. split; (discriminate || reflexivity).
    + split; [apply In_existsb|]; vm_compute; reflexivity.
  - vm_compute. reflexivity.
Defined.

(** ** Doubles *)

Lemma round64_reduced (x q : Q) : round64 x = Fin q -> Qred q = q.
Proof.
  destruct (Qcompare_spec x 0) as [H|H|H].
  - rewrite (round64_zero x H). intros E. now injection E as <-.
  - rewrite (round64_neg x H).
    destruct (round_pos_cases (- x)) as [[E _]|[E _]]; rewrite E; [discriminate|].
    cbn [fneg]. destruct (Qeq_bool _ 0); [discriminate|].
    intros K. injection K as <-. apply Qred_involutive.
  - rewrite (round64_pos x H).
    destruct (round_pos_cases x) as [[E _]|[E _]]; rewrite E; [discriminate|].
    intros K. injection K as <-. apply Qred_involutive.
Qed.

Lemma round64_double (x : Q) : is_double (round64 x).
Proof.
  destruct (round64 x) as [| | |q] eqn:E; try exact I.
  split; [exact (round64_reduced x q E)|].
  change q with (value (Fin q)). rewrite <- E.
  apply round64_representable. now rewrite E.
Qed.

Lemma fmul_double (a b : number) : is_double (fmul a b).
Proof.
  destruct a as [|s| |p], b as [|t| |q]; cbn [fmul];
    try exact I; try (destruct (is_zero _); exact I);
    try (destruct (_ || _); [destruct (xorb _ _)|]);
    try exact I; try apply round64_double;
    split; try reflexivity; apply representable_0.
Qed.

Lemma fadd_double (a b : number) : is_double (fadd a b).
Proof.
  destruct a as [|s| |p], b as [|t| |q]; cbn [fadd];
    try exact I; try apply round64_double.
  now destruct (Bool.eqb s t).
Qed.

Lemma double_fixed (q : Q) : is_double (Fin q) -> round64 q = Fin q.
Proof. intros [E R]. now rewrite (round64_exact q R), E. Qed.

Lemma fadd_zero_l (x : number) :
  is_double x -> is_nonneg x = true -> fadd (of_Z 0) x = x.
Proof.
  destruct x as [|s| |q]; try discriminate.
  - now destruct s.
  - intros D _. cbn [fadd of_Z value].
    rewrite (round64_comp (inject_Z 0 + q) q) by (change (inject_Z 0) with 0; ring).
    now apply double_fixed.
Qed.

Lemma fmul_one_r (x : number) :
  is_double x -> is_nonneg x = true -> fmul x (of_Z 1) = x.
Proof.
  destruct x as [|s| |q]; try discriminate.
  - now destruct s.
  - intros D N. assert (S := is_nonneg_signbit _ N).
    unfold fmul. rewrite S. change (signbit (of_Z 1)) with false.
    cbn [is_zero of_Z value xorb].
    change (Qeq_bool (inject_Z 1) 0) with false. rewrite orb_false_r.
    destruct (Qeq_bool q 0) eqn:Z.
    + apply Qeq_bool_iff in Z. f_equal. destruct D as [E _].
      rewrite <- E. change 0 with (Qred 0). now apply Qred_complete.
    + rewrite (round64_comp (q * inject_Z 1) q) by (change (inject_Z 1) with 1; ring).
      now apply double_fixed.
Qed.

(** ** A clock time as a token list *)

Lemma split_plain (sep : char) (a : jsstring) :
  includes sep a = false -> split sep a = [a].
Proof.
  unfold includes. induction a as [|c a IH]; [reflexivity|].
  cbn [existsb split]. intros H. apply orb_false_iff in H as [Hc H].
  rewrite N.eqb_sym in Hc. now rewrite Hc, (IH H).
Qed.

Lemma split_app (sep : char) (a b : jsstring) :
  includes sep a = false -> split sep (a ++ sep :: b) = a :: split sep b.
Proof.
  unfold includes. induction a as [|c a IH].
  - intros _. cbn [app split]. now rewrite N.eqb_refl.
  - cbn [existsb app split]. intros H. apply orb_false_iff in H as [Hc H].
    rewrite N.eqb_sym in Hc. now rewrite Hc, (IH H).
Qed.

Lemma decimal_char_plain (c : char) : decimal_char c = true -> is_space c = false.
Proof.
  intros D. destruct (is_space c) eqn:S; [|reflexivity]. exfalso.
  revert D S. unfold decimal_char, is_space, is_sign, is_digit, plus, minus, dot.
  intros D S.
  assert (R : (c = 43 \/ c = 45 \/ 48 <= c <= 57 \/ c = 46)%N).
  { repeat (apply orb_true_iff in D as [D|D]);
      try (apply andb_true_iff in D as [D1 D2]; apply N.leb_le in D1, D2);
      try apply N.eqb_eq in D; lia. }
  repeat (apply orb_true_iff in S as [S|S]);
    try (apply andb_true_iff in S as [S1 S2]; apply N.leb_le in S1, S2);
    try apply N.eqb_eq in S; lia.
Qed.

Lemma drop_while_plain (s : jsstring) :
  forallb decimal_char s = true -> drop_while is_space s = s.
Proof.
  destruct s as [|c s]; [reflexivity|]. cbn [forallb drop_while].
  intros H. apply andb_true_iff in H as [H _].
  now rewrite (decimal_char_plain c H).
Qed.

Lemma trim_plain (s : jsstring) : forallb decimal_char s = true -> trim s = s.
Proof.
  intros H. unfold trim. rewrite (drop_while_plain s H).
  rewrite drop_while_plain by now rewrite forallb_rev.
  apply rev_involutive.
Qed.

Lemma colon_body_total (h m : jsstring) (s : option jsstring) (r : number) :
  colon_body h m s = Some r ->
  let hours := Math_abs (StringToNumber h) in
  let seconds := match s with Some x => StringToNumber x | None => of_Z 0 end in
  isFinite hours = true /\ isFinite (StringToNumber m) = true
  /\ isFinite seconds = true
  /\ r = Math_round
           (fmul (fadd (fadd (fmul hours (of_Z 3600000))
                             (fmul (StringToNumber m) (of_Z 60000)))
                       (fmul seconds (of_Z 1000)))
                 (if startsWith minus h then of_Z (-1) else of_Z 1)).
Proof.
  unfold colon_body. cbv zeta.
  destruct (_ || _); [discriminate|].
  destruct (negb (test_signed_digits h)); [discriminate|].
  destruct (negb (test_digits m)); [discriminate|].
  destruct (match s with Some x => negb (test_decimal x) | None => false end);
    [discriminate|].
  destruct (isFinite (Math_abs (StringToNumber h))); [|discriminate].
  destruct (isFinite (StringToNumber m)); [|discriminate].
  destruct (isFinite (match s with Some x => StringToNumber x | None => of_Z 0 end));
    [|discriminate].
  cbn [negb orb].
  destruct (_ || _); [discriminate|]. destruct (_ || _); [discriminate|].
  intros H. injection H as <-. repeat split.
Qed.

Lemma unsigned_reads_nonneg (s : jsstring) :
  unsigned_decimal s ->
  is_double (StringToNumber s) /\ is_nonneg (StringToNumber s) = true.
Proof.
  intros U. rewrite (StringToNumber_unsigned s U). split.
  - apply round64_double.
  - apply round64_nonneg, unsigned_value_nonneg.
Qed.

Lemma Math_abs_nonneg_num (a : number) : is_nonneg a = true -> Math_abs a = a.
Proof. intros N. unfold Math_abs. now rewrite (is_nonneg_signbit a N). Qed.

Lemma clock_term (s : jsstring) (c : Z) :
  unsigned_decimal s -> isFinite (StringToNumber s) = true -> (0 < c)%Z ->
  is_nonneg (fmul (StringToNumber s) (of_Z c)) = true.
Proof.
  intros U F C. apply fmul_nonneg; try assumption; try reflexivity.
  - now apply unsigned_reads_nonneg.
  - cbn [of_Z is_nonneg]. apply Qle_bool_iff. change 0 with (inject_Z 0).
    rewrite <- Zle_Qle. lia.
Qed.

(** X10.  The two notations agree: when [parseColonTimeToMs] accepts the
    clock time [h:m:s] written without a sign, the token list
    [h h, m m, s s], with any white space between the tokens, gives the
    same result. *)
Theorem X10_clock_as_tokens (raw sep h m s : jsstring) (r : number) :
  digits h -> digits m -> unsigned_decimal s ->
  sep <> [] -> forallb is_space sep = true ->
  parseColonTimeToMs (h ++ colon :: m ++ colon :: s) = Some r ->
  trim raw = write_tokens sep [Token h (str "h"); Token m (str "m");
                               Token s (str "s")] ->
  parseDurationMs raw = Return r.
Proof.
  intros Dh Dm Us N S P E.
  assert (Uh := digits_unsigned h Dh). assert (Um := digits_unsigned m Dm).
  assert (Ch := unsigned_decimal_chars h Uh).
  assert (Cm := unsigned_decimal_chars m Um).
  assert (Cs := unsigned_decimal_chars s Us).
  rewrite parseColonTimeToMs_eq in P.
  rewrite (split_app colon h _ (decimal_no_colon h Ch)) in P.
  rewrite (split_app colon m _ (decimal_no_colon m Cm)) in P.
  rewrite (split_plain colon s (decimal_no_colon s Cs)) in P.
  rewrite (trim_plain h Ch), (trim_plain m Cm), (trim_plain s Cs) in P.
  destruct (colon_body_total _ _ _ _ P) as (Fh & Fm & Fs & ->).
  destruct (unsigned_reads_nonneg h Uh) as [_ Nh].
  rewrite (Math_abs_nonneg_num _ Nh) in *.
  assert (Sg : startsWith minus h = false).
  { destruct (digits_cons h Dh) as (c & x & -> & Hc). cbn [startsWith].
    apply N.eqb_neq. intros ->. discriminate. }
  rewrite Sg.
  assert (T1 := clock_term h 3600000 Uh Fh eq_refl).
  assert (T2 := clock_term m 60000 Um Fm eq_refl).
  assert (T3 := clock_term s 1000 Us Fs eq_refl).
  rewrite fmul_one_r;
    [|apply fadd_double|apply fadd_nonneg; [apply fadd_nonneg|]; assumption].
  rewrite (written_parse raw sep
             [Token h (str "h"); Token m (str "m"); Token s (str "s")] N S);
    [|discriminate| |exact E].
  - unfold tokens_binary64. cbn [fold_left]. unfold token_term. cbn [tok_number].
    assert (K1 : token_factor (Token h (str "h")) = 3600000%Z)
      by (vm_compute; reflexivity).
    assert (K2 : token_factor (Token m (str "m")) = 60000%Z)
      by (vm_compute; reflexivity).
    assert (K3 : token_factor (Token s (str "s")) = 1000%Z)
      by (vm_compute; reflexivity).
    rewrite K1, K2, K3, (fadd_zero_l _ (fmul_double _ _) T1). reflexivity.
  - intros t [<-|[<-|[<-|[]]]]; cbn [tok_number];
      (split; [split; [now left|split; [discriminate|reflexivity]]|]);
      (split; [apply In_existsb; vm_compute; reflexivity|assumption]).
Qed.

Lemma X10_clock_as_tokens_witness :
  parseColonTimeToMs (str "01" ++ colon :: str "30" ++ colon :: str "15.250")
  = Some (of_Z 5415250)
  /\ parseDurationMs (str "01h 30m 15.250s") = Return (of_Z 5415250).
Proof.
  assert (Dh : digits (str "01")) by (split; [discriminate|reflexivity]).
  assert (Dm : digits (str "30")) by (split; [discriminate|reflexivity]).
  assert (Us : unsigned_decimal (str "15.250")).
  { right. exists (str "15"), (str "250").
    split; [reflexivity|]. split; split; (discriminate || reflexivity). }
  assert (N : str " " <> []) by discriminate.
  assert (E : trim (str "01h 30m 15.250s")
              = write_tokens (str " ") [Token (str "01") (str "h");
                                        Token (str "30") (str "m");
                                        Token (str "15.250") (str "s")])
    by (vm_compute; reflexivity).
  assert (P : parseColonTimeToMs (str "01" ++ colon :: str "30" ++ colon :: str "15.250")
              = Some (of_Z 5415250)) by (vm_compute; reflexivity).
  split; [exact P|].
  exact (X10_clock_as_tokens (str "01h 30m 15.250s") (str " ")
           (str "01") (str "30") (str "15.250") (of_Z 5415250)
           Dh Dm Us N eq_refl P E).
Defined.

(** ** The anchored patterns *)

(** X11.  The four anchored patterns of the source accept exactly the
    texts of their shape: [/^\d+$/] one or more digits, [/^[+-]?\d+$/]
    the same after an optional sign, [/^\d+(?:\.\d+)?$/] digits with an
    optional fraction, [/^[+-]?\d+(?:\.\d+)?$/] the same after an optional
    sign. *)
Theorem X11_anchored_patterns :
  (forall s, test_digits s = true <-> digits s)
  /\ (forall s, test_signed_digits s = true <-> signed digits s)
  /\ (forall s, test_decimal s = true <-> unsigned_decimal s)
  /\ (forall s, test_signed_decimal s = true <-> signed unsigned_decimal s).
Proof.
  split; [exact test_digits_iff|]. split; [exact test_signed_digits_iff|].
  split; [exact test_decimal_iff|exact test_signed_decimal_iff].
Qed.

(** ** Seconds left out *)

Lemma split_nonempty (sep : char) (s : jsstring) : split sep s <> [].
Proof.
  destruct s as [|c r]; [discriminate|]. cbn [split].
  destruct (c =? sep)%N; [discriminate|]. now destruct (split sep r).
Qed.

Lemma split_join (sep : char) (a b : jsstring) :
  split sep (a ++ sep :: b) = split sep a ++ split sep b.
Proof.
  induction a as [|c a IH].
  - cbn [app split]. now rewrite N.eqb_refl.
  - cbn [app split]. rewrite IH. destruct (c =? sep)%N; [reflexivity|].
    assert (N := split_nonempty sep a). now destruct (split sep a).
Qed.

Lemma colon_body_zero_seconds (h m : jsstring) :
  colon_body h m (Some (str "00")) = colon_body h m None.
Proof.
  assert (T : test_decimal (str "00") = true) by (vm_compute; reflexivity).
  assert (V : StringToNumber (str "00") = of_Z 0) by (vm_compute; reflexivity).
  unfold colon_body. now rewrite T, V.
Qed.

(** X12.  A clock time of two segments is the same as the clock time
    with the seconds written as 00: [parseColonTimeToMs] gives the same
    answer, value or refusal, for [H:M] and [H:M:00]. *)
Theorem X12_seconds_default_to_zero (t : jsstring) :
  length (split colon t) = 2%nat ->
  parseColonTimeToMs (t ++ str ":00") = parseColonTimeToMs t.
Proof.
  intros L. rewrite !parseColonTimeToMs_eq.
  change (t ++ str ":00") with (t ++ colon :: str "00").
  rewrite split_join.
  assert (S : split colon (str "00") = [str "00"]) by reflexivity.
  rewrite S. destruct (split colon t) as [|h [|m [|x l]]]; try discriminate.
  cbn [app]. assert (T : trim (str "00") = str "00") by reflexivity.
  rewrite T. apply colon_body_zero_seconds.
Qed.

Lemma X12_seconds_default_to_zero_witness :
  length (split colon (str " -01: 30 ")) = 2%nat
  /\ parseColonTimeToMs (str " -01: 30 " ++ str ":00") = Some (of_Z (-5400000)).
Proof.
  split; [reflexivity|].
  rewrite (X12_seconds_default_to_zero (str " -01: 30 ") eq_refl).
  vm_compute. reflexivity.
Defined.

(** ** The inherited name *)




(** ** Capital letters *)

Lemma lower_cases (c : char) :
  ((65 <= c <= 90)%N /\ lower c = (c + 32)%N) \/ (~ (65 <= c <= 90)%N /\ lower c = c).
Proof.
  unfold lower. destruct (N.leb_spec 65 c), (N.leb_spec c 90); cbn [andb];
    [left|right|right|right]; split; try reflexivity; lia.
Qed.

(** A class with no letter in it does not see the change of case. *)
Lemma lower_invariant (p : char -> bool) :
  (forall c, p c = true -> (c < 65 \/ 122 < c)%N) ->
  forall c, p (lower c) = p c.
Proof.
  intros R c. destruct (lower_cases c) as [[U ->]|[_ ->]]; [|reflexivity].
  destruct (p c) eqn:A; [apply R in A; lia|].
  destruct (p (c + 32)%N) eqn:B; [apply R in B; lia|reflexivity].
Qed.

Lemma lower_space (c : char) : is_space (lower c) = is_space c.
Proof.
  apply lower_invariant. clear c. intros c H. unfold is_space in H.
  repeat (apply orb_true_iff in H as [H|H]);
    try (apply andb_true_iff in H as [H1 H2]; apply N.leb_le in H1, H2);
    try apply N.eqb_eq in H; lia.
Qed.

Lemma lower_digit (c : char) : is_digit (lower c) = is_digit c.
Proof.
  apply lower_invariant. clear c. intros c H. unfold is_digit in H.
  apply andb_true_iff in H as [H1 H2]. apply N.leb_le in H1, H2. lia.
Qed.

Lemma lower_sign (c : char) : is_sign (lower c) = is_sign c.
Proof.
  apply lower_invariant. clear c. intros c H. unfold is_sign, plus, minus in H.
  apply orb_true_iff in H as [H|H]; apply N.eqb_eq in H; lia.
Qed.

Lemma lower_eqb (d c : char) :
  (d < 65)%N -> (lower c =? d)%N = (c =? d)%N.
Proof.
  intros D. apply (lower_invariant (fun x => (x =? d)%N)).
  intros x H. apply N.eqb_eq in H. lia.
Qed.

Lemma lower_alpha_same (c : char) : is_alpha (lower c) = is_alpha c.
Proof.
  destruct (lower_cases c) as [[U ->]|[_ ->]]; [|reflexivity].
  unfold is_alpha.
  assert (A : ((65 <=? c) && (c <=? 90))%N = true).
  { apply andb_true_iff. split; apply N.leb_le; lia. }
  assert (B : ((97 <=? c + 32) && (c + 32 <=? 122))%N = true).
  { apply andb_true_iff. split; apply N.leb_le; lia. }
  now rewrite A, B, orb_true_r.
Qed.

Lemma lower_decimal (c : char) : decimal_char (lower c) = decimal_char c.
Proof.
  unfold decimal_char. rewrite lower_sign, lower_digit.
  now rewrite (lower_eqb dot c eq_refl).
Qed.

Lemma lower_idempotent (c : char) : lower (lower c) = lower c.
Proof.
  destruct (lower_cases c) as [[U E]|[N E]]; rewrite E.
  - destruct (lower_cases (c + 32)%N) as [[U' _]|[_ E']]; [lia|exact E'].
  - now rewrite E.
Qed.

Lemma toLowerCase_idempotent (s : jsstring) :
  toLowerCase (toLowerCase s) = toLowerCase s.
Proof.
  unfold toLowerCase. rewrite map_map. apply map_ext, lower_idempotent.
Qed.

Lemma toLowerCase_app (a b : jsstring) :
  toLowerCase (a ++ b) = toLowerCase a ++ toLowerCase b.
Proof. apply map_app. Qed.

Lemma forallb_lower (p : char -> bool) (s : jsstring) :
  (forall c, p (lower c) = p c) ->
  forallb p (toLowerCase s) = forallb p s.
Proof.
  intros R. induction s as [|c s IH]; [reflexivity|].
  cbn [toLowerCase List.map forallb]. fold (toLowerCase s). now rewrite R, IH.
Qed.

Lemma decimal_fixed (s : jsstring) :
  forallb decimal_char s = true -> toLowerCase s = s.
Proof.
  induction s as [|c s IH]; [reflexivity|].
  cbn [forallb toLowerCase List.map]. fold (toLowerCase s).
  intros H. apply andb_true_iff in H as [Hc H]. rewrite (IH H). f_equal.
  destruct (lower_cases c) as [[U _]|[_ E]]; [|exact E].
  exfalso. unfold decimal_char, is_sign, is_digit, plus, minus, dot in Hc.
  repeat (apply orb_true_iff in Hc as [Hc|Hc]);
    try (apply andb_true_iff in Hc as [H1 H2]; apply N.leb_le in H1, H2);
    try apply N.eqb_eq in Hc; lia.
Qed.

(** A test that only texts of signs, digits and dots pass gives the same
    answer on the lowercased text. *)
Lemma test_lower (test : jsstring -> bool) (s : jsstring) :
  (forall x, test x = true -> forallb decimal_char x = true) ->
  test (toLowerCase s) = test s.
Proof.
  intros R. destruct (forallb decimal_char s) eqn:D.
  - now rewrite (decimal_fixed s D).
  - destruct (test s) eqn:A; [apply R in A; congruence|].
    destruct (test (toLowerCase s)) eqn:B; [|reflexivity].
    apply R in B. rewrite (forallb_lower _ s lower_decimal) in B. congruence.
Qed.

Lemma signed_digits_decimal (s : jsstring) :
  signed digits s -> signed unsigned_decimal s.
Proof.
  intros [D|(c & r & E & Sc & D)]; [left; now left|].
  right. exists c, r. repeat split; auto. now left.
Qed.

Lemma test_digits_lower (s : jsstring) :
  test_digits (toLowerCase s) = test_digits s.
Proof.
  apply test_lower. intros x H. now apply digits_chars, test_digits_iff.
Qed.

Lemma test_signed_digits_lower (s : jsstring) :
  test_signed_digits (toLowerCase s) = test_signed_digits s.
Proof.
  apply test_lower. intros x H.
  now apply signed_decimal_chars, signed_digits_decimal, test_signed_digits_iff.
Qed.

Lemma test_decimal_lower (s : jsstring) :
  test_decimal (toLowerCase s) = test_decimal s.
Proof.
  apply test_lower. intros x H. now apply unsigned_decimal_chars, test_decimal_iff.
Qed.

Lemma test_signed_decimal_lower (s : jsstring) :
  test_signed_decimal (toLowerCase s) = test_signed_decimal s.
Proof.
  apply test_lower. intros x H.
  now apply signed_decimal_chars, test_signed_decimal_iff.
Qed.

(** *** Trimming and splitting *)

Lemma drop_while_lower (p : char -> bool) (s : jsstring) :
  (forall c, p (lower c) = p c) ->
  drop_while p (toLowerCase s) = toLowerCase (drop_while p s).
Proof.
  intros R. induction s as [|c s IH]; [reflexivity|].
  cbn [toLowerCase List.map drop_while]. fold (toLowerCase s).
  rewrite R. destruct (p c); [exact IH|reflexivity].
Qed.

Lemma trim_lower (s : jsstring) : trim (toLowerCase s) = toLowerCase (trim s).
Proof.
  unfold trim. rewrite (drop_while_lower _ s lower_space).
  unfold toLowerCase at 1. rewrite <- map_rev. fold (toLowerCase (rev (drop_while is_space s))).
  rewrite (drop_while_lower _ _ lower_space). unfold toLowerCase. now rewrite map_rev.
Qed.

Lemma is_empty_lower (s : jsstring) : is_empty (toLowerCase s) = is_empty s.
Proof. now destruct s. Qed.

Lemma includes_lower (d : char) (s : jsstring) :
  (d < 65)%N -> includes d (toLowerCase s) = includes d s.
Proof.
  intros D. unfold includes. induction s as [|c s IH]; [reflexivity|].
  cbn [toLowerCase List.map existsb]. fold (toLowerCase s). rewrite IH.
  now rewrite (N.eqb_sym d (lower c)), (lower_eqb d c D), (N.eqb_sym c d).
Qed.

Lemma split_lower (d : char) (s : jsstring) :
  (d < 65)%N ->
  split d (toLowerCase s) = List.map toLowerCase (split d s).
Proof.
  intros D. induction s as [|c s IH]; [reflexivity|].
  cbn [toLowerCase List.map split]. fold (toLowerCase s).
  rewrite (lower_eqb d c D), IH. destruct (c =? d)%N; [reflexivity|].
  now destruct (split d s).
Qed.

(** *** Scanning *)

Lemma span_lower (p : char -> bool) (s : jsstring) :
  (forall c, p (lower c) = p c) ->
  span p (toLowerCase s)
  = (toLowerCase (fst (span p s)), toLowerCase (snd (span p s))).
Proof.
  intros R. induction s as [|c s IH]; [reflexivity|].
  cbn [toLowerCase List.map span]. fold (toLowerCase s). rewrite R, IH.
  destruct (p c); [|reflexivity]. now destruct (span p s).
Qed.

Lemma digits1_lower (s : jsstring) :
  digits1 (toLowerCase s)
  = match digits1 s with
    | Some (a, b) => Some (toLowerCase a, toLowerCase b)
    | None => None
    end.
Proof.
  unfold digits1. rewrite (span_lower _ s lower_digit).
  destruct (span is_digit s) as [[|c a] b]; reflexivity.
Qed.

Lemma opt_sign_lower (s : jsstring) :
  opt_sign (toLowerCase s)
  = (toLowerCase (fst (opt_sign s)), toLowerCase (snd (opt_sign s))).
Proof.
  destruct s as [|c s]; [reflexivity|].
  cbn [toLowerCase List.map opt_sign]. rewrite lower_sign.
  now destruct (is_sign c).
Qed.

Lemma opt_fraction_lower (s : jsstring) :
  opt_fraction (toLowerCase s)
  = (toLowerCase (fst (opt_fraction s)), toLowerCase (snd (opt_fraction s))).
Proof.
  destruct s as [|c s]; [reflexivity|].
  cbn [toLowerCase List.map opt_fraction]. fold (toLowerCase s).
  rewrite (lower_eqb dot c eq_refl). destruct (c =? dot)%N eqn:E; [|reflexivity].
  apply N.eqb_eq in E. subst c. rewrite digits1_lower.
  now destruct (digits1 s) as [[a b]|].
Qed.

Lemma number_prefix_lower (s : jsstring) :
  number_prefix (toLowerCase s)
  = match number_prefix s with
    | Some (a, b) => Some (toLowerCase a, toLowerCase b)
    | None => None
    end.
Proof.
  unfold number_prefix. rewrite opt_sign_lower.
  destruct (opt_sign s) as [sg s1]. cbn [fst snd]. rewrite digits1_lower.
  destruct (digits1 s1) as [[ds s2]|]; [|reflexivity].
  rewrite opt_fraction_lower. destruct (opt_fraction s2) as [fr s3]. cbn [fst snd].
  now rewrite !toLowerCase_app.
Qed.

Lemma TOKEN_REG_EX_lower (s : jsstring) :
  TOKEN_REG_EX (toLowerCase s)
  = match TOKEN_REG_EX s with
    | Some (t, rest) => Some (lower_token t, toLowerCase rest)
    | None => None
    end.
Proof.
  rewrite !TOKEN_REG_EX_greedy. unfold greedy_token. rewrite number_prefix_lower.
  destruct (number_prefix s) as [[num s1]|]; [|reflexivity].
  rewrite (span_lower _ s1 lower_space). destruct (span is_space s1) as [ws s2].
  cbn [fst snd]. rewrite (span_lower _ s2 lower_alpha_same).
  destruct (span is_alpha s2) as [[|c u] s3]; reflexivity.
Qed.

Lemma toLowerCase_length (s : jsstring) : length (toLowerCase s) = length s.
Proof. apply length_map. Qed.

Lemma scan_from_lower (n : nat) (s : jsstring) :
  scan_from n (toLowerCase s) = List.map lower_piece (scan_from n s).
Proof.
  revert s. induction n as [|n IH]; intros s; [reflexivity|].
  destruct s as [|c r]; [reflexivity|].
  change (toLowerCase (c :: r)) with (lower c :: toLowerCase r).
  cbn [scan_from]. change (lower c :: toLowerCase r) with (toLowerCase (c :: r)).
  rewrite TOKEN_REG_EX_lower.
  destruct (TOKEN_REG_EX (c :: r)) as [[t rest]|]; cbn [List.map lower_piece];
    now rewrite IH.
Qed.

Lemma scan_lower (s : jsstring) :
  scan (toLowerCase s) = List.map lower_piece (scan s).
Proof. unfold scan. rewrite toLowerCase_length. apply scan_from_lower. Qed.

Lemma matchAll_lower (s : jsstring) :
  matchAll (toLowerCase s) = List.map lower_token (matchAll s).
Proof.
  unfold matchAll. rewrite scan_lower.
  induction (scan s) as [|[c|t] l IH]; cbn [List.map flat_map lower_piece app];
    now rewrite ?IH.
Qed.

Lemma replace_all_lower (s : jsstring) :
  replace_all (toLowerCase s) = toLowerCase (replace_all s).
Proof.
  unfold replace_all. rewrite scan_lower.
  induction (scan s) as [|[c|t] l IH];
    cbn [List.map flat_map lower_piece app toLowerCase]; now rewrite ?IH.
Qed.

(** *** The loop *)

Lemma token_step_lower (x y : jsstring) (total : number) (t : token) :
  forallb decimal_char (tok_number t) = true ->
  returned (match token_step x total (lower_token t) with
            | inl e => Throw e | inr v => Return v end)
  = returned (match token_step y total t with
              | inl e => Throw e | inr v => Return v end).
Proof.
  intros D. unfold token_step, lower_token. cbn [tok_number tok_unit].
  rewrite (decimal_fixed _ D), toLowerCase_idempotent.
  destruct (isFinite _); cbn [negb]; [|reflexivity].
  now destruct (falsy _).
Qed.

Lemma token_loop_lower (x y : jsstring) (ts : list token) (total : number) :
  (forall t, In t ts -> forallb decimal_char (tok_number t) = true) ->
  returned (match token_loop x total (List.map lower_token ts) with
            | inl e => Throw e | inr v => Return v end)
  = returned (match token_loop y total ts with
              | inl e => Throw e | inr v => Return v end).
Proof.
  revert total. induction ts as [|t ts IH]; intros total D; [reflexivity|].
  cbn [List.map token_loop].
  assert (S := token_step_lower x y total t (D t (or_introl eq_refl))).
  destruct (token_step x total (lower_token t)) as [e|v],
           (token_step y total t) as [e'|v']; cbn [returned] in S;
    try discriminate; [reflexivity|].
  injection S as ->. apply IH. intros u I. apply D. now right.
Qed.

(** *** Clock times *)

Lemma colon_body_lower (h m : jsstring) (s : option jsstring) :
  colon_body (toLowerCase h) (toLowerCase m) (option_map toLowerCase s)
  = colon_body h m s.
Proof.
  unfold colon_body. rewrite !is_empty_lower.
  rewrite test_signed_digits_lower, test_digits_lower.
  assert (T : match option_map toLowerCase s with
              | Some x => negb (test_decimal x) | None => false end
              = match s with Some x => negb (test_decimal x) | None => false end).
  { destruct s as [x|]; [|reflexivity]. cbn [option_map].
    now rewrite test_decimal_lower. }
  rewrite T. destruct (_ || _); [reflexivity|].
  destruct (test_signed_digits h) eqn:Th; [|reflexivity].
  destruct (test_digits m) eqn:Tm; [|reflexivity]. cbn [negb].
  destruct (match s with Some x => negb (test_decimal x) | None => false end) eqn:Ts;
    [reflexivity|].
  assert (Eh : toLowerCase h = h).
  { apply decimal_fixed, signed_decimal_chars, signed_digits_decimal.
    now apply test_signed_digits_iff. }
  assert (Em : toLowerCase m = m).
  { apply decimal_fixed, digits_chars. now apply test_digits_iff. }
  assert (Es : option_map toLowerCase s = s).
  { destruct s as [x|]; [|reflexivity]. cbn [option_map]. f_equal.
    apply decimal_fixed, unsigned_decimal_chars, test_decimal_iff.
    now destruct (test_decimal x). }
  now rewrite Eh, Em, Es.
Qed.

Lemma parseColonTimeToMs_lower (t : jsstring) :
  parseColonTimeToMs (toLowerCase t) = parseColonTimeToMs t.
Proof.
  rewrite !parseColonTimeToMs_eq, (split_lower colon t eq_refl).
  destruct (split colon t) as [|h [|m [|s [|x l]]]]; cbn [List.map];
    try reflexivity; rewrite !trim_lower.
  - exact (colon_body_lower (trim h) (trim m) None).
  - exact (colon_body_lower (trim h) (trim m) (Some (trim s))).
Qed.

Lemma returned_lower (raw : jsstring) :
  returned (parseDurationMs (toLowerCase raw)) = returned (parseDurationMs raw).
Proof.
  unfold parseDurationMs. cbv zeta.
  rewrite trim_lower, is_empty_lower, (includes_lower colon _ eq_refl).
  rewrite parseColonTimeToMs_lower, test_signed_decimal_lower.
  destruct (is_empty (trim raw)); [reflexivity|].
  destruct (includes colon (trim raw)).
  { now destruct (parseColonTimeToMs (trim raw)). }
  destruct (test_signed_decimal (trim raw)) eqn:T.
  { rewrite (decimal_fixed (trim raw))
      by now apply signed_decimal_chars, test_signed_decimal_iff.
    now destruct (isFinite _). }
  rewrite matchAll_lower, replace_all_lower.
  assert (D : forall t, In t (matchAll (trim raw)) ->
                forallb decimal_char (tok_number t) = true).
  { intros t I. apply signed_decimal_chars. now destruct (matchAll_token _ _ I). }
  assert (L := token_loop_lower (toLowerCase raw) raw _ (of_Z 0) D).
  destruct (token_loop (toLowerCase raw) (of_Z 0)
              (List.map lower_token (matchAll (trim raw)))) as [e|v],
           (token_loop raw (of_Z 0) (matchAll (trim raw))) as [e'|v'];
    cbn [returned] in L; try discriminate; [reflexivity|].
  injection L as ->. rewrite length_map.
  assert (R : trim (toLowerCase (replace_all (trim raw)))
              = toLowerCase (trim (replace_all (trim raw)))) by apply trim_lower.
  rewrite R, toLowerCase_length. now destruct (_ || _).
Qed.

(** X14.  Capital letters do not matter: two inputs that differ only in
    the case of their letters return the same value, or both fail. *)
Theorem X14_case_is_ignored (a b : jsstring) :
  toLowerCase a = toLowerCase b ->
  returned (parseDurationMs a) = returned (parseDurationMs b).
Proof.
  intros E. rewrite <- (returned_lower a), <- (returned_lower b). now rewrite E.
Qed.

Lemma X14_case_is_ignored_witness :
  returned (parseDurationMs (str "2 Hours 15MIN")) = Some (of_Z 8100000)
  /\ returned (parseDurationMs (str "2 hours 15min")) = Some (of_Z 8100000).
Proof.
  assert (H : returned (parseDurationMs (str "2 hours 15min")) = Some (of_Z 8100000))
    by (vm_compute; reflexivity).
  split; [|exact H].
  rewrite (X14_case_is_ignored (str "2 Hours 15MIN") (str "2 hours 15min") eq_refl).
  exact H.
Defined.
